(** * briltxt: the text format of Bril, its parser, printer and import resolver

    A shallow embedding of [bril-txt/briltxt.py].  The file follows the
    source top to bottom:

    - the lexical rules and the rules of [GRAMMAR], read as a scannerless
      parser (the Earley engine of lark with its dynamic lexer matches
      every terminal as a regular expression at the current position, the
      longest match wins, [WS] and [COMMENT] are skipped between
      terminals); the alternatives of [instr] are tried as an ordered
      choice, [def_func] (the only alternative with a brace) first and the
      others by decreasing rule priority;
    - [JSONTransformer], callback by callback, over the list [items] of
      already transformed children;
    - [parse_bril], [unroll_imports] and the pretty-printer;
    - the three commands [bril2json], [bril2txt] and [loadbril].

    Python exceptions are values of [exn]; a function that may raise
    returns a [result]. *)

From Stdlib Require Import ZArith Ascii String DecimalString DecimalZ.
From stdpp Require Import base option list strings gmap.

Set Warnings "-register-all,-clear-no-such-hyp".

(** ** Exceptions and results *)

Inductive exn :=
| UnexpectedInput                       (* lark: the text is not in the grammar *)
| IndexError                            (* list index / pop out of range *)
| KeyError (key : string)               (* missing dict key *)
| TypeError                             (* a value of an unexpected Python type *)
| ValueError                            (* int() or str() beyond the limit of digits *)
| DefinedTwice (names : list string)    (* RuntimeError('Function(s) defined twice: ...') *)
| SystemExit (module_name : string)     (* 'Failed to load <module>.bril', sys.exit(1) *)
| VisitError (orig_exc : exn).          (* lark: an exception raised inside a callback *)

Inductive result (A : Type) :=
| Ok (a : A)
| Raise (e : exn).
Arguments Ok {A} a.
Arguments Raise {A} e.

#[global] Instance result_ret : MRet result := λ A a, Ok a.
#[global] Instance result_bind : MBind result := λ A B k r,
  match r with
  | Ok a => k a
  | Raise e => Raise e
  end.

(** [[f(a) for a in l]], stopping at the first exception. *)
Fixpoint mapM {A B} (f : A → result B) (l : list A) : result (list B) :=
  match l with
  | [] => Ok []
  | a :: l' => b ← f a; bs ← mapM f l'; Ok (b :: bs)
  end.

(** ** Data model: the dicts built by the transformer *)

Inductive literal :=
| LInt (z : Z)
| LBool (b : bool).

Record arg := Arg {
  arg_name : string;
  arg_type : option string;            (* None when the arg has no annotation *)
}.

(** An element of a function's ['instrs'] list.  The first four are the
    dicts of [const], [vop], [eop] and [label]; [IFunc] is the dict of a
    nested [def_func]. *)
Inductive instr :=
| IConst (dest type : string) (value : literal)
| IValue (op dest type : string) (args : list string)
| IEffect (op : string) (args : list string)
| ILabel (label : string)
| IFunc (f : function)
with function :=
| Function (name : string) (instrs : list instr)
           (args : option (list arg))   (* key 'args', absent when there are none *)
           (type : option string).      (* key 'type', absent without a return type *)

Definition name (f : function) : string :=
  let 'Function n _ _ _ := f in n.
Definition instrs (f : function) : list instr :=
  let 'Function _ i _ _ := f in i.
Definition func_args (f : function) : option (list arg) :=
  let 'Function _ _ a _ := f in a.
Definition func_type (f : function) : option string :=
  let 'Function _ _ _ t := f in t.

Record program := Program {
  functions : list function;
  imports : option (list string);       (* key 'imports', absent when there are none *)
}.

(** ** Integers and their decimal text *)

(** [sys.get_int_max_str_digits()], as Python sets it: [int] of a text
    and [str] of an integer raise ValueError beyond this number of
    digits. *)
Definition int_max_str_digits : Z := 4300.

(** The text without its sign. *)
Definition unsigned (s : string) : string :=
  match s with
  | String c r => if ((c =? "+") || (c =? "-"))%char then r else s
  | "" => s
  end.

Definition too_long (digits : string) : bool :=
  (int_max_str_digits <? Z.of_nat (String.length digits))%Z.

(** ** Lexical rules *)

Module Lexical.

Definition nl : ascii := "010"%char.

Definition LETTER (c : ascii) : bool :=
  (("a" <=? c) && (c <=? "z") || ("A" <=? c) && (c <=? "Z"))%char.

Definition DIGIT (c : ascii) : bool :=
  (("0" <=? c) && (c <=? "9"))%char.

(** [common.WS] is [/[ \t\f\r\n]/+]. *)
Definition WS (c : ascii) : bool :=
  ((c =? " ") || (c =? "009") || (c =? "012") || (c =? "013") || (c =? nl))%char.

(** [CNAME: ("_"|LETTER) ("_"|LETTER|DIGIT)*] *)
Definition CNAME_start (c : ascii) : bool := (c =? "_")%char || LETTER c.
Definition CNAME_rest (c : ascii) : bool := (c =? "_")%char || LETTER c || DIGIT c.

(** [IDENT: ("_"|"%"|LETTER) ("_"|"%"|"."|LETTER|DIGIT)*] *)
Definition IDENT_start (c : ascii) : bool :=
  (c =? "_")%char || (c =? "%")%char || LETTER c.
Definition IDENT_rest (c : ascii) : bool :=
  (c =? "_")%char || (c =? "%")%char || (c =? ".")%char || LETTER c || DIGIT c.

(** The longest prefix of [s] whose characters satisfy [p], and the rest. *)
Fixpoint span (p : ascii → bool) (s : string) : string * string :=
  match s with
  | String c s' =>
      if p c then let '(w, r) := span p s' in (String c w, r) else ("", s)
  | "" => ("", "")
  end.

(** [%ignore WS] and [%ignore COMMENT]: drop white space and [#] comments
    (a comment runs up to, not including, the next newline). *)
Fixpoint skip_ignored (in_comment : bool) (s : string) : string :=
  match s with
  | "" => ""
  | String c s' =>
      if in_comment then
        if (c =? nl)%char then skip_ignored false s' else skip_ignored true s'
      else if WS c then skip_ignored false s'
      else if (c =? "#")%char then skip_ignored true s'
      else s
  end.

Definition all_chars (p : ascii → bool) (s : string) : bool :=
  forallb p (list_ascii_of_string s).

(** The whole string is one [CNAME] / one [IDENT]. *)
Definition is_CNAME (s : string) : bool :=
  match s with
  | String c s' => CNAME_start c && all_chars CNAME_rest s'
  | "" => false
  end.

Definition is_IDENT (s : string) : bool :=
  match s with
  | String c s' => IDENT_start c && all_chars IDENT_rest s'
  | "" => false
  end.

End Lexical.

(** ** The concrete parse tree of lark *)

Inductive tree :=
| Token (type_ : string) (value : string)
| Tree (data : string) (children : list tree).

(** ** GRAMMAR *)

Module Grammar.
Import Lexical.

Definition parser (A : Type) : Type := string → option (A * string).

#[global] Instance parser_ret : MRet parser := λ A a s, Some (a, s).

#[global] Instance parser_bind : MBind parser := λ A B k p s,
  match p s with
  | Some (a, s') => k a s'
  | None => None
  end.

(** Ordered choice. *)
Definition alt {A} (p q : parser A) : parser A := λ s,
  match p s with
  | Some r => Some r
  | None => q s
  end.

Infix "<|>" := alt (at level 50, left associativity).

(** An anonymous terminal such as ["{"] or ["const"]: matched as a plain
    prefix, filtered out of the tree. *)
Fixpoint strip_prefix (kw s : string) : option string :=
  match kw, s with
  | "", _ => Some s
  | String a kw', String b s' => if (a =? b)%char then strip_prefix kw' s' else None
  | String _ _, "" => None
  end.

Definition keyword (kw : string) : parser unit := λ s,
  match strip_prefix kw (skip_ignored false s) with
  | Some r => Some ((), r)
  | None => None
  end.

(** A terminal given by a first-character class and a class for the rest. *)
Definition word (type_ : string) (start rest : ascii → bool) : parser tree := λ s,
  match skip_ignored false s with
  | String c s' =>
      if start c then let '(w, r) := span rest s' in Some (Token type_ (String c w), r)
      else None
  | "" => None
  end.

Definition CNAME : parser tree := word "CNAME" CNAME_start CNAME_rest.
Definition IDENT : parser tree := word "IDENT" IDENT_start IDENT_rest.

(** [BOOL: "true" | "false"] *)
Definition BOOL : parser tree := λ s,
  let s := skip_ignored false s in
  match strip_prefix "true" s with
  | Some r => Some (Token "BOOL" "true", r)
  | None =>
      match strip_prefix "false" s with
      | Some r => Some (Token "BOOL" "false", r)
      | None => None
      end
  end.

(** [common.SIGNED_INT: ["+"|"-"] INT], [INT: DIGIT+] *)
Definition SIGNED_INT : parser tree := λ s,
  let s := skip_ignored false s in
  let '(sign, s1) :=
    match s with
    | String c r => if ((c =? "+") || (c =? "-"))%char then (String c "", r) else ("", s)
    | "" => ("", s)
    end in
  let '(ds, r) := span DIGIT s1 in
  match ds with
  | "" => None
  | _ => Some (Token "SIGNED_INT" (sign +:+ ds), r)
  end.

(** [type: CNAME] *)
Definition type : parser tree :=
  t ← CNAME; mret (Tree "type" [t]).

(** [lit: SIGNED_INT -> int | BOOL -> bool] *)
Definition lit : parser tree :=
  (t ← SIGNED_INT; mret (Tree "int" [t])) <|> (t ← BOOL; mret (Tree "bool" [t])).

(** [arg: IDENT | "(" IDENT ":" type ")"] *)
Definition arg : parser tree :=
  (i ← IDENT; mret (Tree "arg" [i]))
  <|> (keyword "(";; i ← IDENT; keyword ":";; t ← type; keyword ")";;
       mret (Tree "arg" [i; t])).

(** [p*], at most [fuel] times. *)
Fixpoint many {A} (fuel : nat) (p : parser A) (s : string) : list A * string :=
  match fuel with
  | 0 => ([], s)
  | S n =>
      match p s with
      | Some (a, s') => let '(l, r) := many n p s' in (a :: l, r)
      | None => ([], s)
      end
  end.

Definition star {A} (fuel : nat) (p : parser A) : parser (list A) := λ s,
  Some (many fuel p s).

(** [const.4: IDENT ":" type "=" "const" lit ";"] *)
Definition const : parser tree :=
  d ← IDENT; keyword ":";; t ← type; keyword "=";; keyword "const";;
  v ← lit; keyword ";";; mret (Tree "const" [d; t; v]).

(** [vop.3: IDENT ":" type "=" CNAME IDENT* ";"] *)
Definition vop (fuel : nat) : parser tree :=
  d ← IDENT; keyword ":";; t ← type; keyword "=";; o ← CNAME;
  a ← star fuel IDENT; keyword ";";; mret (Tree "vop" (d :: t :: o :: a)).

(** [eop.2: CNAME IDENT* ";"] *)
Definition eop (fuel : nat) : parser tree :=
  o ← CNAME; a ← star fuel IDENT; keyword ";";; mret (Tree "eop" (o :: a)).

(** [label.1: IDENT ":"] *)
Definition label : parser tree :=
  l ← IDENT; keyword ":";; mret (Tree "label" [l]).

(** [func], [def_func] and [?instr] are mutually recursive; [fuel] bounds
    the nesting depth and the number of repetitions.  The two rules that
    call back into [func] take it as an argument.

    [def_func: "def" func] *)
Definition def_func_with (func : parser tree) : parser tree :=
  keyword "def";; f ← func; mret (Tree "def_func" [f]).

(** [?instr: def_func | const | vop | eop | label] (inlined: no [instr]
    node in the tree) *)
Definition instr_with (func : parser tree) (fuel : nat) : parser tree :=
  def_func_with func <|> const <|> vop fuel <|> eop fuel <|> label.

(** [func: CNAME arg* "{" instr* "}" | CNAME arg* ":" type "{" instr* "}"] *)
Fixpoint func (fuel : nat) : parser tree :=
  match fuel with
  | 0 => λ _, None
  | S n =>
      let instr := instr_with (func n) (S n) in
      n_ ← CNAME; a ← star (S n) arg;
      ((keyword "{";; i ← star (S n) instr; keyword "}";;
        mret (Tree "func" (n_ :: a ++ i)))
       <|> (keyword ":";; t ← type; keyword "{";; i ← star (S n) instr;
            keyword "}";; mret (Tree "func" (n_ :: a ++ t :: i))))
  end.

Definition def_func (fuel : nat) : parser tree := def_func_with (func fuel).

Definition instr (fuel : nat) : parser tree := instr_with (func fuel) (S fuel).

(** [imp: "import" CNAME ";"] *)
Definition imp : parser tree :=
  keyword "import";; m ← CNAME; keyword ";";; mret (Tree "imp" [m]).

(** [start: imp* func*], up to the end of the text. *)
Definition start (fuel : nat) : parser tree :=
  i ← star fuel imp; f ← star fuel (func fuel); mret (Tree "start" (i ++ f)).

(** [lark.Lark(GRAMMAR).parse(txt)] *)
Definition parse (txt : string) : result tree :=
  match start (S (String.length txt)) txt with
  | Some (t, r) =>
      match skip_ignored false r with
      | "" => Ok t
      | _ => Raise UnexpectedInput
      end
  | None => Raise UnexpectedInput
  end.

End Grammar.

(** ** JSONTransformer *)

(** What a transformed child can be: lark leaves tokens and the trees
    without a callback ([arg]) as they are; the callbacks return plain
    strings, numbers, booleans and dicts. *)
Inductive value :=
| VToken (type_ : string) (text : string)     (* lark.lexer.Token, a str subclass *)
| VStr (s : string)                           (* exactly str *)
| VInt (z : Z)
| VBool (b : bool)
| VTree (data : string) (children : list value)
| VInstr (i : instr)
| VFunc (f : function)
| VProg (p : program).

Module JSONTransformer.

(** [str(t)] of a token or string. *)
Definition str (v : value) : result string :=
  match v with
  | VToken _ s | VStr s => Ok s
  | _ => Raise TypeError
  end.

(** [items.pop(0)] *)
Definition pop0 (items : list value) : result (value * list value) :=
  match items with
  | v :: items' => Ok (v, items')
  | [] => Raise IndexError
  end.

(** The elements of an ['instrs'] list, typed. *)
Definition as_instr (v : value) : result instr :=
  match v with
  | VInstr i => Ok i
  | VFunc f => Ok (IFunc f)
  | _ => Raise TypeError
  end.

Definition as_function (v : value) : result function :=
  match v with
  | VFunc f => Ok f
  | _ => Raise TypeError
  end.

Definition as_literal (v : value) : result literal :=
  match v with
  | VInt z => Ok (LInt z)
  | VBool b => Ok (LBool b)
  | _ => Raise TypeError
  end.

(** [while len(items) > 0 and type(items[0]) == lark.lexer.Token:
       imports.append(items.pop(0))] *)
Fixpoint leading_tokens (items : list value) : list string * list value :=
  match items with
  | VToken _ s :: items' =>
      let '(imports, rest) := leading_tokens items' in (s :: imports, rest)
  | _ => ([], items)
  end.

Definition start (items : list value) : result value :=
  let '(imports, items) := leading_tokens items in
  fs ← mapM as_function items;
  Ok (VProg {| functions := fs;
               imports := match imports with [] => None | _ => Some imports end |}).

Definition imp (items : list value) : result value :=
  '(m, _) ← pop0 items; Ok m.

(** [dict(name=arg[0], type=arg[1] if len(arg) > 1 else None)] *)
Definition arg_dict (children : list value) : result arg :=
  match children with
  | [] => Raise IndexError
  | n :: rest =>
      n ← str n;
      t ← match rest with
          | [] => Ok None
          | t :: _ => t ← str t; Ok (Some t)
          end;
      Ok (Arg n t)
  end.

(** [while (len(items) > 0 and type(items[0]) == lark.tree.Tree and
            items[0].data == "arg"): ...] *)
Fixpoint leading_args (items : list value) : result (list arg * list value) :=
  match items with
  | VTree data children :: items' =>
      if String.eqb data "arg" then
        a ← arg_dict children;
        '(args, rest) ← leading_args items';
        Ok (a :: args, rest)
      else Ok ([], items)
  | _ => Ok ([], items)
  end.

Definition func (items : list value) : result value :=
  '(name, items) ← pop0 items;
  '(args, items) ← leading_args items;
  (* function_type = items.pop(0) if type(items[0]) == str else None *)
  '(function_type, items) ←
    match items with
    | [] => Raise IndexError                       (* items[0] *)
    | VStr t :: items' => Ok (Some t, items')
    | _ :: _ => Ok (None, items)
    end;
  name ← str name;
  instrs ← mapM as_instr items;
  Ok (VFunc (Function name instrs
               (match args with [] => None | _ => Some args end)
               function_type)).

Definition def_func (items : list value) : result value :=
  '(f, _) ← pop0 items; Ok f.

Definition const (items : list value) : result value :=
  '(dest, items) ← pop0 items;
  '(type, items) ← pop0 items;
  '(val, items) ← pop0 items;
  dest ← str dest; type ← str type; val ← as_literal val;
  Ok (VInstr (IConst dest type val)).

Definition vop (items : list value) : result value :=
  '(dest, items) ← pop0 items;
  '(type, items) ← pop0 items;
  '(op, items) ← pop0 items;
  op ← str op; dest ← str dest; type ← str type;
  args ← mapM str items;
  Ok (VInstr (IValue op dest type args)).

Definition eop (items : list value) : result value :=
  '(op, items) ← pop0 items;
  op ← str op;
  args ← mapM str items;
  Ok (VInstr (IEffect op args)).

Definition label (items : list value) : result value :=
  '(name, _) ← pop0 items;
  name ← str name;
  Ok (VInstr (ILabel name)).

(** Python's [int] on the text of a [SIGNED_INT] token: [None] is its
    ValueError, raised for a text that is no number and for one with more
    than [int_max_str_digits] digits. *)
Definition py_int (s : string) : option Z :=
  if too_long (unsigned s) then None
  else
    match s with
    | String c r =>
        if (c =? "+")%char then Z.of_uint <$> NilZero.uint_of_string r
        else Z.of_int <$> NilZero.int_of_string s
    | "" => None
    end.

Definition int (items : list value) : result value :=
  '(t, _) ← pop0 items;
  s ← str t;
  match py_int s with
  | Some z => Ok (VInt z)
  | None => Raise ValueError
  end.

Definition bool (items : list value) : result value :=
  '(t, _) ← pop0 items;
  s ← str t;
  Ok (VBool (String.eqb s "true")).

Definition type (items : list value) : result value :=
  '(t, _) ← pop0 items;
  s ← str t;
  Ok (VStr s).

(** The method named like the rule, [__default__] (rebuild the tree) when
    there is none. *)
Definition callback (data : string) (items : list value) : result value :=
  if String.eqb data "start" then start items
  else if String.eqb data "imp" then imp items
  else if String.eqb data "func" then func items
  else if String.eqb data "def_func" then def_func items
  else if String.eqb data "const" then const items
  else if String.eqb data "vop" then vop items
  else if String.eqb data "eop" then eop items
  else if String.eqb data "label" then label items
  else if String.eqb data "int" then int items
  else if String.eqb data "bool" then bool items
  else if String.eqb data "type" then type items
  else Ok (VTree data items).

(** [_call_userfunc]: an exception raised by the callback leaves lark
    wrapped in a VisitError. *)
Definition call_userfunc (data : string) (items : list value) : result value :=
  match callback data items with
  | Ok v => Ok v
  | Raise e => Raise (VisitError e)
  end.

(** [transform]: children first, left to right, then the node itself. *)
Fixpoint transform (t : tree) : result value :=
  match t with
  | Token type_ s => Ok (VToken type_ s)
  | Tree data children =>
      items ← (fix go (l : list tree) : result (list value) :=
                 match l with
                 | [] => Ok []
                 | c :: l' => v ← transform c; vs ← go l'; Ok (v :: vs)
                 end) children;
      call_userfunc data items
  end.

End JSONTransformer.

(** ** parse_bril *)

(** [dups = [f for f in function_names if f in unique and not unique.add(f)]]:
    a name is kept when it is in [unique], and only then is
    [unique.add(f)] evaluated ([and] short-circuits). *)
Fixpoint dups_from (unique : gset string) (function_names : list string) : list string :=
  match function_names with
  | [] => []
  | f :: rest =>
      if decide (f ∈ unique)
      then f :: dups_from ({[f]} ∪ unique) rest
      else dups_from unique rest
  end.

Definition check_dups (data : program) : result program :=
  let function_names := name <$> functions data in
  let unique : gset string := ∅ in
  let dups := dups_from unique function_names in
  if decide (0 < length dups) then Raise (DefinedTwice dups) else Ok data.

(** [json.dumps] is left out: the result is the data, not its JSON text. *)
Definition parse_bril (txt : string) : result program :=
  tree ← Grammar.parse txt;
  data ← JSONTransformer.transform tree;
  match data with
  | VProg data => check_dups data
  | _ => Raise TypeError
  end.

(** ** unroll_imports *)

(** A Python dict from function names to functions, in insertion order:
    assigning to a key that is present keeps its position. *)
Abbreviation dict := (list (string * function)).

Fixpoint dict_set (k : string) (v : function) (d : dict) : dict :=
  match d with
  | [] => [(k, v)]
  | (k', v') :: d' =>
      if decide (k = k') then (k, v) :: d' else (k', v') :: dict_set k v d'
  end.

Fixpoint dict_get (k : string) (d : dict) : option function :=
  match d with
  | [] => None
  | (k', v') :: d' => if decide (k = k') then Some v' else dict_get k d'
  end.

(** [d.update(other)] *)
Definition dict_update (d other : dict) : dict :=
  foldl (λ d kv, dict_set kv.1 kv.2 d) d other.

(** [{f['name']: f for f in fns}] *)
Definition dict_of_functions (fns : list function) : dict :=
  dict_update [] ((λ f, (name f, f)) <$> fns).

Definition keys (d : dict) : gset string := list_to_set d.*1.
Definition values (d : dict) : list function := d.*2.

(** The variables of the loop. *)
Record state := State {
  to_import : gset string;
  all_functions_map : dict;
  imported : gset string;
}.

Section Resolver.

(** [set.pop()] removes and returns an arbitrary element: any choice
    function.  (Along one run the contents of [to_import] never repeat,
    so a choice that depends on the history of the set is covered.) *)
Variable pick : gset string → option string.

(** The files [open] can see: path to contents. *)
Variable fs : gmap string string.

Definition path_of (module_name : string) : string := module_name +:+ ".bril".

(** One turn of [while len(to_import) > 0], after [module_name] has been
    popped. *)
Definition loop_body (st : state) (module_name : string) : result state :=
  let to_import := to_import st ∖ {[module_name]} in
  let imported := {[module_name]} ∪ imported st in
  loaded_prog ←
    match fs !! path_of module_name with
    | Some txt => parse_bril txt
    | None => Raise (SystemExit module_name)           (* except IOError *)
    end;
  let imports : gset string := list_to_set (default [] (imports loaded_prog)) in
  let to_import := to_import ∪ (imports ∖ imported) in
  let dups : gset string :=
    list_to_set (name <$> functions loaded_prog) ∩ keys (all_functions_map st) in
  if decide (0 < size dups) then Raise (DefinedTwice (elements dups))
  else
    Ok {| to_import := to_import;
          all_functions_map :=
            dict_update (all_functions_map st)
                        (dict_of_functions (functions loaded_prog));
          imported := imported |}.

Fixpoint loop (fuel : nat) (st : state) : option (result state) :=
  if decide (0 < size (to_import st)) then
    match pick (to_import st) with
    | Some module_name =>
        match fuel with
        | 0 => None
        | S n =>
            match loop_body st module_name with
            | Ok st' => loop n st'
            | Raise e => Some (Raise e)
            end
        end
    | None => Some (Raise (KeyError "pop from an empty set"))
    end
  else Some (Ok st).

Definition init (prog : program) (imps : list string) : state :=
  {| to_import := list_to_set imps;
     all_functions_map := dict_of_functions (functions prog);
     imported := ∅ |}.

(** The result is the data, not its JSON text.  [None]: the loop did not
    finish within [fuel] turns. *)
Definition unroll_imports (fuel : nat) (prog : program) : option (result program) :=
  match imports prog with
  | None => Some (Ok prog)                             (* 'imports' not in prog *)
  | Some imps =>
      match loop fuel (init prog imps) with
      | Some (Ok st) =>
          Some (Ok {| functions := values (all_functions_map st); imports := None |})
      | Some (Raise e) => Some (Raise e)
      | None => None
      end
  end.

(** The module names popped by the loop, in order. *)
Fixpoint popped (fuel : nat) (st : state) : list string :=
  if decide (0 < size (to_import st)) then
    match pick (to_import st), fuel with
    | Some module_name, S n =>
        module_name ::
          match loop_body st module_name with
          | Ok st' => popped n st'
          | Raise _ => []
          end
    | _, _ => []
    end
  else [].

End Resolver.

(** A concrete [set.pop]: the first element of the set's enumeration. *)
Definition pick_first (s : gset string) : option string := head (elements s).

(** Another one: the last element. *)
Definition pick_last (s : gset string) : option string := last (elements s).

(** ** Pretty-printer *)

(** The text of a literal: the decimal notation of an integer, [true]
    and [false]. *)
Definition literal_text (v : literal) : string :=
  match v with
  | LInt z => NilZero.string_of_int (Z.to_int z)
  | LBool true => "true"
  | LBool false => "false"
  end.

(** [str(instr['value']).lower()]: [str] of an integer with more than
    [int_max_str_digits] digits raises ValueError. *)
Definition str_lower (v : literal) : result string :=
  match v with
  | LInt _ =>
      if too_long (unsigned (literal_text v)) then Raise ValueError
      else Ok (literal_text v)
  | LBool _ => Ok (literal_text v)
  end.

(** [sep.join(l)] *)
Definition join (sep : string) (l : list string) : string := String.concat sep l.

Definition instr_to_string (i : instr) : result string :=
  match i with
  | IConst dest type value =>
      value ← str_lower value;
      Ok (dest +:+ ": " +:+ type +:+ " = const " +:+ value)
  | IValue op dest type args =>
      if String.eqb op "const" then Raise (KeyError "value")
      else Ok (dest +:+ ": " +:+ type +:+ " = " +:+ op +:+ " " +:+ join " " args)
  | IEffect op args =>
      if String.eqb op "const" then Raise (KeyError "dest")
      else Ok (op +:+ " " +:+ join " " args)
  | ILabel _ | IFunc _ => Raise (KeyError "op")
  end.

(** Each [print] call is one line of the output. *)
Definition print_instr (i : instr) : result string :=
  s ← instr_to_string i; Ok ("  " +:+ s +:+ ";").

Definition print_label (label : string) : string := label +:+ ":".

Definition print_instr_or_label (i : instr) : result string :=
  match i with
  | ILabel label => Ok (print_label label)             (* 'label' in instr_or_label *)
  | _ => print_instr i
  end.

Definition print_func (f : function) : result (list string) :=
  body ← mapM print_instr_or_label (instrs f);
  Ok ((name f +:+ " {") :: body ++ ["}"]).

Definition print_prog (prog : program) : result (list string) :=
  lines ← mapM print_func (functions prog); Ok (concat lines).

(** The text written to standard output: every line and its newline. *)
Definition to_text (lines : list string) : string :=
  String.concat "" ((λ l, l +:+ String Lexical.nl "") <$> lines).


(** ** Command-line entry points *)

(** [json.dumps] of a Python [str], as [loadbril] calls it (with
    [ensure_ascii], the default): the characters between double quotes;
    the double quote and the backslash escaped; backspace, form feed,
    newline, carriage return and tab written [\b], [\f], [\n], [\r],
    [\t]; every other character outside [' '..'~'] written [\u00xx].  A
    character is a code point below 256. *)
Definition double_quote : ascii := "034"%char.
Definition backslash : ascii := "092"%char.

(** [' ' <= c <= '~'] *)
Definition plain_ascii (c : ascii) : bool := ((" " <=? c) && (c <=? "~"))%char.

Definition hex_digit (n : N) : ascii :=
  default "0"%char (list_ascii_of_string "0123456789abcdef" !! N.to_nat n).

Definition escape_char (c : ascii) : string :=
  if (c =? double_quote)%char then String backslash (String double_quote "")
  else if (c =? backslash)%char then String backslash (String backslash "")
  else if (c =? "008")%char then String backslash "b"
  else if (c =? "012")%char then String backslash "f"
  else if (c =? "010")%char then String backslash "n"
  else if (c =? "013")%char then String backslash "r"
  else if (c =? "009")%char then String backslash "t"
  else if plain_ascii c then String c ""
  else String backslash
         ("u00" +:+ String (hex_digit (N_of_ascii c / 16))
                      (String (hex_digit (N_of_ascii c mod 16)) "")).

Fixpoint escape_all (s : string) : string :=
  match s with
  | "" => ""
  | String c s' => escape_char c +:+ escape_all s'
  end.

Definition encode_basestring_ascii (s : string) : string :=
  String double_quote (escape_all s +:+ String double_quote "").

Section EntryPoints.

(** The JSON text of a program dict,
    [json.dumps(prog, indent=2, sort_keys=True)]: any text. *)
Variable dumps : program → string.

Variable pick : gset string → option string.
Variable fs : gmap string string.

(** [parse_bril] and [unroll_imports] with their [json.dumps]. *)
Definition parse_bril_text (txt : string) : result string :=
  data ← parse_bril txt; Ok (dumps data).

Definition unroll_imports_text (fuel : nat) (prog : program) : option (result string) :=
  match unroll_imports pick fs fuel prog with
  | Some r => Some (data ← r; Ok (dumps data))
  | None => None
  end.

(** What each command hands to [print], for the text or the decoded
    program on standard input. *)
Definition bril2json (stdin : string) : result string := parse_bril_text stdin.

Definition bril2txt (stdin : program) : result (list string) := print_prog stdin.

(** [print(json.dumps(unroll_imports(json.load(sys.stdin)), ...))]:
    [unroll_imports] returns a [str], and [json.dumps] encodes it again. *)
Definition loadbril (fuel : nat) (stdin : program) : option (result string) :=
  match unroll_imports_text fuel stdin with
  | Some r => Some (text ← r; Ok (encode_basestring_ascii text))
  | None => None
  end.

End EntryPoints.

(** ** The vocabulary of the properties *)

(** *** Layout of the printed text *)

(** The number of leading spaces of a line. *)
Fixpoint indent (line : string) : nat :=
  match line with
  | String c r => if (c =? " ")%char then S (indent r) else 0
  | "" => 0
  end.

(** The lines [print_func] writes between the header and the brace. *)
Definition body_lines (f : function) : result (list string) :=
  mapM print_instr_or_label (instrs f).

(** The sentence of the specification: every instruction line and every
    label line is indented by two spaces. *)
Definition spec_body_indented_by_two (prog : program) : Prop :=
  ∀ f body, f ∈ functions prog → body_lines f = Ok body →
            Forall (λ line, indent line = 2) body.

Definition is_label (i : instr) : bool :=
  match i with
  | ILabel _ => true
  | _ => false
  end.

(** The identifier a printed line starts with is lexically an identifier. *)
Definition leading_ident_ok (i : instr) : Prop :=
  match i with
  | IConst dest _ _ | IValue _ dest _ _ => Lexical.is_IDENT dest = true
  | IEffect op _ => Lexical.is_CNAME op = true
  | ILabel label => Lexical.is_IDENT label = true
  | IFunc _ => True
  end.

Definition lines_of_func (f : function) (lines : list string) : Prop :=
  ∃ body,
    lines = (name f +:+ " {") :: body ++ ["}"] ∧
    indent (name f +:+ " {") = 0 ∧
    indent "}" = 0 ∧
    Forall2 (λ i line, indent line = if is_label i then 0 else 2) (instrs f) body.

(** *** Import resolution *)

(** The sentence of the specification: without imports the program is
    returned unchanged. *)
Definition spec_unchanged_without_imports
    (pick : gset string → option string) (fs : gmap string string) (prog : program) : Prop :=
  default [] (imports prog) = [] →
  ∀ fuel, unroll_imports pick fs fuel prog = Some (Ok prog).

(** *** The round trip *)

(** A literal [str] can show: an integer whose digits are within the
    limit, or a boolean. *)
Definition showable (v : literal) : Prop := str_lower v = Ok (literal_text v).

(** What the printer can show of an instruction: no nested function, and
    the opcode [const] only on an [IConst]. *)
Definition printable (i : instr) : Prop :=
  match i with
  | IFunc _ => False
  | IValue op _ _ _ | IEffect op _ => op ≠ "const"
  | _ => True
  end.

Definition plain_header (f : function) : Prop :=
  func_args f = None ∧ func_type f = None.

(** The sentence of the specification, for one text. *)
Definition spec_round_trip (txt : string) : Prop :=
  ∀ p, parse_bril txt = Ok p → Forall plain_header (functions p) →
       ∃ lines p', print_prog p = Ok lines ∧ parse_bril (to_text lines) = Ok p' ∧
                   name <$> functions p' = name <$> functions p ∧
                   instrs <$> functions p' = instrs <$> functions p.

(** *** Inputs of the examples *)

Definition four_lines : string :=
  "main {
  a: int = const 4;
  b: int = add a a;
  print b;
  loop:
}".

Definition layout_example : program :=
  {| functions :=
       [Function "main" [IConst "a" "int" (LInt 4); ILabel "loop"; IEffect "jmp" ["loop"]]
                 None None];
     imports := None |}.

Definition main_nop : function := Function "main" [IEffect "nop" []] None None.
Definition main_ret : function := Function "main" [IEffect "ret" []] None None.

Definition fs_B : gmap string string := {[ "B.bril" := "helper { ret; }" ]}.

(** [imports] present and empty, two functions named [main]. *)
Definition prog_empty_imports : program :=
  {| functions := [main_nop; main_ret]; imports := Some [] |}.

Definition prog_no_imports : program :=
  {| functions := [main_nop; main_ret]; imports := None |}.

(** A diamond: the root imports B and C, both import D, and D imports B. *)
Definition fs_diamond : gmap string string :=
  {[ "B.bril" := "import D; b { nop; }";
     "C.bril" := "import D; c { nop; }";
     "D.bril" := "import B; d { nop; }" ]}.

Definition prog_diamond : program :=
  {| functions := [main_nop; main_ret]; imports := Some ["B"; "C"] |}.

Definition round_trip_example : string :=
  "import lib;
main {
  a: int = const +4;   # a comment
  b: bool = const true;
loop:
  c: int = add a a;
  n: int = const -12;
  br b loop done;
done:
  print c n;
  ret;
}
aux { const5: t = const5 x; nop; }".

Definition round_trip_program : program :=
  Eval vm_compute in
    match parse_bril round_trip_example with
    | Ok p => p
    | Raise _ => {| functions := []; imports := None |}
    end.

(** An import, a function with two arguments and a return type. *)
Definition header_example : string :=
  "import lib;
main x (n: int) : int {
  ret n;
}".

Definition header_program : program :=
  Eval vm_compute in
    match parse_bril header_example with
    | Ok p => p
    | Raise _ => {| functions := []; imports := None |}
    end.

(** Nothing but comments and white space. *)
Definition blank_example : string :=
  "# a comment
   # and another

".

(** A program that imports B and defines nothing that B defines. *)
Definition prog_imports_B : program :=
  {| functions := [main_nop]; imports := Some ["B"] |}.

(** The diamond, resolved. *)
Definition diamond_result : program :=
  {| functions :=
       [main_ret;
        Function "c" [IEffect "nop" []] None None;
        Function "b" [IEffect "nop" []] None None;
        Function "d" [IEffect "nop" []] None None];
     imports := None |}.

(** A number of 4301 digits, in a text and in a program. *)
Definition long_number : string := String.concat "" (replicate 4301 "7").

Definition long_literal_example : string :=
  "main { x: int = const " +:+ long_number +:+ "; }".

Definition long_constant_program : program :=
  {| functions := [Function "main" [IConst "x" "int" (LInt (10 ^ 4300))] None None];
     imports := None |}.

(** The program without functions, its JSON text, and what [loadbril]
    prints for it. *)
Definition empty_program : program := {| functions := []; imports := None |}.

Definition dumps_empty (prog : program) : string :=
  "{" +:+ String Lexical.nl
    ("  " +:+ String double_quote
       ("functions" +:+ String double_quote (": []" +:+ String Lexical.nl "}"))).

Definition loadbril_empty : string :=
  Eval vm_compute in encode_basestring_ascii (dumps_empty empty_program).

(** * Properties *)

(** ** Strings *)

#[local] Arguments String.append : simpl nomatch.
#[local] Arguments str_lower : simpl never.
#[local] Arguments too_long : simpl never.

Lemma string_app_assoc (a b c : string) : (a +:+ b) +:+ c = a +:+ (b +:+ c).
Proof. induction a as [|x a IH]; [done|]. simpl. by f_equal. Qed.

Lemma string_app_nil_r (a : string) : a +:+ "" = a.
Proof. induction a as [|x a IH]; [done|]. simpl. by f_equal. Qed.

Lemma string_length_app (a b : string) :
  String.length (a +:+ b) = String.length a + String.length b.
Proof. induction a as [|x a IH]; [done|]. simpl. by f_equal. Qed.

(** ** Duplicate detection in [parse_bril] *)

Lemma dups_from_not_elem (unique : gset string) (function_names : list string) :
  (∀ f, f ∈ function_names → f ∉ unique) → dups_from unique function_names = [].
Proof.
  induction function_names as [|f rest IH]; intros Hfresh; [done|].
  cbn. destruct (decide (f ∈ unique)) as [Hin|_].
  - exfalso. apply (Hfresh f); [left | done].
  - apply IH. intros g Hg. apply Hfresh. by right.
Qed.

Lemma dups_from_empty (function_names : list string) :
  dups_from ∅ function_names = [].
Proof. apply dups_from_not_elem. intros f _. set_solver. Qed.

Lemma check_dups_ok (data : program) : check_dups data = Ok data.
Proof. unfold check_dups. rewrite dups_from_empty. done. Qed.

(** C1.  The claim asks for a DuplicateFunctionError when a name occurs
    twice.  The code does not do this: [unique] starts empty and a name is
    added only when it is already there, so [dups] is always empty, the
    check never raises, and the text with two functions named [main]
    yields a Program holding both. *)
Theorem parse_bril_duplicate_main_accepted :
  (∀ data, check_dups data = Ok data) ∧
  parse_bril "main { nop; } main { ret; }" =
    Ok {| functions := [Function "main" [IEffect "nop" []] None None;
                        Function "main" [IEffect "ret" []] None None];
          imports := None |}.
Proof. split; [apply check_dups_ok | by vm_compute]. Qed.

(** ** Classification of instructions *)

(** C2.  The four-line body parses and transforms to exactly
    [Const(a,int,4); ValueOp(b,int,add,[a,a]); EffectOp(print,[b]);
    Label(loop)].  The order of the alternatives decides where two rules
    accept the same text: [x: bool = const true;] is accepted by [vop]
    too (opcode [const], argument [true]), and [instr] answers with the
    [const] node. *)
Theorem four_lines_classified :
  parse_bril four_lines =
    Ok {| functions :=
            [Function "main"
               [IConst "a" "int" (LInt 4);
                IValue "add" "b" "int" ["a"; "a"];
                IEffect "print" ["b"];
                ILabel "loop"] None None];
          imports := None |} ∧
  Grammar.vop 9 "x: bool = const true;" =
    Some (Tree "vop" [Token "IDENT" "x"; Tree "type" [Token "CNAME" "bool"];
                      Token "CNAME" "const"; Token "IDENT" "true"], "") ∧
  Grammar.instr 9 "x: bool = const true;" =
    Some (Tree "const" [Token "IDENT" "x"; Tree "type" [Token "CNAME" "bool"];
                        Tree "bool" [Token "BOOL" "true"]], "") ∧
  Grammar.instr 9 "x: bool = add true;" =
    Some (Tree "vop" [Token "IDENT" "x"; Tree "type" [Token "CNAME" "bool"];
                      Token "CNAME" "add"; Token "IDENT" "true"], "") ∧
  Grammar.instr 9 "print b;" =
    Some (Tree "eop" [Token "CNAME" "print"; Token "IDENT" "b"], "") ∧
  Grammar.instr 9 "loop:" = Some (Tree "label" [Token "IDENT" "loop"], "").
Proof. repeat split; by vm_compute. Qed.

(** ** Functions with an empty body *)

(** C3.  [main { }] is in the grammar ([instr*] may be empty) and no name
    repeats, yet [parse_bril] raises: in [func], once the name is popped
    [items] is empty and [items[0]] is an IndexError, which leaves lark
    as a VisitError. *)
Theorem parse_bril_empty_body_raises :
  Grammar.parse "main { }" = Ok (Tree "start" [Tree "func" [Token "CNAME" "main"]]) ∧
  JSONTransformer.func [VToken "CNAME" "main"] = Raise IndexError ∧
  parse_bril "main { }" = Raise (VisitError IndexError).
Proof. repeat split; by vm_compute. Qed.

(** ** Nested function definitions *)

Lemma mapM_as_instr_VInstr (l : list instr) :
  mapM JSONTransformer.as_instr (VInstr <$> l) = Ok l.
Proof. induction l as [|i l IH]; [done|]. cbn. by rewrite IH. Qed.

(** C10.  [def inner { ... }] is accepted where an instruction is
    expected; [def_func] hands the Function record of its child on
    unchanged and [func] stores it among the ['instrs'] of the enclosing
    function. *)
Theorem nested_def_is_an_instr :
  Grammar.instr 30 "def inner { nop; }" =
    Some (Tree "def_func"
            [Tree "func" [Token "CNAME" "inner"; Tree "eop" [Token "CNAME" "nop"]]], "") ∧
  (∀ f rest, JSONTransformer.def_func (VFunc f :: rest) = Ok (VFunc f)) ∧
  (∀ n f (rest : list instr),
     JSONTransformer.func (VToken "CNAME" n :: VFunc f :: (VInstr <$> rest)) =
       Ok (VFunc (Function n (IFunc f :: rest) None None))) ∧
  parse_bril "main { def inner { nop; } print x; }" =
    Ok {| functions :=
            [Function "main"
               [IFunc (Function "inner" [IEffect "nop" []] None None);
                IEffect "print" ["x"]] None None];
          imports := None |}.
Proof.
  split; [by vm_compute|]. split; [done|]. split; [|by vm_compute].
  intros n f rest. cbn. by rewrite mapM_as_instr_VInstr.
Qed.

(** ** Layout of the printed text *)

Lemma indent_IDENT_start (c : ascii) (s : string) :
  Lexical.IDENT_start c = true → indent (String c s) = 0.
Proof.
  intros Hc. cbn. destruct (Ascii.eqb_spec c " ") as [->|_]; [by vm_compute in Hc | done].
Qed.

Lemma indent_is_IDENT (w s : string) :
  Lexical.is_IDENT w = true → indent (w +:+ s) = 0.
Proof.
  destruct w as [|c w]; [done|]. cbn [Lexical.is_IDENT]. intros [Hc _]%andb_true_iff.
  by apply indent_IDENT_start.
Qed.

Lemma CNAME_start_IDENT_start (c : ascii) :
  Lexical.CNAME_start c = true → Lexical.IDENT_start c = true.
Proof.
  unfold Lexical.CNAME_start, Lexical.IDENT_start.
  intros [-> | ->]%orb_true_iff; by rewrite ?orb_true_r.
Qed.

Lemma CNAME_rest_IDENT_rest (c : ascii) :
  Lexical.CNAME_rest c = true → Lexical.IDENT_rest c = true.
Proof.
  unfold Lexical.CNAME_rest, Lexical.IDENT_rest.
  intros [[-> | ->]%orb_true_iff | ->]%orb_true_iff; by rewrite ?orb_true_r.
Qed.

Lemma all_chars_impl (p q : ascii → bool) (s : string) :
  (∀ c, p c = true → q c = true) →
  Lexical.all_chars p s = true → Lexical.all_chars q s = true.
Proof.
  intros Hpq. unfold Lexical.all_chars.
  induction s as [|c s IH]; [done|]. cbn.
  intros [Hc Hs]%andb_true_iff. by rewrite (Hpq _ Hc), IH.
Qed.

Lemma is_CNAME_is_IDENT (w : string) :
  Lexical.is_CNAME w = true → Lexical.is_IDENT w = true.
Proof.
  destruct w as [|c w]; [done|]. cbn. intros [Hc Hw]%andb_true_iff.
  rewrite (CNAME_start_IDENT_start _ Hc). cbn.
  eapply all_chars_impl; [apply CNAME_rest_IDENT_rest | done].
Qed.

Lemma print_instr_or_label_indent (i : instr) (line : string) :
  leading_ident_ok i → print_instr_or_label i = Ok line →
  indent line = if is_label i then 0 else 2.
Proof.
  intros Hok Hline. destruct i as [dest ty v|op dest ty args|op args|label|f]; cbn in *.
  - destruct (str_lower v) as [s|e]; [|done]. injection Hline as <-. cbn. f_equal. f_equal.
    rewrite string_app_assoc. by apply indent_is_IDENT.
  - destruct (String.eqb op "const"); [done|]. injection Hline as <-. cbn.
    f_equal. f_equal. rewrite string_app_assoc. by apply indent_is_IDENT.
  - destruct (String.eqb op "const"); [done|]. injection Hline as <-. cbn.
    f_equal. f_equal. rewrite string_app_assoc.
    by apply indent_is_IDENT, is_CNAME_is_IDENT.
  - injection Hline as <-. by apply indent_is_IDENT.
  - done.
Qed.

Lemma mapM_Ok_Forall2 {A B} (f : A → result B) (l : list A) (l' : list B) :
  mapM f l = Ok l' → Forall2 (λ a b, f a = Ok b) l l'.
Proof.
  revert l'. induction l as [|a l IH]; intros l' H; cbn in H.
  - injection H as <-. constructor.
  - destruct (f a) as [b|e] eqn:Hb; [|done]. cbn in H.
    destruct (mapM f l) as [bs|e] eqn:Hbs; [|done]. injection H as <-.
    constructor; [done | by apply IH].
Qed.

Lemma print_func_lines (f : function) (lines : list string) :
  Lexical.is_CNAME (name f) = true → Forall leading_ident_ok (instrs f) →
  print_func f = Ok lines → lines_of_func f lines.
Proof.
  intros Hname Hinstrs Hprint. unfold print_func in Hprint.
  destruct (mapM print_instr_or_label (instrs f)) as [body|e] eqn:Hbody; [|done].
  injection Hprint as <-. exists body. split; [done|].
  split; [by apply indent_is_IDENT, is_CNAME_is_IDENT|]. split; [done|].
  apply mapM_Ok_Forall2 in Hbody. revert Hinstrs.
  induction Hbody as [|i line is_ body Hline _ IH]; intros Hinstrs; [constructor|].
  inversion Hinstrs; subst. constructor; [|by apply IH].
  by apply print_instr_or_label_indent.
Qed.

(** C4 as stated fails: a label line is printed flush left. *)
Lemma label_line_not_indented :
  ¬ spec_body_indented_by_two
      {| functions := [Function "main" [IEffect "nop" []; ILabel "loop"] None None];
         imports := None |}.
Proof.
  intros H.
  specialize (H (Function "main" [IEffect "nop" []; ILabel "loop"] None None)
                ["  nop ;"; "loop:"]).
  assert (Hf : Forall (λ line, indent line = 2) ["  nop ;"; "loop:"]).
  { apply H; [by left | done]. }
  inversion Hf as [|? ? _ Hrest]; subst. inversion Hrest as [|? ? Hloop _]; subst.
  by cbn in Hloop.
Qed.

(** C4, amended.  For a program whose function names and leading
    identifiers are lexically identifiers, the printed text is, function
    by function, the header [name {], the body lines and [}]; header and
    brace are not indented, the line of a label is not indented, and every
    other body line is indented by exactly two spaces. *)
Theorem print_prog_layout (prog : program) (lines : list string) :
  Forall (λ f, Lexical.is_CNAME (name f) = true ∧ Forall leading_ident_ok (instrs f))
         (functions prog) →
  print_prog prog = Ok lines →
  ∃ blocks, lines = concat blocks ∧ Forall2 lines_of_func (functions prog) blocks.
Proof.
  intros Hwf Hprint. unfold print_prog in Hprint.
  destruct (mapM print_func (functions prog)) as [blocks|e] eqn:Hblocks; [|done].
  injection Hprint as <-. exists blocks. split; [done|].
  apply mapM_Ok_Forall2 in Hblocks. revert Hwf.
  induction Hblocks as [|f block fs bs Hblock _ IH]; intros Hwf; [constructor|].
  inversion Hwf as [|? ? [Hname Hinstrs] Hrest]; subst.
  constructor; [by apply print_func_lines | by apply IH].
Qed.

(** The layout of a function with a constant, a label and a jump. *)
Lemma print_prog_layout_witness :
  ∃ blocks,
    ["main {"; "  a: int = const 4;"; "loop:"; "  jmp loop;"; "}"] = concat blocks ∧
    Forall2 lines_of_func (functions layout_example) blocks.
Proof.
  apply (print_prog_layout layout_example).
  - repeat constructor.
  - reflexivity.
Defined.

(** ** The ordered dict *)

Definition named (kv : string * function) : Prop := name kv.2 = kv.1.

Lemma dict_set_fresh (k : string) (v : function) (d : dict) :
  k ∉ d.*1 → dict_set k v d = d ++ [(k, v)].
Proof.
  induction d as [|[k' v'] d IH]; intros Hk; [done|]. cbn in *.
  destruct (decide (k = k')) as [->|_]; [set_solver|].
  rewrite IH; [done | set_solver].
Qed.

Lemma dict_set_keys_elem (k : string) (v : function) (d : dict) :
  k ∈ d.*1 → (dict_set k v d).*1 = d.*1.
Proof.
  induction d as [|[k' v'] d IH]; intros Hk; [set_solver|]. cbn in *.
  destruct (decide (k = k')) as [->|Hne]; [done|]. cbn.
  rewrite IH; [done | set_solver].
Qed.

Lemma dict_set_NoDup (k : string) (v : function) (d : dict) :
  NoDup d.*1 → NoDup (dict_set k v d).*1.
Proof.
  intros Hd. destruct (decide (k ∈ d.*1)) as [Hin|Hout].
  - by rewrite dict_set_keys_elem.
  - rewrite dict_set_fresh, fmap_app by done. cbn.
    apply NoDup_app. split; [done|]. split; [|apply NoDup_singleton].
    intros x Hx ->%list_elem_of_singleton. done.
Qed.

Lemma dict_set_named (k : string) (v : function) (d : dict) :
  name v = k → Forall named d → Forall named (dict_set k v d).
Proof.
  intros Hv. induction d as [|[k' v'] d IH]; intros Hd; cbn.
  - by repeat constructor.
  - apply Forall_cons in Hd as [Hkv Hd].
    destruct (decide (k = k')); constructor; auto.
Qed.

Lemma dict_set_elem_keys (k k' : string) (v : function) (d : dict) :
  k' ∈ (dict_set k v d).*1 ↔ k' = k ∨ k' ∈ d.*1.
Proof.
  destruct (decide (k ∈ d.*1)) as [Hin|Hout].
  - rewrite dict_set_keys_elem by done. naive_solver.
  - rewrite dict_set_fresh, fmap_app by done. set_solver.
Qed.

Lemma dict_get_set (k k' : string) (v : function) (d : dict) :
  dict_get k' (dict_set k v d) = if decide (k' = k) then Some v else dict_get k' d.
Proof.
  induction d as [|[k0 v0] d IH]; cbn.
  - by destruct (decide (k' = k)).
  - destruct (decide (k = k0)) as [->|Hne]; cbn.
    + by destruct (decide (k' = k0)).
    + rewrite IH. destruct (decide (k' = k0)) as [->|]; [|done].
      by destruct (decide (k0 = k)).
Qed.

Lemma dict_update_fresh (other d : dict) :
  NoDup other.*1 → (∀ k, k ∈ other.*1 → k ∉ d.*1) → dict_update d other = d ++ other.
Proof.
  unfold dict_update. revert d.
  induction other as [|[k v] other IH]; intros d Hnd Hfresh; cbn.
  - by rewrite app_nil_r.
  - apply NoDup_cons in Hnd as [Hk Hnd]. cbn in *.
    rewrite dict_set_fresh by (apply Hfresh; set_solver).
    rewrite IH, <- app_assoc; [done..|].
    intros k' Hk'. rewrite fmap_app. cbn.
    intros [?| ->%list_elem_of_singleton]%elem_of_app; [|done].
    apply (Hfresh k'); [set_solver | done].
Qed.

Lemma dict_update_NoDup (other d : dict) :
  NoDup d.*1 → NoDup (dict_update d other).*1.
Proof.
  unfold dict_update. revert d. induction other as [|[k v] other IH]; intros d Hd; [done|].
  cbn. by apply IH, dict_set_NoDup.
Qed.

Lemma dict_update_named (other d : dict) :
  Forall named other → Forall named d → Forall named (dict_update d other).
Proof.
  unfold dict_update. revert d.
  induction other as [|[k v] other IH]; intros d Hother Hd; [done|].
  inversion Hother; subst. cbn. apply IH; [done|]. by apply dict_set_named.
Qed.

Lemma dict_update_elem_keys (other d : dict) (k : string) :
  k ∈ (dict_update d other).*1 ↔ k ∈ d.*1 ∨ k ∈ other.*1.
Proof.
  unfold dict_update. revert d. induction other as [|[k0 v0] other IH]; intros d; cbn.
  - set_solver.
  - rewrite IH, dict_set_elem_keys. set_solver.
Qed.

Lemma dict_of_functions_NoDup (fns : list function) :
  NoDup (dict_of_functions fns).*1.
Proof. apply dict_update_NoDup. constructor. Qed.

Lemma dict_of_functions_named (fns : list function) :
  Forall named (dict_of_functions fns).
Proof.
  apply dict_update_named; [|constructor].
  induction fns; constructor; done.
Qed.

Lemma dict_of_functions_elem_keys (fns : list function) (k : string) :
  k ∈ (dict_of_functions fns).*1 ↔ k ∈ name <$> fns.
Proof.
  unfold dict_of_functions. rewrite dict_update_elem_keys.
  rewrite <- list_fmap_compose. set_solver.
Qed.

(** With pairwise distinct names the dict lists the functions as given. *)
Lemma values_dict_of_functions (fns : list function) :
  NoDup (name <$> fns) → values (dict_of_functions fns) = fns.
Proof.
  intros Hnd. unfold dict_of_functions, values.
  rewrite dict_update_fresh; cbn.
  - rewrite <- list_fmap_compose. apply list_fmap_id.
  - by rewrite <- list_fmap_compose.
  - intros k _. set_solver.
Qed.

(** A later definition of a name replaces the earlier one. *)
Lemma dict_get_update (kvs d : dict) (n : string) :
  dict_get n (dict_update d kvs) =
    match last (filter (λ kv, kv.1 = n) kvs) with
    | Some kv => Some kv.2
    | None => dict_get n d
    end.
Proof.
  unfold dict_update. revert d. induction kvs as [|[k v] kvs IH]; intros d; [done|].
  cbn [foldl]. rewrite IH, dict_get_set. rewrite filter_cons. cbn.
  destruct (decide (k = n)) as [->|Hne].
  - rewrite decide_True by done.
    destruct (filter _ kvs) as [|kv l] eqn:Hf; [done|].
    rewrite last_cons_cons. destruct (last (kv :: l)) eqn:E; [done|].
    by apply last_None in E.
  - rewrite decide_False by done. done.
Qed.

Lemma dict_get_of_functions (fns : list function) (n : string) :
  dict_get n (dict_of_functions fns) = last (filter (λ h, name h = n) fns).
Proof.
  unfold dict_of_functions. rewrite dict_get_update. cbn.
  induction fns as [|f fns IH]; [done|].
  rewrite fmap_cons, !filter_cons. cbn.
  destruct (decide (name f = n)) as [Hn|Hn]; [|done].
  destruct (filter _ ((λ f0, (name f0, f0)) <$> fns)) as [|kv l] eqn:Hl;
    destruct (filter _ fns) as [|h l'] eqn:Hl'; cbn in *.
  - done.
  - symmetry in IH. by apply last_None in IH.
  - destruct (last (kv :: l)) eqn:E; [done|]. by apply last_None in E.
  - done.
Qed.

Lemma dict_get_app (d e : dict) (n : string) (g : function) :
  dict_get n d = Some g → dict_get n (d ++ e) = Some g.
Proof.
  induction d as [|[k v] d IH]; [done|]. cbn.
  by destruct (decide (n = k)).
Qed.

Lemma filter_values_absent (d : dict) (n : string) :
  Forall named d → n ∉ d.*1 → filter (λ h, name h = n) (values d) = [].
Proof.
  unfold values. induction d as [|[k v] d IH]; intros Hd Hn; [done|].
  inversion Hd as [|? ? Hkv Hd']; subst. cbn in *. unfold named in Hkv. cbn in Hkv.
  rewrite decide_False by set_solver.
  apply IH; [done | set_solver].
Qed.

Lemma filter_values_get (d : dict) (n : string) (g : function) :
  NoDup d.*1 → Forall named d → dict_get n d = Some g →
  filter (λ h, name h = n) (values d) = [g].
Proof.
  unfold values. induction d as [|[k v] d IH]; intros Hnd Hd Hg; [done|].
  inversion Hd as [|? ? Hkv Hd']; subst. unfold named in Hkv. cbn in *.
  apply NoDup_cons in Hnd as [Hk Hnd].
  destruct (decide (n = k)) as [->|Hne].
  - injection Hg as ->. rewrite decide_True by done.
    f_equal. by apply filter_values_absent.
  - rewrite decide_False by congruence. by apply IH.
Qed.

(** ** What the transformer can raise *)

Lemma tree_ind' (P : tree → Prop) :
  (∀ type_ s, P (Token type_ s)) →
  (∀ data children, Forall P children → P (Tree data children)) →
  ∀ t, P t.
Proof.
  intros HToken HTree. fix IH 1. intros [type_ s|data children]; [apply HToken|].
  apply HTree. induction children as [|c l IHl]; constructor; [apply IH | exact IHl].
Qed.

Definition benign (e : exn) : Prop := e = IndexError ∨ e = TypeError ∨ e = ValueError.

Lemma bind_Raise {A B} (r : result A) (k : A → result B) (e : exn) :
  r ≫= k = Raise e → r = Raise e ∨ ∃ a, r = Ok a ∧ k a = Raise e.
Proof. destruct r as [a|e']; cbn; [eauto | intros [= ->]; eauto]. Qed.

Lemma bind_Ok {A B} (r : result A) (k : A → result B) (b : B) :
  r ≫= k = Ok b → ∃ a, r = Ok a ∧ k a = Ok b.
Proof. destruct r as [a|e']; cbn; [eauto | done]. Qed.

Lemma mapM_Raise {A B} (f : A → result B) (l : list A) (e : exn) :
  mapM f l = Raise e → ∃ a, a ∈ l ∧ f a = Raise e.
Proof.
  induction l as [|a l IH]; [done|]. cbn.
  intros [Ha|(b & _ & [Hl|(bs & _ & ?)]%bind_Raise)]%bind_Raise; [| |done].
  - exists a. split; [by left | done].
  - destruct (IH Hl) as (a' & ? & ?). exists a'. split; [by right | done].
Qed.

Ltac benign_cases :=
  repeat match goal with
    | H : _ ≫= _ = Raise _ |- _ => apply bind_Raise in H as [H|(? & _ & H)]
    | H : mapM _ _ = Raise _ |- _ => apply mapM_Raise in H as (? & _ & H)
    | H : (let '(_, _) := ?x in _) = Raise _ |- _ => destruct x
    | H : match ?x with _ => _ end = Raise _ |- _ => destruct x
    | H : Raise _ = Raise _ |- _ => injection H as <-
    | H : Ok _ = Raise _ |- _ => discriminate H
    end.

Lemma leading_args_Raise (items : list value) (e : exn) :
  JSONTransformer.leading_args items = Raise e → benign e.
Proof.
  induction items as [|v items IH]; [done|]. cbn. intros H.
  destruct v; try done. destruct (String.eqb data "arg"); [|done].
  apply bind_Raise in H as [H|(a & _ & H)].
  - unfold JSONTransformer.arg_dict, JSONTransformer.str in H.
    benign_cases; unfold benign; auto.
  - apply bind_Raise in H as [H|([] & _ & H)]; [by apply IH | done].
Qed.

Lemma callback_Raise (data : string) (items : list value) (e : exn) :
  JSONTransformer.callback data items = Raise e → benign e.
Proof.
  unfold JSONTransformer.callback. intros H.
  repeat match type of H with
         | (if ?b then _ else _) = _ => destruct b
         end; [..|done].
  all: unfold JSONTransformer.start, JSONTransformer.imp, JSONTransformer.func,
         JSONTransformer.def_func, JSONTransformer.const, JSONTransformer.vop,
         JSONTransformer.eop, JSONTransformer.label, JSONTransformer.int,
         JSONTransformer.bool, JSONTransformer.type, JSONTransformer.pop0,
         JSONTransformer.str, JSONTransformer.as_function, JSONTransformer.as_instr,
         JSONTransformer.as_literal in H.
  all: benign_cases; try (by eapply leading_args_Raise); unfold benign; auto.
Qed.

Lemma call_userfunc_Raise (data : string) (items : list value) (e : exn) :
  JSONTransformer.call_userfunc data items = Raise e →
  ∃ orig, e = VisitError orig ∧ JSONTransformer.callback data items = Raise orig.
Proof.
  unfold JSONTransformer.call_userfunc.
  destruct (JSONTransformer.callback data items) as [v|orig]; [done|].
  intros [= <-]. by exists orig.
Qed.

Lemma transform_Raise (t : tree) (e : exn) :
  JSONTransformer.transform t = Raise e → ∃ orig, e = VisitError orig ∧ benign orig.
Proof.
  induction t as [type_ s|data children IH] using tree_ind'; [done|].
  cbn. intros [H|(items & _ & (orig & -> & H)%call_userfunc_Raise)]%bind_Raise;
    [|exists orig; split; [done | by eapply callback_Raise]].
  induction IH as [|c l Hc _ IHl]; [done|].
  apply bind_Raise in H as [H|(v & _ & H)]; [by apply Hc|].
  apply bind_Raise in H as [H|(vs & _ & H)]; [by apply IHl | done].
Qed.

(** [parse_bril] never raises the duplicate-function error. *)
Lemma parse_bril_not_DefinedTwice (txt : string) (names : list string) :
  parse_bril txt ≠ Raise (DefinedTwice names).
Proof.
  unfold parse_bril. intros [H|(t & _ & H)]%bind_Raise.
  - unfold Grammar.parse in H. by repeat case_match.
  - apply bind_Raise in H as [H|(v & _ & H)].
    + by apply transform_Raise in H as (orig & ? & _).
    + destruct v; try done. by rewrite check_dups_ok in H.
Qed.

(** ** Import resolution *)

Lemma pick_first_elem (s : gset string) (m : string) :
  pick_first s = Some m → m ∈ s.
Proof.
  unfold pick_first. intros Hm. apply elem_of_elements.
  destruct (elements s) as [|x l]; [done|]. injection Hm as ->. by left.
Qed.

Section ResolverFacts.

Variable pick : gset string → option string.
Variable fs : gmap string string.

(** What a turn of the loop does to the three variables. *)
Lemma loop_body_Ok (st st' : state) (m : string) :
  loop_body fs st m = Ok st' →
  ∃ txt loaded,
    fs !! path_of m = Some txt ∧ parse_bril txt = Ok loaded ∧
    list_to_set (name <$> functions loaded) ∩ keys (all_functions_map st) = (∅ : gset string) ∧
    to_import st' =
      to_import st ∖ {[m]} ∪
      (list_to_set (default [] (imports loaded)) ∖ ({[m]} ∪ imported st)) ∧
    all_functions_map st' =
      dict_update (all_functions_map st) (dict_of_functions (functions loaded)) ∧
    imported st' = {[m]} ∪ imported st.
Proof.
  unfold loop_body. intros H.
  destruct (fs !! path_of m) as [txt|] eqn:Hfile; [|done]. cbn in H.
  destruct (parse_bril txt) as [loaded|e] eqn:Hparse; [|done]. cbn in H.
  destruct (decide (0 < size _)) as [|Hsize]; [done|]. injection H as <-.
  exists txt, loaded. repeat split; try done.
  apply leibniz_equiv, size_empty_inv. lia.
Qed.

(** C7, amended.  Without imports the loop does not run.  When the
    ['imports'] key is absent the program itself is returned; when it is
    present and empty the result is rebuilt from the dict of the
    functions and has no ['imports'] key: the same functions in the same
    order when their names are pairwise distinct. *)
Theorem unroll_imports_without_imports (fuel : nat) (prog : program) :
  default [] (imports prog) = [] →
  unroll_imports pick fs fuel prog =
    Some (Ok match imports prog with
             | None => prog
             | Some _ => {| functions := values (dict_of_functions (functions prog));
                            imports := None |}
             end) ∧
  (NoDup (name <$> functions prog) →
   values (dict_of_functions (functions prog)) = functions prog).
Proof.
  intros Hempty. split; [|apply values_dict_of_functions].
  unfold unroll_imports. destruct (imports prog) as [imps|]; [|done].
  cbn in Hempty. subst imps. by destruct fuel.
Qed.

(** *** What the loop does to the dict *)

Lemma loop_body_map (st st' : state) (m : string) :
  NoDup (all_functions_map st).*1 → Forall named (all_functions_map st) →
  loop_body fs st m = Ok st' →
  ∃ extra, all_functions_map st' = all_functions_map st ++ extra ∧
           NoDup (all_functions_map st').*1 ∧ Forall named (all_functions_map st').
Proof.
  intros Hnd Hnamed (txt & loaded & _ & _ & Hdups & _ & Hmap & _)%loop_body_Ok.
  exists (dict_of_functions (functions loaded)). rewrite Hmap.
  split; [|split; [by apply dict_update_NoDup|]].
  - apply dict_update_fresh; [apply dict_of_functions_NoDup|].
    intros k Hk%dict_of_functions_elem_keys Hk'. unfold keys in Hdups.
    assert (k ∈ (∅ : gset string)); [|set_solver].
    rewrite <- Hdups. apply elem_of_intersection. by rewrite !elem_of_list_to_set.
  - apply dict_update_named; [apply dict_of_functions_named | done].
Qed.

Lemma loop_map (fuel : nat) (st st' : state) :
  NoDup (all_functions_map st).*1 → Forall named (all_functions_map st) →
  loop pick fs fuel st = Some (Ok st') →
  ∃ extra, all_functions_map st' = all_functions_map st ++ extra ∧
           NoDup (all_functions_map st').*1 ∧ Forall named (all_functions_map st').
Proof.
  revert st. induction fuel as [|fuel IH]; intros st Hnd Hnamed Hloop; cbn in Hloop.
  - destruct (decide (0 < size (to_import st))).
    + by destruct (pick (to_import st)).
    + injection Hloop as <-. exists []. by rewrite app_nil_r.
  - destruct (decide (0 < size (to_import st))).
    + destruct (pick (to_import st)) as [m|]; [|done].
      destruct (loop_body fs st m) as [st1|e] eqn:Hbody; [|done].
      destruct (loop_body_map st st1 m Hnd Hnamed Hbody) as (extra1 & H1 & Hnd1 & Hn1).
      destruct (IH st1 Hnd1 Hn1 Hloop) as (extra & H2 & Hnd2 & Hn2).
      exists (extra1 ++ extra). split; [by rewrite H2, H1, app_assoc | done].
    + injection Hloop as <-. exists []. by rewrite app_nil_r.
Qed.

(** *** Termination *)

(** [set.pop()] returns an element of the set. *)
Hypothesis pick_elem : ∀ s m, pick s = Some m → m ∈ s.


Definition disjoint_sets (st : state) : Prop := to_import st ## imported st.

(** The files not opened yet. *)
Definition unopened (st : state) : gset string :=
  dom fs ∖ set_map path_of (imported st).

#[local] Instance path_of_inj : Inj (=) (=) path_of.
Proof.
  intros a. unfold path_of. induction a as [|x a IH]; intros [|y b] H; cbn in H.
  - done.
  - exfalso. injection H as Hx Hb. destruct b as [|? [|? [|? [|? [|? ?]]]]]; done.
  - exfalso. injection H as Hx Ha. destruct a as [|? [|? [|? [|? [|? ?]]]]]; done.
  - injection H as -> Hab. f_equal. by apply IH.
Qed.

Lemma loop_body_disjoint (st st' : state) (m : string) :
  disjoint_sets st → loop_body fs st m = Ok st' → disjoint_sets st'.
Proof.
  unfold disjoint_sets. intros Hdisj (txt & loaded & _ & _ & _ & -> & _ & ->)%loop_body_Ok.
  set_solver.
Qed.

Lemma loop_body_unopened (st st' : state) (m : string) :
  m ∉ imported st → loop_body fs st m = Ok st' →
  size (unopened st') < size (unopened st).
Proof.
  intros Hm (txt & loaded & Hfile & _ & _ & _ & _ & Himp)%loop_body_Ok.
  apply subset_size. unfold unopened. rewrite Himp.
  assert (path_of m ∈ dom fs) by (apply elem_of_dom; eauto).
  assert (path_of m ∉ (set_map path_of (imported st) : gset string)).
  { intros (m' & Heq & Hm')%elem_of_map. apply (inj path_of) in Heq. by subst. }
  apply strict_spec_alt. split; [set_solver|].
  intros Heq. assert (path_of m ∈ dom fs ∖ (set_map path_of (imported st) : gset string))
    as Hin by set_solver.
  rewrite <- Heq in Hin. set_solver.
Qed.

Lemma loop_terminates (fuel : nat) (st : state) :
  disjoint_sets st → size (unopened st) < fuel → is_Some (loop pick fs fuel st).
Proof.
  revert st. induction fuel as [|fuel IH]; intros st Hdisj Hfuel; [lia|].
  cbn. destruct (decide (0 < size (to_import st))); [|by eexists].
  destruct (pick (to_import st)) as [m|] eqn:Hpick; [|by eexists].
  destruct (loop_body fs st m) as [st'|e] eqn:Hbody; [|by eexists].
  apply IH; [by eapply loop_body_disjoint|].
  assert (m ∉ imported st) as Hm.
  { apply pick_elem in Hpick. unfold disjoint_sets in Hdisj. set_solver. }
  pose proof (loop_body_unopened st st' m Hm Hbody). lia.
Qed.

Lemma popped_fresh (fuel : nat) (st : state) :
  disjoint_sets st →
  NoDup (popped pick fs fuel st) ∧ ∀ m, m ∈ popped pick fs fuel st → m ∉ imported st.
Proof.
  revert st. induction fuel as [|fuel IH]; intros st Hdisj; cbn.
  { destruct (decide (0 < size (to_import st))); [|split; [constructor | set_solver]].
    destruct (pick (to_import st)); split; try constructor; set_solver. }
  destruct (decide (0 < size (to_import st))); [|split; [constructor | set_solver]].
  destruct (pick (to_import st)) as [m|] eqn:Hpick; [|split; [constructor | set_solver]].
  assert (m ∉ imported st).
  { apply pick_elem in Hpick. unfold disjoint_sets in Hdisj. set_solver. }
  destruct (loop_body fs st m) as [st'|e] eqn:Hbody.
  - destruct (IH st') as [Hnd Hfresh]; [by eapply loop_body_disjoint|].
    apply loop_body_Ok in Hbody as (txt & loaded & _ & _ & _ & _ & _ & Himp).
    rewrite Himp in Hfresh. split.
    + constructor; [|done]. intros Hin. apply Hfresh in Hin. set_solver.
    + intros m' [->|Hin]%elem_of_cons; [done|]. apply Hfresh in Hin. set_solver.
  - split; [apply NoDup_singleton|]. by intros m' ->%list_elem_of_singleton.
Qed.

(** When the loop ends normally, [imported] has grown by the popped
    names. *)
Lemma popped_imported (fuel : nat) (st st' : state) :
  loop pick fs fuel st = Some (Ok st') →
  imported st' = imported st ∪ list_to_set (popped pick fs fuel st).
Proof.
  revert st. induction fuel as [|fuel IH]; intros st; cbn.
  - destruct (decide (0 < size (to_import st))).
    + by destruct (pick (to_import st)).
    + intros [= <-]. set_solver.
  - destruct (decide (0 < size (to_import st))); [|intros [= <-]; set_solver].
    destruct (pick (to_import st)) as [m|]; [|done].
    destruct (loop_body fs st m) as [st1|e] eqn:Hbody; [|done].
    intros Hloop%IH. rewrite Hloop.
    apply loop_body_Ok in Hbody as (txt & loaded & _ & _ & _ & _ & _ & ->).
    set_solver.
Qed.

(** C8.  Whatever the files import, the loop ends within one turn per
    file plus one: [unroll_imports] returns a result (a program or an
    exception).  The module names it pops are pairwise distinct, so no
    module is loaded or merged twice, and they are the names [imported]
    holds at the end. *)
Theorem unroll_imports_terminates (prog : program) :
  is_Some (unroll_imports pick fs (S (size fs)) prog) ∧
  (∀ fuel imps, NoDup (popped pick fs fuel (init prog imps))) ∧
  (∀ fuel imps st,
     loop pick fs fuel (init prog imps) = Some (Ok st) →
     imported st = list_to_set (popped pick fs fuel (init prog imps))).
Proof.
  split; [|split].
  - unfold unroll_imports. destruct (imports prog) as [imps|]; [|by eexists].
    destruct (loop_terminates (S (size fs)) (init prog imps)) as [r Hr].
    + unfold disjoint_sets. cbn. set_solver.
    + unfold unopened. cbn. rewrite set_map_empty, difference_empty_L, size_dom. lia.
    + rewrite Hr. destruct r; by eexists.
  - intros fuel imps. apply popped_fresh. unfold disjoint_sets. cbn. set_solver.
  - intros fuel imps st Hloop%popped_imported. rewrite Hloop. cbn. set_solver.
Qed.

End ResolverFacts.

(** *** Concrete runs *)


(** C7 as stated fails when ['imports'] is present and empty: the result
    is rebuilt from the dict, which drops the key and keeps one function
    per name. *)
Lemma empty_imports_changes_program :
  unroll_imports pick_first ∅ 0 prog_empty_imports =
    Some (Ok {| functions := [main_ret]; imports := None |}) ∧
  ¬ spec_unchanged_without_imports pick_first ∅ prog_empty_imports.
Proof.
  split; [by vm_compute|]. intros H. specialize (H eq_refl 0). by vm_compute in H.
Qed.

(** A program without the ['imports'] key. *)
Lemma unroll_imports_without_imports_witness :
  unroll_imports pick_first fs_B 0 prog_no_imports = Some (Ok prog_no_imports) ∧
  (NoDup (name <$> functions prog_no_imports) →
   values (dict_of_functions (functions prog_no_imports)) = functions prog_no_imports).
Proof.
  apply (unroll_imports_without_imports pick_first fs_B 0 prog_no_imports).
  reflexivity.
Defined.

(** The diamond, with the first element of the set as [set.pop]. *)
Lemma unroll_imports_terminates_witness :
  is_Some (unroll_imports pick_first fs_diamond (S (size fs_diamond)) prog_diamond) ∧
  (∀ fuel imps, NoDup (popped pick_first fs_diamond fuel (init prog_diamond imps))) ∧
  (∀ fuel imps st,
     loop pick_first fs_diamond fuel (init prog_diamond imps) = Some (Ok st) →
     imported st = list_to_set (popped pick_first fs_diamond fuel (init prog_diamond imps))).
Proof.
  exact (unroll_imports_terminates pick_first fs_diamond pick_first_elem prog_diamond).
Defined.

Example diamond_resolved :
  unroll_imports pick_first fs_diamond 4 prog_diamond =
    Some (Ok {| functions :=
                  [main_ret;
                   Function "c" [IEffect "nop" []] None None;
                   Function "b" [IEffect "nop" []] None None;
                   Function "d" [IEffect "nop" []] None None];
                imports := None |}) ∧
  popped pick_first fs_diamond 4 (init prog_diamond ["B"; "C"]) = ["C"; "B"; "D"].
Proof. by vm_compute. Qed.

(** ** Printing and parsing again *)

Module Roundtrip.
Import Lexical.

(** *** Characters *)

Ltac by_cases_on_char c :=
  destruct c as [[] [] [] [] [] [] [] []]; vm_compute; intuition congruence.

Lemma IDENT_start_not_ignored (c : ascii) :
  IDENT_start c = true → WS c = false ∧ (c =? "#")%char = false.
Proof. by_cases_on_char c. Qed.

Lemma IDENT_start_rest (c : ascii) : IDENT_start c = true → IDENT_rest c = true.
Proof. by_cases_on_char c. Qed.

Lemma CNAME_start_rest (c : ascii) : CNAME_start c = true → CNAME_rest c = true.
Proof. by_cases_on_char c. Qed.

Lemma DIGIT_CNAME_rest (c : ascii) : DIGIT c = true → CNAME_rest c = true.
Proof. by_cases_on_char c. Qed.

Lemma IDENT_rest_not_ignored (c : ascii) :
  IDENT_rest c = true → WS c = false ∧ (c =? "#")%char = false.
Proof. by_cases_on_char c. Qed.

(** *** [span], [skip_ignored] and [strip_prefix] *)

(** [r] does not start with a character of class [p]. *)
Definition stops (p : ascii → bool) (r : string) : Prop :=
  match r with
  | String c _ => p c = false
  | "" => True
  end.

Lemma all_chars_cons (p : ascii → bool) (c : ascii) (s : string) :
  all_chars p (String c s) = p c && all_chars p s.
Proof. done. Qed.

Lemma all_chars_app (p : ascii → bool) (a b : string) :
  all_chars p (a +:+ b) = all_chars p a && all_chars p b.
Proof.
  induction a as [|c a IH]; [done|]. simpl.
  by rewrite !all_chars_cons, IH, andb_assoc.
Qed.

Lemma span_app (p : ascii → bool) (w r : string) :
  all_chars p w = true → stops p r → span p (w +:+ r) = (w, r).
Proof.
  induction w as [|c w IH]; simpl.
  - intros _ Hr. destruct r as [|c r]; [done|]. cbn in *. by rewrite Hr.
  - rewrite all_chars_cons. intros [Hc Hw]%andb_true_iff Hr.
    by rewrite Hc, IH.
Qed.

Lemma span_sound (p : ascii → bool) (s w r : string) :
  span p s = (w, r) → s = w +:+ r ∧ all_chars p w = true ∧ stops p r.
Proof.
  revert w r. induction s as [|c s IH]; intros w r; cbn.
  - by intros [= <- <-].
  - destruct (p c) eqn:Hc.
    + destruct (span p s) as [w' r'] eqn:Hs. intros [= <- <-].
      destruct (IH w' r' eq_refl) as (-> & Hw & Hr).
      by rewrite all_chars_cons, Hc, Hw.
    + by intros [= <- <-].
Qed.

Lemma skip_head (c : ascii) (s : string) :
  WS c = false → (c =? "#")%char = false → skip_ignored false (String c s) = String c s.
Proof. intros Hws Hc. cbn. by rewrite Hws, Hc. Qed.

Lemma skip_WS (c : ascii) (s : string) :
  WS c = true → skip_ignored false (String c s) = skip_ignored false s.
Proof. intros Hws. cbn. by rewrite Hws. Qed.

(** What is left after skipping starts with a significant character. *)
Lemma skip_ignored_head (b : bool) (s : string) (c : ascii) (s' : string) :
  skip_ignored b s = String c s' → WS c = false ∧ (c =? "#")%char = false.
Proof.
  revert b. induction s as [|x s IH]; intros b; cbn; [done|].
  destruct b.
  - destruct (x =? nl)%char; apply IH.
  - destruct (WS x) eqn:Hws; [apply IH|].
    destruct (x =? "#")%char eqn:Hx; [apply IH|].
    by intros [= -> ->].
Qed.

Lemma strip_prefix_app (kw r : string) : Grammar.strip_prefix kw (kw +:+ r) = Some r.
Proof.
  induction kw as [|c kw IH]; simpl; [by destruct r|]. by rewrite Ascii.eqb_refl.
Qed.

Lemma strip_prefix_sound (kw s r : string) :
  Grammar.strip_prefix kw s = Some r → s = kw +:+ r.
Proof.
  revert s. induction kw as [|c kw IH]; intros s; simpl.
  - destruct s; by intros [= ->].
  - destruct s as [|x s]; [done|]. destruct (Ascii.eqb_spec c x) as [->|]; [|done].
    by intros ->%IH.
Qed.

(** *** The parser monad *)

Lemma bind_Some {A B} (p : Grammar.parser A) (k : A → Grammar.parser B)
    (s : string) (a : A) (s' : string) :
  p s = Some (a, s') → (p ≫= k) s = k a s'.
Proof. unfold mbind, Grammar.parser_bind. by intros ->. Qed.

Lemma bind_None {A B} (p : Grammar.parser A) (k : A → Grammar.parser B) (s : string) :
  p s = None → (p ≫= k) s = None.
Proof. unfold mbind, Grammar.parser_bind. by intros ->. Qed.

Lemma bind_inv {A B} (p : Grammar.parser A) (k : A → Grammar.parser B)
    (s : string) (b : B) (s' : string) :
  (p ≫= k) s = Some (b, s') → ∃ a s1, p s = Some (a, s1) ∧ k a s1 = Some (b, s').
Proof.
  unfold mbind, Grammar.parser_bind. destruct (p s) as [[a s1]|]; [eauto | done].
Qed.

Lemma alt_Some {A} (p q : Grammar.parser A) (s : string) (r : A * string) :
  p s = Some r → Grammar.alt p q s = Some r.
Proof. unfold Grammar.alt. by intros ->. Qed.

Lemma alt_None {A} (p q : Grammar.parser A) (s : string) :
  p s = None → Grammar.alt p q s = q s.
Proof. unfold Grammar.alt. by intros ->. Qed.

Lemma alt_inv {A} (p q : Grammar.parser A) (s : string) (r : A * string) :
  Grammar.alt p q s = Some r → p s = Some r ∨ (p s = None ∧ q s = Some r).
Proof. unfold Grammar.alt. destruct (p s); [intros [= <-]; auto | auto]. Qed.

(** *** Terminals *)

Lemma keyword_WS (kw : string) (c : ascii) (s : string) :
  WS c = true → Grammar.keyword kw (String c s) = Grammar.keyword kw s.
Proof. intros Hws. unfold Grammar.keyword. by rewrite skip_WS. Qed.

Lemma word_WS (type_ : string) (start rest : ascii → bool) (c : ascii) (s : string) :
  WS c = true → Grammar.word type_ start rest (String c s) = Grammar.word type_ start rest s.
Proof. intros Hws. unfold Grammar.word. by rewrite skip_WS. Qed.

Lemma word_spec (type_ : string) (start rest : ascii → bool) (c : ascii) (w r : string) :
  start c = true → WS c = false → (c =? "#")%char = false →
  all_chars rest w = true → stops rest r →
  Grammar.word type_ start rest (String c (w +:+ r)) = Some (Token type_ (String c w), r).
Proof.
  intros Hc Hws Hhash Hw Hr. unfold Grammar.word.
  by rewrite skip_head, Hc, span_app.
Qed.

Lemma word_sound (type_ : string) (start rest : ascii → bool) (s : string) (t : tree) (s' : string) :
  Grammar.word type_ start rest s = Some (t, s') →
  ∃ c w, t = Token type_ (String c w) ∧ start c = true ∧ all_chars rest w = true ∧
         skip_ignored false s = String c (w +:+ s') ∧ stops rest s'.
Proof.
  unfold Grammar.word. destruct (skip_ignored false s) as [|c s0]; [done|].
  destruct (start c) eqn:Hc; [|done].
  destruct (span rest s0) as [w r] eqn:Hspan. intros [= <- <-].
  apply span_sound in Hspan as (-> & Hw & Hr). by exists c, w.
Qed.

Lemma CNAME_spec (w r : string) :
  is_CNAME w = true → stops CNAME_rest r →
  Grammar.CNAME (w +:+ r) = Some (Token "CNAME" w, r).
Proof.
  destruct w as [|c w]; [done|]. cbn [is_CNAME]. intros [Hc Hw]%andb_true_iff Hr.
  destruct (IDENT_start_not_ignored c) as [? ?]; [by apply CNAME_start_IDENT_start|].
  by apply word_spec.
Qed.

Lemma IDENT_spec (w r : string) :
  is_IDENT w = true → stops IDENT_rest r →
  Grammar.IDENT (w +:+ r) = Some (Token "IDENT" w, r).
Proof.
  destruct w as [|c w]; [done|]. cbn [is_IDENT]. intros [Hc Hw]%andb_true_iff Hr.
  destruct (IDENT_start_not_ignored c) as [? ?]; [done|].
  by apply word_spec.
Qed.

Lemma keyword_spec (kw r : string) (c : ascii) (kw' : string) :
  kw = String c kw' → WS c = false → (c =? "#")%char = false →
  Grammar.keyword kw (kw +:+ r) = Some ((), r).
Proof.
  intros -> Hws Hc. unfold Grammar.keyword.
  change (String c kw' +:+ r) with (String c (kw' +:+ r)).
  rewrite skip_head by done.
  change (String c (kw' +:+ r)) with (String c kw' +:+ r).
  by rewrite strip_prefix_app.
Qed.

Lemma keyword_None (kw : string) (s : string) (k c : ascii) (kw' s0 : string) :
  kw = String k kw' → skip_ignored false s = String c s0 → k ≠ c →
  Grammar.keyword kw s = None.
Proof.
  intros -> Hs Hne. unfold Grammar.keyword. rewrite Hs. cbn.
  by destruct (Ascii.eqb_spec k c).
Qed.

Lemma keyword_sound (kw s r : string) :
  Grammar.keyword kw s = Some ((), r) → skip_ignored false s = kw +:+ r.
Proof.
  unfold Grammar.keyword.
  destruct (Grammar.strip_prefix kw (skip_ignored false s)) as [r'|] eqn:H; [|done].
  intros [= <-]. by apply strip_prefix_sound.
Qed.

(** *** Looking ahead to the next punctuation *)

(** [scan f s] runs over [s]: a character with [f c = None] is passed,
    [f c = Some b] answers [b], and the end of the text answers [false]. *)
Fixpoint scan (f : ascii → option bool) (s : string) : bool :=
  match s with
  | String c s' =>
      match f c with
      | Some b => b
      | None => scan f s'
      end
  | "" => false
  end.

(** [f] passes the characters of class [p]. *)
Definition passes (f : ascii → option bool) (p : ascii → bool) : Prop :=
  ∀ c, p c = true → f c = None.

(** [f] never answers [true] on an ignored character. *)
Definition strict (f : ascii → option bool) : Prop :=
  f "#"%char = Some false ∧ ∀ c, WS c = true → f c ≠ Some true.

Lemma scan_skip (f : ascii → option bool) (s : string) :
  strict f → scan f s = true → scan f (skip_ignored false s) = true.
Proof.
  intros [Hhash Hws]. induction s as [|c s IH]; [done|]. cbn.
  destruct (WS c) eqn:Hc.
  - destruct (f c) as [[]|] eqn:Hf; [by apply Hws in Hf|done|done].
  - destruct (Ascii.eqb_spec c "#") as [->|]; [by rewrite Hhash|].
    cbn. by destruct (f c).
Qed.

Lemma scan_span (f : ascii → option bool) (p : ascii → bool) (s w r : string) :
  passes f p → span p s = (w, r) → scan f s = true → scan f r = true.
Proof.
  intros Hp. revert w r. induction s as [|c s IH]; intros w r; cbn.
  - by intros [= <- <-].
  - destruct (p c) eqn:Hc.
    + destruct (span p s) as [w' r'] eqn:Hs. intros [= <- <-].
      rewrite (Hp c Hc). by apply (IH w' r').
    + by intros [= <- <-].
Qed.

Lemma scan_strip_prefix (f : ascii → option bool) (kw s r : string) :
  all_chars (λ c, bool_decide (f c = None)) kw = true →
  Grammar.strip_prefix kw s = Some r → scan f s = true → scan f r = true.
Proof.
  revert s. induction kw as [|k kw IH]; intros s; simpl.
  - destruct s; by intros _ [= ->].
  - rewrite all_chars_cons. intros [Hk Hkw]%andb_true_iff.
    destruct s as [|c s]; [done|]. destruct (Ascii.eqb_spec k c) as [<-|]; [|done].
    apply bool_decide_eq_true in Hk. cbn. rewrite Hk. by apply IH.
Qed.

Lemma scan_word (f : ascii → option bool) (type_ : string) (start rest : ascii → bool)
    (s : string) (t : tree) (s' : string) :
  strict f → passes f start → passes f rest →
  Grammar.word type_ start rest s = Some (t, s') → scan f s = true → scan f s' = true.
Proof.
  intros Hf Hstart Hrest Hword Hs. apply (scan_skip f s Hf) in Hs.
  unfold Grammar.word in Hword. destruct (skip_ignored false s) as [|c s0]; [done|].
  destruct (start c) eqn:Hc; [|done]. destruct (span rest s0) as [w r] eqn:Hspan.
  injection Hword as <- <-. cbn in Hs. rewrite (Hstart c Hc) in Hs.
  by eapply scan_span.
Qed.

Lemma scan_keyword (f : ascii → option bool) (kw s r : string) :
  strict f → all_chars (λ c, bool_decide (f c = None)) kw = true →
  Grammar.keyword kw s = Some ((), r) → scan f s = true → scan f r = true.
Proof.
  intros Hf Hkw Hkey Hs. apply (scan_skip f s Hf) in Hs. unfold Grammar.keyword in Hkey.
  destruct (Grammar.strip_prefix kw (skip_ignored false s)) as [r'|] eqn:Hstrip; [|done].
  injection Hkey as <-. by eapply scan_strip_prefix.
Qed.

Lemma scan_keyword_None (f : ascii → option bool) (kw s : string) (k : ascii) (kw' : string) :
  strict f → kw = String k kw' → f k = Some false → scan f s = true →
  Grammar.keyword kw s = None.
Proof.
  intros Hf -> Hk Hs. apply (scan_skip f s Hf) in Hs. unfold Grammar.keyword.
  destruct (skip_ignored false s) as [|c s0]; [done|]. cbn.
  destruct (Ascii.eqb_spec k c) as [<-|]; [|done]. cbn in Hs. by rewrite Hk in Hs.
Qed.

Lemma scan_many {A} (f : ascii → option bool) (p : Grammar.parser A)
    (fuel : nat) (s : string) (l : list A) (s' : string) :
  (∀ s a s', p s = Some (a, s') → scan f s = true → scan f s' = true) →
  Grammar.many fuel p s = (l, s') → scan f s = true → scan f s' = true.
Proof.
  intros Hp. revert s l. induction fuel as [|fuel IH]; intros s l; cbn.
  - by intros [= <- <-].
  - destruct (p s) as [[a s1]|] eqn:Hps; [|by intros [= <- <-]].
    destruct (Grammar.many fuel p s1) as [l' r] eqn:Hmany. intros [= <- <-] Hs.
    eapply IH; [done|]. by eapply Hp.
Qed.

Lemma scan_app (f : ascii → option bool) (w s : string) :
  all_chars (λ c, bool_decide (f c = None)) w = true → scan f (w +:+ s) = scan f s.
Proof.
  induction w as [|c w IH]; [done|]. rewrite all_chars_cons. simpl.
  intros [Hc Hw]%andb_true_iff. apply bool_decide_eq_true in Hc. by rewrite Hc, IH.
Qed.

Lemma all_chars_passes (f : ascii → option bool) (p : ascii → bool) (w : string) :
  passes f p → all_chars p w = true → all_chars (λ c, bool_decide (f c = None)) w = true.
Proof.
  intros Hp. apply all_chars_impl. intros c Hc. by apply bool_decide_eq_true, Hp.
Qed.

(** The four look-aheads used below.  [to_stop]: up to the first [;], [=]
    or [}] there are only identifier characters, white space and colons
    (so no brace opens before the line or the body ends). *)
Definition to_stop (c : ascii) : option bool :=
  if ((c =? ";") || (c =? "=") || (c =? "}"))%char then Some true
  else if IDENT_rest c || WS c || (c =? ":")%char then None
  else Some false.

(** [to_mark]: the first punctuation is [:], [;] or [}], not [=]. *)
Definition to_mark (c : ascii) : option bool :=
  if ((c =? ":") || (c =? ";") || (c =? "}"))%char then Some true
  else if IDENT_rest c || WS c then None
  else Some false.

(** [to_semi]: identifiers and white space up to a [;]. *)
Definition to_semi (c : ascii) : option bool :=
  if (c =? ";")%char then Some true
  else if IDENT_rest c || WS c then None
  else Some false.

(** [to_colon]: identifiers and white space up to a [:]. *)
Definition to_colon (c : ascii) : option bool :=
  if (c =? ":")%char then Some true
  else if IDENT_rest c || WS c then None
  else Some false.

(** [to_open]: identifiers and white space up to a [{]. *)
Definition to_open (c : ascii) : option bool :=
  if (c =? "{")%char then Some true
  else if IDENT_rest c || WS c then None
  else Some false.

Ltac by_cases_on_chars :=
  repeat match goal with
    | |- strict _ => split
    | |- passes _ _ => intros ?
    | |- ∀ c : ascii, _ => intros ?
    | c : ascii |- _ => by_cases_on_char c
    | |- _ => done
    end.

Lemma to_stop_strict : strict to_stop. Proof. by_cases_on_chars. Qed.
Lemma to_mark_strict : strict to_mark. Proof. by_cases_on_chars. Qed.
Lemma to_semi_strict : strict to_semi. Proof. by_cases_on_chars. Qed.
Lemma to_colon_strict : strict to_colon. Proof. by_cases_on_chars. Qed.
Lemma to_open_strict : strict to_open. Proof. by_cases_on_chars. Qed.

Lemma to_stop_IDENT_rest : passes to_stop IDENT_rest. Proof. by_cases_on_chars. Qed.
Lemma to_mark_IDENT_rest : passes to_mark IDENT_rest. Proof. by_cases_on_chars. Qed.
Lemma to_semi_IDENT_rest : passes to_semi IDENT_rest. Proof. by_cases_on_chars. Qed.
Lemma to_colon_IDENT_rest : passes to_colon IDENT_rest. Proof. by_cases_on_chars. Qed.
Lemma to_open_IDENT_rest : passes to_open IDENT_rest. Proof. by_cases_on_chars. Qed.

Lemma passes_weaken (f : ascii → option bool) (p q : ascii → bool) :
  (∀ c, q c = true → p c = true) → passes f p → passes f q.
Proof. intros Hqp Hp c Hc. by apply Hp, Hqp. Qed.

Lemma passes_IDENT (f : ascii → option bool) :
  passes f IDENT_rest →
  passes f IDENT_start ∧ passes f CNAME_start ∧ passes f CNAME_rest.
Proof.
  intros Hf. repeat split; eapply passes_weaken; try exact Hf.
  - apply IDENT_start_rest.
  - intros c Hc. by apply IDENT_start_rest, CNAME_start_IDENT_start.
  - apply CNAME_rest_IDENT_rest.
Qed.

(** Reading an identifier keeps any look-ahead that passes identifiers. *)
Lemma scan_IDENT (f : ascii → option bool) (s : string) (t : tree) (s' : string) :
  strict f → passes f IDENT_rest →
  Grammar.IDENT s = Some (t, s') → scan f s = true → scan f s' = true.
Proof.
  intros Hf Hp. destruct (passes_IDENT f Hp) as (? & ? & ?). by apply scan_word.
Qed.

Lemma scan_CNAME (f : ascii → option bool) (s : string) (t : tree) (s' : string) :
  strict f → passes f IDENT_rest →
  Grammar.CNAME s = Some (t, s') → scan f s = true → scan f s' = true.
Proof.
  intros Hf Hp. destruct (passes_IDENT f Hp) as (? & ? & ?). by apply scan_word.
Qed.

Lemma scan_type (f : ascii → option bool) (s : string) (t : tree) (s' : string) :
  strict f → passes f IDENT_rest →
  Grammar.type s = Some (t, s') → scan f s = true → scan f s' = true.
Proof.
  intros Hf Hp (t0 & s1 & Hc & [= <- <-])%bind_inv. by eapply scan_CNAME.
Qed.

(** *** Rules that cannot apply *)

Lemma func_unfold (n : nat) :
  Grammar.func (S n) =
    (n_ ← Grammar.CNAME; a ← Grammar.star (S n) Grammar.arg;
     Grammar.alt
       (Grammar.keyword "{";;
        i ← Grammar.star (S n) (Grammar.instr_with (Grammar.func n) (S n));
        Grammar.keyword "}";; mret (Tree "func" (n_ :: a ++ i)))
       (Grammar.keyword ":";; t ← Grammar.type; Grammar.keyword "{";;
        i ← Grammar.star (S n) (Grammar.instr_with (Grammar.func n) (S n));
        Grammar.keyword "}";; mret (Tree "func" (n_ :: a ++ t :: i)))).
Proof. done. Qed.

Lemma bind_star {A B} (fuel : nat) (p : Grammar.parser A) (k : list A → Grammar.parser B)
    (s : string) :
  (Grammar.star fuel p ≫= k) s = k (Grammar.many fuel p s).1 (Grammar.many fuel p s).2.
Proof.
  unfold mbind, Grammar.parser_bind, Grammar.star. by destruct (Grammar.many fuel p s).
Qed.

Ltac bind_case_core H a s' :=
  lazymatch goal with
  | |- (?p ≫= ?k) ?s = None =>
      destruct (p s) as [[a s']|] eqn:H;
      [rewrite (bind_Some p k s a s' H);
       lazymatch type of a with unit => destruct a | _ => idtac end
      | by rewrite (bind_None p k s H)]
  end.

Tactic Notation "bind_case" ident(H) "as" ident(a) ident(s) := bind_case_core H a s.

Lemma scan_arg (s : string) (t : tree) (s' : string) :
  Grammar.arg s = Some (t, s') → scan to_stop s = true → scan to_stop s' = true.
Proof.
  intros [H|[_ H]]%alt_inv Hs.
  - apply bind_inv in H as (i & s1 & Hi & [= <- <-]).
    by eapply scan_IDENT; [apply to_stop_strict | apply to_stop_IDENT_rest | |].
  - apply bind_inv in H as ([] & s1 & Hparen & _).
    by rewrite (scan_keyword_None to_stop "(" s "(" "" to_stop_strict) in Hparen.
Qed.

(** Before the next [;], [=] or [}] no function can start. *)
Lemma func_None (n : nat) (s : string) :
  scan to_stop s = true → Grammar.func n s = None.
Proof.
  destruct n as [|n]; [done|]. intros Hs. rewrite func_unfold.
  bind_case H1 as n_ s0. apply (scan_CNAME to_stop) in H1;
    [|apply to_stop_strict | apply to_stop_IDENT_rest | done].
  rewrite bind_star. destruct (Grammar.many (S n) Grammar.arg s0) as [args s1] eqn:H2. cbn.
  apply (scan_many to_stop) in H2; [|apply scan_arg | done].
  rewrite alt_None.
  2:{ apply bind_None. by apply (scan_keyword_None to_stop "{" s1 "{" "" to_stop_strict). }
  bind_case H3 as u s2. apply (scan_keyword to_stop) in H3; [|apply to_stop_strict | done | done].
  bind_case H4 as t s3. apply (scan_type to_stop) in H4;
    [|apply to_stop_strict | apply to_stop_IDENT_rest | done].
  apply bind_None. by apply (scan_keyword_None to_stop "{" s3 "{" "" to_stop_strict).
Qed.

Lemma def_func_None (n : nat) (s : string) :
  scan to_stop s = true → Grammar.def_func_with (Grammar.func n) s = None.
Proof.
  intros Hs. unfold Grammar.def_func_with.
  bind_case H1 as u s1. apply (scan_keyword to_stop) in H1; [|apply to_stop_strict | done | done].
  apply bind_None. by apply func_None.
Qed.

(** [IDENT ":" type "="], the common start of [const] and [vop], fails on
    [ident: ...] when what follows the colon has a [:], [;] or [}] before
    any [=]; it fails on [op args;] as well. *)
Lemma assign_None_semi {B} (k : tree → tree → Grammar.parser B) (s : string) :
  scan to_semi s = true →
  (d ← Grammar.IDENT; Grammar.keyword ":";; t ← Grammar.type; Grammar.keyword "=";; k d t) s
    = None.
Proof.
  intros Hs. bind_case H1 as d s0. apply (scan_IDENT to_semi) in H1;
    [|apply to_semi_strict | apply to_semi_IDENT_rest | done].
  apply bind_None. by apply (scan_keyword_None to_semi ":" s0 ":" "" to_semi_strict).
Qed.

Lemma assign_None_mark {B} (k : tree → tree → Grammar.parser B) (w s : string) :
  is_IDENT w = true → scan to_mark s = true →
  (d ← Grammar.IDENT; Grammar.keyword ":";; t ← Grammar.type; Grammar.keyword "=";; k d t)
    (w +:+ String ":" s) = None.
Proof.
  intros Hw Hs. rewrite (bind_Some _ _ _ _ _ (IDENT_spec w (String ":" s) Hw eq_refl)).
  rewrite (bind_Some _ _ _ _ _ (keyword_spec ":" s ":" "" eq_refl eq_refl eq_refl)).
  bind_case H1 as t s0. apply (scan_type to_mark) in H1;
    [|apply to_mark_strict | apply to_mark_IDENT_rest | done].
  apply bind_None. by apply (scan_keyword_None to_mark "=" s0 "=" "" to_mark_strict).
Qed.

(** [CNAME IDENT* ";"] fails on a label. *)
Lemma eop_None (fuel : nat) (s : string) :
  scan to_colon s = true → Grammar.eop fuel s = None.
Proof.
  intros Hs. unfold Grammar.eop. bind_case H1 as o s0. apply (scan_CNAME to_colon) in H1;
    [|apply to_colon_strict | apply to_colon_IDENT_rest | done].
  rewrite bind_star. destruct (Grammar.many fuel Grammar.IDENT s0) as [args s1] eqn:H2. cbn.
  apply (scan_many to_colon) in H2; [|  | done].
  - apply bind_None. by apply (scan_keyword_None to_colon ";" s1 ";" "" to_colon_strict).
  - intros x tok x'. apply scan_IDENT; [apply to_colon_strict | apply to_colon_IDENT_rest].
Qed.

(** *** Reading one token of a printed line *)

Section Steps.
Context {B : Type} (k : tree → Grammar.parser B).

Lemma step_WS_IDENT (c : ascii) (s : string) :
  WS c = true → (Grammar.IDENT ≫= k) (String c s) = (Grammar.IDENT ≫= k) s.
Proof.
  intros Hc. unfold mbind, Grammar.parser_bind, Grammar.IDENT. by rewrite word_WS.
Qed.

Lemma step_WS_CNAME (c : ascii) (s : string) :
  WS c = true → (Grammar.CNAME ≫= k) (String c s) = (Grammar.CNAME ≫= k) s.
Proof.
  intros Hc. unfold mbind, Grammar.parser_bind, Grammar.CNAME. by rewrite word_WS.
Qed.

Lemma step_WS_type (c : ascii) (s : string) :
  WS c = true → (Grammar.type ≫= k) (String c s) = (Grammar.type ≫= k) s.
Proof.
  intros Hc. unfold Grammar.type, mbind, Grammar.parser_bind, Grammar.CNAME.
  by rewrite word_WS.
Qed.

Lemma step_IDENT (w r : string) :
  is_IDENT w = true → stops IDENT_rest r →
  (Grammar.IDENT ≫= k) (w +:+ r) = k (Token "IDENT" w) r.
Proof. intros Hw Hr. by rewrite (bind_Some _ _ _ _ _ (IDENT_spec w r Hw Hr)). Qed.

Lemma step_CNAME (w r : string) :
  is_CNAME w = true → stops CNAME_rest r →
  (Grammar.CNAME ≫= k) (w +:+ r) = k (Token "CNAME" w) r.
Proof. intros Hw Hr. by rewrite (bind_Some _ _ _ _ _ (CNAME_spec w r Hw Hr)). Qed.

Lemma step_type (w r : string) :
  is_CNAME w = true → stops CNAME_rest r →
  (Grammar.type ≫= k) (w +:+ r) = k (Tree "type" [Token "CNAME" w]) r.
Proof.
  intros Hw Hr. unfold Grammar.type, mbind, Grammar.parser_bind.
  by rewrite CNAME_spec.
Qed.

End Steps.

Lemma step_WS_keyword {B} (kw : string) (k : unit → Grammar.parser B) (c : ascii) (s : string) :
  WS c = true → (Grammar.keyword kw ≫= k) (String c s) = (Grammar.keyword kw ≫= k) s.
Proof. intros Hc. unfold mbind, Grammar.parser_bind. by rewrite keyword_WS. Qed.

Lemma step_keyword {B} (kw : string) (k : unit → Grammar.parser B) (c : ascii) (kw' r : string) :
  kw = String c kw' → WS c = false → (c =? "#")%char = false →
  (Grammar.keyword kw ≫= k) (kw +:+ r) = k () r.
Proof. intros Hkw Hws Hc. by rewrite (bind_Some _ _ _ _ _ (keyword_spec kw r c kw' Hkw Hws Hc)). Qed.

(** The same, for a text that starts with the characters of [kw]. *)
Lemma step_keyword_eq {B} (kw : string) (k : unit → Grammar.parser B)
    (c : ascii) (kw' s r : string) :
  kw = String c kw' → s = kw +:+ r → WS c = false → (c =? "#")%char = false →
  (Grammar.keyword kw ≫= k) s = k () r.
Proof. intros Hkw -> Hws Hc. by eapply step_keyword. Qed.

(** *** Numbers *)

Lemma string_of_uint_digits (d : Decimal.uint) :
  all_chars DIGIT (NilEmpty.string_of_uint d) = true.
Proof. induction d; done. Qed.

Lemma to_uint_digits (p : positive) :
  ∃ c ds, NilZero.string_of_uint (Pos.to_uint p) = String c ds ∧
          DIGIT c = true ∧ all_chars DIGIT ds = true.
Proof.
  pose proof (DecimalPos.Unsigned.to_uint_nonnil p) as Hnil.
  pose proof (string_of_uint_digits (Pos.to_uint p)) as Hd.
  destruct (Pos.to_uint p) as [|d|d|d|d|d|d|d|d|d|d]; [done|..]; cbn in *; eauto.
Qed.

(** [str(z)] is an optional minus sign and at least one digit. *)
Lemma literal_text_LInt (z : Z) :
  ∃ sign c ds, literal_text (LInt z) = sign +:+ String c ds ∧
               (sign = "" ∨ sign = "-") ∧ DIGIT c = true ∧ all_chars DIGIT ds = true.
Proof.
  destruct z as [|p|p]; cbn.
  - exists "", "0"%char, "". eauto.
  - destruct (to_uint_digits p) as (c & ds & -> & ? & ?). exists "", c, ds. eauto.
  - destruct (to_uint_digits p) as (c & ds & -> & ? & ?). exists "-", c, ds. eauto.
Qed.

Lemma str_lower_Ok (v : literal) (s : string) :
  str_lower v = Ok s → s = literal_text v ∧ showable v.
Proof.
  unfold showable, str_lower.
  destruct v as [z|b]; [|by intros [= <-]].
  destruct (too_long _); [done|]. by intros [= <-].
Qed.

Lemma showable_LInt (z : Z) :
  showable (LInt z) ↔ too_long (unsigned (literal_text (LInt z))) = false.
Proof. unfold showable, str_lower. by destruct (too_long _). Qed.

Lemma py_int_literal_text (z : Z) :
  showable (LInt z) → JSONTransformer.py_int (literal_text (LInt z)) = Some z.
Proof.
  intros Hz%showable_LInt. unfold JSONTransformer.py_int. rewrite Hz.
  destruct (literal_text_LInt z) as (sign & c & ds & Hstr & Hsign & Hc & _).
  assert (Hplus : ∀ o, match literal_text (LInt z) with
                       | String x r =>
                           if (x =? "+")%char then o r
                           else Z.of_int <$> NilZero.int_of_string (literal_text (LInt z))
                       | "" => None
                       end = Z.of_int <$> NilZero.int_of_string (literal_text (LInt z))).
  { intros o. rewrite Hstr. destruct Hsign as [-> | ->]; [|done]. simpl.
    destruct (Ascii.eqb_spec c "+") as [->|]; [done | done]. }
  rewrite Hplus. cbn [literal_text]. rewrite NilZero.isi.
  - cbn. by rewrite DecimalZ.of_to.
  - destruct z; cbn; [done| |done]. intros [= H].
    by apply DecimalPos.Unsigned.to_uint_nonnil in H.
  - destruct z; cbn; [done|done|]. intros [= H].
    by apply DecimalPos.Unsigned.to_uint_nonnil in H.
Qed.

(** *** [str] shows what [int] has read *)

Lemma string_of_uint_length (d : Decimal.uint) :
  String.length (NilEmpty.string_of_uint d) = Decimal.nb_digits d.
Proof. induction d; cbn; congruence. Qed.

Lemma uint_of_string_length (s : string) (d : Decimal.uint) :
  NilEmpty.uint_of_string s = Some d → Decimal.nb_digits d = String.length s.
Proof. intros <-%NilEmpty.sus. by rewrite string_of_uint_length. Qed.

Lemma unsigned_string_of_uint (d : Decimal.uint) :
  unsigned (NilEmpty.string_of_uint d) = NilEmpty.string_of_uint d.
Proof. by destruct d. Qed.

Lemma unsigned_length (s : string) : String.length (unsigned s) ≤ String.length s.
Proof. destruct s as [|c r]; [done|]. cbn. destruct (_ || _); cbn; lia. Qed.

(** The digits of a number are no more than the digits it was read from. *)
Lemma digits_of_uint (s : string) (d : Decimal.uint) :
  NilZero.uint_of_string s = Some d →
  String.length (unsigned (NilZero.string_of_int (Decimal.norm (Decimal.Pos d))))
  ≤ String.length s.
Proof.
  destruct s as [|a r]; [done|]. unfold NilZero.uint_of_string.
  intros Hd. pose proof (uint_of_string_length _ _ Hd) as Hlen.
  assert (d ≠ Decimal.Nil) as Hnil by (intros ->; cbn in Hlen; lia).
  pose proof (DecimalFacts.nb_digits_unorm d Hnil) as Hle.
  pose proof (DecimalFacts.unorm_nonnil d) as Hun.
  cbn [Decimal.norm NilZero.string_of_int]. unfold NilZero.string_of_uint.
  destruct (Decimal.unorm d) eqn:Hu; [done|..].
  all: rewrite unsigned_string_of_uint, string_of_uint_length; lia.
Qed.

Lemma digits_of_int (s : string) (i : Decimal.int) :
  NilZero.int_of_string s = Some i →
  String.length (unsigned (NilZero.string_of_int (Decimal.norm i)))
  ≤ String.length (unsigned s).
Proof.
  destruct s as [|a r]; [done|]. unfold NilZero.int_of_string.
  destruct (Ascii.eqb_spec a "-") as [->|Hminus].
  - destruct (NilZero.uint_of_string r) as [d|] eqn:Hd; [|done]. intros [= <-].
    change (unsigned (String "-" r)) with r.
    destruct r as [|b r]; [done|]. unfold NilZero.uint_of_string in Hd.
    pose proof (uint_of_string_length _ _ Hd) as Hlen.
    pose proof (DecimalFacts.nb_digits_nzhead d) as Hle.
    cbn [Decimal.norm]. destruct (Decimal.nzhead d) eqn:Hu.
    { cbn in *. lia. }
    all: cbn [NilZero.string_of_int NilZero.string_of_uint unsigned Ascii.eqb Bool.eqb orb];
      rewrite string_of_uint_length; lia.
  - destruct (NilZero.uint_of_string (String a r)) as [d|] eqn:Hd; [|done]. intros [= <-].
    assert (unsigned (String a r) = String a r) as ->.
    { unfold unsigned. destruct (Ascii.eqb_spec a "+") as [->|]; [|].
      { cbn in Hd. by destruct (NilEmpty.uint_of_string r). }
      by destruct (Ascii.eqb_spec a "-"). }
    by apply digits_of_uint.
Qed.

Lemma py_int_showable (s : string) (z : Z) :
  JSONTransformer.py_int s = Some z → showable (LInt z).
Proof.
  unfold JSONTransformer.py_int. destruct (too_long (unsigned s)) eqn:Hlen; [done|].
  destruct s as [|a r]; [done|]. intros Hz. apply showable_LInt.
  unfold too_long in *. apply Z.ltb_ge. apply Z.ltb_ge in Hlen.
  cbn [literal_text].
  destruct (Ascii.eqb_spec a "+") as [->|Hplus].
  - destruct (NilZero.uint_of_string r) as [d|] eqn:Hd; [|done]. injection Hz as <-.
    change (Z.of_uint d) with (Z.of_int (Decimal.Pos d)). rewrite DecimalZ.to_of.
    apply digits_of_uint in Hd. change (unsigned (String "+" r)) with r in Hlen. lia.
  - destruct (NilZero.int_of_string (String a r)) as [i|] eqn:Hi; [|done]. injection Hz as <-.
    rewrite DecimalZ.to_of. apply digits_of_int in Hi. lia.
Qed.

Lemma SIGNED_INT_spec (z : Z) (r : string) :
  stops DIGIT r →
  Grammar.SIGNED_INT (literal_text (LInt z) +:+ r) =
    Some (Token "SIGNED_INT" (literal_text (LInt z)), r).
Proof.
  intros Hr. destruct (literal_text_LInt z) as (sign & c & ds & -> & Hsign & Hc & Hds).
  unfold Grammar.SIGNED_INT. destruct Hsign as [-> | ->]; simpl.
  - assert (WS c = false ∧ (c =? "#")%char = false) as [Hws Hhash]
      by (by apply IDENT_rest_not_ignored, CNAME_rest_IDENT_rest, DIGIT_CNAME_rest).
    rewrite Hws, Hhash.
    assert (((c =? "+") || (c =? "-"))%char = false) as -> by (revert Hc; by_cases_on_char c).
    cbn [span]. rewrite Hc. by rewrite span_app.
  - cbn [span]. rewrite Hc. by rewrite span_app.
Qed.

(** *** The printed text *)

(** [rest] preceded by the given lines, each after a newline. *)
Definition after (lines : list string) (rest : string) : string :=
  foldr (λ line acc, String nl (line +:+ acc)) rest lines.

Lemma after_app (l1 l2 : list string) (rest : string) :
  after (l1 ++ l2) rest = after l1 (after l2 rest).
Proof. unfold after. by rewrite foldr_app. Qed.

(** The tree the grammar builds for the line of an instruction. *)
Definition tree_of_literal (v : literal) : tree :=
  match v with
  | LInt _ => Tree "int" [Token "SIGNED_INT" (literal_text v)]
  | LBool _ => Tree "bool" [Token "BOOL" (literal_text v)]
  end.

Definition tree_of_instr (i : instr) : tree :=
  match i with
  | IConst dest type value =>
      Tree "const" [Token "IDENT" dest; Tree "type" [Token "CNAME" type];
                    tree_of_literal value]
  | IValue op dest type args =>
      Tree "vop" (Token "IDENT" dest :: Tree "type" [Token "CNAME" type] ::
                  Token "CNAME" op :: (Token "IDENT" <$> args))
  | IEffect op args => Tree "eop" (Token "CNAME" op :: (Token "IDENT" <$> args))
  | ILabel label => Tree "label" [Token "IDENT" label]
  | IFunc f => Tree "def_func" []
  end.

Section Lines.
Variable F : Grammar.parser tree.
Variable fuel : nat.

Lemma instr_const (s : string) (r : tree * string) :
  Grammar.def_func_with F s = None → Grammar.const s = Some r →
  Grammar.instr_with F fuel s = Some r.
Proof. intros Hd Hc. unfold Grammar.instr_with, Grammar.alt. by rewrite Hd, Hc. Qed.

Lemma instr_vop (s : string) (r : tree * string) :
  Grammar.def_func_with F s = None → Grammar.const s = None →
  Grammar.vop fuel s = Some r → Grammar.instr_with F fuel s = Some r.
Proof. intros Hd Hc Hv. unfold Grammar.instr_with, Grammar.alt. by rewrite Hd, Hc, Hv. Qed.

Lemma instr_eop (s : string) (r : tree * string) :
  Grammar.def_func_with F s = None → Grammar.const s = None →
  Grammar.vop fuel s = None → Grammar.eop fuel s = Some r →
  Grammar.instr_with F fuel s = Some r.
Proof.
  intros Hd Hc Hv He. unfold Grammar.instr_with, Grammar.alt. by rewrite Hd, Hc, Hv, He.
Qed.

Lemma instr_label (s : string) (r : tree * string) :
  Grammar.def_func_with F s = None → Grammar.const s = None →
  Grammar.vop fuel s = None → Grammar.eop fuel s = None → Grammar.label s = Some r →
  Grammar.instr_with F fuel s = Some r.
Proof.
  intros Hd Hc Hv He Hl. unfold Grammar.instr_with, Grammar.alt.
  by rewrite Hd, Hc, Hv, He, Hl.
Qed.

End Lines.

Ltac side := first [assumption | reflexivity | done].

(** Literal prefixes as characters, appends nested to the right. *)
Ltac normalize_text :=
  repeat (progress (rewrite ?string_app_assoc; simpl String.append)).

Lemma lit_spec (v : literal) (T : string) :
  Grammar.lit (literal_text v +:+ String ";" T) = Some (tree_of_literal v, String ";" T).
Proof.
  destruct v as [z|[]].
  - unfold Grammar.lit. apply alt_Some.
    by rewrite (bind_Some _ _ _ _ _ (SIGNED_INT_spec z (String ";" T) eq_refl)).
  - done.
  - done.
Qed.

Ltac keyword_step kw := erewrite (step_keyword_eq kw); [|side..].

Lemma lit_WS (c : ascii) (s : string) :
  WS c = true → Grammar.lit (String c s) = Grammar.lit s.
Proof.
  intros Hc. unfold Grammar.lit, Grammar.alt, mbind, Grammar.parser_bind,
    Grammar.SIGNED_INT, Grammar.BOOL.
  by rewrite skip_WS.
Qed.

Lemma step_WS_lit {B} (k : tree → Grammar.parser B) (c : ascii) (s : string) :
  WS c = true → (Grammar.lit ≫= k) (String c s) = (Grammar.lit ≫= k) s.
Proof. intros Hc. unfold mbind, Grammar.parser_bind. by rewrite lit_WS. Qed.

Lemma const_line (dest type : string) (value : literal) (T : string) :
  is_IDENT dest = true → is_CNAME type = true →
  Grammar.const
    (String nl (("  " +:+ (dest +:+ ": " +:+ type +:+ " = const " +:+ literal_text value) +:+ ";")
                +:+ T)) =
    Some (tree_of_instr (IConst dest type value), T).
Proof.
  intros Hd Ht. normalize_text.
  unfold Grammar.const.
  rewrite !step_WS_IDENT by side. rewrite step_IDENT by side.
  keyword_step ":".
  rewrite !step_WS_type by side. rewrite step_type by side.
  rewrite !step_WS_keyword by side. keyword_step "=".
  rewrite !step_WS_keyword by side. keyword_step "const".
  rewrite !step_WS_lit by side. rewrite (bind_Some _ _ _ _ _ (lit_spec value T)).
  keyword_step ";". done.
Qed.

(** The arguments of an operation, each after a blank, up to the [;]. *)
Definition spaced (args : list string) (T : string) : string :=
  foldr (λ a acc, String " " (a +:+ acc)) (String ";" T) args.

Lemma join_cons (a : string) (args : list string) (r : string) :
  join " " (a :: args) +:+ r =
    a +:+ match args with [] => r | _ => String " " (join " " args +:+ r) end.
Proof.
  unfold join. destruct args as [|b args]; [done|].
  cbn [String.concat]. by rewrite !string_app_assoc.
Qed.

Lemma join_spaced (args : list string) (T : string) :
  args ≠ [] → String " " (join " " args +:+ String ";" T) = spaced args T.
Proof.
  induction args as [|a args IH]; [done|]. intros _. rewrite join_cons. cbn.
  destruct args as [|b args]; [done|]. by rewrite IH.
Qed.

Lemma spaced_stops (args : list string) (T : string) : stops IDENT_rest (spaced args T).
Proof. by destruct args. Qed.

Ltac length_text :=
  repeat (progress (rewrite ?string_length_app in *; simpl String.length in *)); lia.

Lemma many_IDENT_spaced (fuel : nat) (args : list string) (T : string) :
  Forall (λ a, is_IDENT a = true) args → String.length (spaced args T) ≤ fuel →
  Grammar.many fuel Grammar.IDENT (spaced args T) = (Token "IDENT" <$> args, String ";" T).
Proof.
  revert fuel. induction args as [|a args IH]; intros fuel Hargs Hfuel.
  - by destruct fuel.
  - cbn [spaced foldr] in Hfuel. fold (spaced args T) in Hfuel.
    destruct fuel as [|fuel]; [cbn in Hfuel; lia|].
    apply Forall_cons in Hargs as [Ha Hargs]. cbn [Grammar.many spaced foldr].
    unfold Grammar.IDENT at 1. rewrite word_WS by done.
    fold Grammar.IDENT. fold (spaced args T).
    rewrite (IDENT_spec a _ Ha (spaced_stops args T)).
    rewrite IH; [done | done | length_text].
Qed.

Lemma keyword_skip (kw s r : string) :
  skip_ignored false s = kw +:+ r → Grammar.keyword kw s = Some ((), r).
Proof. intros Hs. unfold Grammar.keyword. by rewrite Hs, strip_prefix_app. Qed.

(** [IDENT* ";"] on the printed arguments. *)
Lemma args_spec {B} (fuel : nat) (args : list string) (T : string)
    (k : list tree → Grammar.parser B) :
  Forall (λ a, is_IDENT a = true) args →
  String.length (String " " (join " " args +:+ String ";" T)) ≤ fuel →
  (a ← Grammar.star fuel Grammar.IDENT; Grammar.keyword ";";; k a)
    (String " " (join " " args +:+ String ";" T)) = k (Token "IDENT" <$> args) T.
Proof.
  intros Hargs Hfuel. rewrite bind_star. destruct args as [|a args].
  - change (join " " [] +:+ String ";" T) with (String ";" T).
    assert (Grammar.many fuel Grammar.IDENT (String " " (String ";" T))
            = ([], String " " (String ";" T))) as -> by (by destruct fuel).
    cbn [fst snd].
    by rewrite (bind_Some _ _ _ _ _ (keyword_skip ";" (String " " (String ";" T)) T eq_refl)).
  - rewrite join_spaced in * by done. rewrite many_IDENT_spaced by done.
    cbn [fst snd].
    by rewrite (bind_Some _ _ _ _ _ (keyword_skip ";" (String ";" T) T eq_refl)).
Qed.

Lemma vop_line (fuel : nat) (op dest type : string) (args : list string) (T : string) :
  is_IDENT dest = true → is_CNAME type = true → is_CNAME op = true →
  Forall (λ a, is_IDENT a = true) args →
  String.length
    (String nl (("  " +:+ (dest +:+ ": " +:+ type +:+ " = " +:+ op +:+ " " +:+ join " " args)
                 +:+ ";") +:+ T)) ≤ fuel →
  Grammar.vop fuel
    (String nl (("  " +:+ (dest +:+ ": " +:+ type +:+ " = " +:+ op +:+ " " +:+ join " " args)
                 +:+ ";") +:+ T)) =
    Some (tree_of_instr (IValue op dest type args), T).
Proof.
  intros Hd Ht Ho Hargs Hfuel. revert Hfuel. normalize_text. intros Hfuel.
  unfold Grammar.vop.
  rewrite !step_WS_IDENT by side. rewrite step_IDENT by side.
  keyword_step ":".
  rewrite !step_WS_type by side. rewrite step_type by side.
  rewrite !step_WS_keyword by side. keyword_step "=".
  rewrite !step_WS_CNAME by side. rewrite step_CNAME by side.
  rewrite args_spec; [done | done | length_text].
Qed.

Lemma eop_line (fuel : nat) (op : string) (args : list string) (T : string) :
  is_CNAME op = true → Forall (λ a, is_IDENT a = true) args →
  String.length
    (String nl (("  " +:+ (op +:+ " " +:+ join " " args) +:+ ";") +:+ T)) ≤ fuel →
  Grammar.eop fuel (String nl (("  " +:+ (op +:+ " " +:+ join " " args) +:+ ";") +:+ T)) =
    Some (tree_of_instr (IEffect op args), T).
Proof.
  intros Ho Hargs Hfuel. revert Hfuel. normalize_text. intros Hfuel.
  unfold Grammar.eop.
  rewrite !step_WS_CNAME by side. rewrite step_CNAME by side.
  rewrite args_spec; [done | done | length_text].
Qed.

Lemma label_line (label : string) (T : string) :
  is_IDENT label = true →
  Grammar.label (String nl ((label +:+ ":") +:+ T)) = Some (tree_of_instr (ILabel label), T).
Proof.
  intros Hl. normalize_text.
  unfold Grammar.label.
  rewrite !step_WS_IDENT by side. rewrite step_IDENT by side.
  keyword_step ":". done.
Qed.

(** *** An opcode that reads as [const] and a literal *)

Definition is_digits (w : string) : bool :=
  match w with
  | "" => false
  | _ => all_chars DIGIT w
  end.

(** [const4], [consttrue], [constfalse]: without arguments, the text
    [d: t = const4;] is a [const] instruction. *)
Definition const_like (op : string) : bool :=
  match Grammar.strip_prefix "const" op with
  | Some w => is_digits w || String.eqb w "true" || String.eqb w "false"
  | None => false
  end.

Lemma is_CNAME_all (w : string) : is_CNAME w = true → all_chars CNAME_rest w = true.
Proof.
  destruct w as [|c w]; [done|]. cbn [is_CNAME]. rewrite all_chars_cons.
  intros [Hc Hw]%andb_true_iff. by rewrite (CNAME_start_rest c Hc).
Qed.

Lemma is_IDENT_all (w : string) : is_IDENT w = true → all_chars IDENT_rest w = true.
Proof.
  destruct w as [|c w]; [done|]. cbn [is_IDENT]. rewrite all_chars_cons.
  intros [Hc Hw]%andb_true_iff. by rewrite (IDENT_start_rest c Hc).
Qed.

(** A keyword made of name characters that starts [w c ...], where [c]
    is no name character, is a prefix of [w]. *)
Lemma prefix_split (p : ascii → bool) (kw w : string) (c : ascii) (r s : string) :
  all_chars p kw = true → p c = false →
  w +:+ String c r = kw +:+ s → ∃ w', w = kw +:+ w' ∧ s = w' +:+ String c r.
Proof.
  intros Hkw Hc. revert w. induction kw as [|k kw IH]; intros w; simpl.
  - intros <-. by exists w.
  - rewrite all_chars_cons in Hkw. apply andb_true_iff in Hkw as [Hk Hkw].
    destruct w as [|x w]; simpl.
    + intros [= -> _]. congruence.
    + intros [= -> Heq]. destruct (IH Hkw w Heq) as (w' & -> & ->). by exists w'.
Qed.

Lemma strip_prefix_split (p : ascii → bool) (kw w : string) (c : ascii) (r s : string) :
  all_chars p kw = true → p c = false →
  Grammar.strip_prefix kw (w +:+ String c r) = Some s →
  ∃ w', w = kw +:+ w' ∧ s = w' +:+ String c r.
Proof. intros Hkw Hc Hs%strip_prefix_sound. by eapply prefix_split. Qed.

Section ConstLike.
Variables (args : list string) (T : string).
Hypothesis Hargs : Forall (λ a, is_IDENT a = true) args.

Let rest : string := String " " (join " " args +:+ String ";" T).

(** After the opcode, or a part of it, no [;] follows at once. *)
Lemma keyword_semi_None (w : string) :
  all_chars CNAME_rest w = true → (w = "" → args ≠ []) →
  Grammar.keyword ";" (w +:+ rest) = None.
Proof using Hargs.
  intros Hw Hempty. destruct w as [|c w].
  - destruct args as [|a args']; [by destruct Hempty|].
    apply Forall_cons in Hargs as [Ha _]. unfold rest. rewrite join_cons.
    destruct a as [|x a]; [done|]. cbn [is_IDENT] in Ha.
    apply andb_true_iff in Ha as [Hx _].
    destruct (IDENT_start_not_ignored x Hx) as [Hws Hhash].
    eapply (keyword_None ";" _ ";" x ""); [done| |].
    + simpl String.append. rewrite skip_WS by done. by apply skip_head.
    + intros <-. by vm_compute in Hx.
  - rewrite all_chars_cons in Hw. apply andb_true_iff in Hw as [Hc _].
    destruct (IDENT_rest_not_ignored c (CNAME_rest_IDENT_rest c Hc)) as [Hws Hhash].
    eapply (keyword_None ";" _ ";" c ""); [done| |].
    + simpl String.append. by apply skip_head.
    + intros <-. by vm_compute in Hc.
Qed.

Lemma SIGNED_INT_name (w : string) (t : tree) (s : string) :
  all_chars CNAME_rest w = true → w ≠ "" →
  Grammar.SIGNED_INT (w +:+ rest) = Some (t, s) →
  ∃ ds w2, w = ds +:+ w2 ∧ is_digits ds = true ∧ s = w2 +:+ rest.
Proof.
  intros Hw Hne. destruct w as [|c w]; [done|].
  pose proof Hw as Hcw. rewrite all_chars_cons in Hcw. apply andb_true_iff in Hcw as [Hc _].
  destruct (IDENT_rest_not_ignored c (CNAME_rest_IDENT_rest c Hc)) as [Hws Hhash].
  unfold Grammar.SIGNED_INT. simpl String.append. rewrite skip_head by done.
  assert (((c =? "+") || (c =? "-"))%char = false) as -> by (revert Hc; by_cases_on_char c).
  destruct (span DIGIT (String c w)) as [ds w2] eqn:Hspan.
  apply span_sound in Hspan as (Heq & Hds & Hstop).
  change (String c (w +:+ rest)) with (String c w +:+ rest).
  rewrite Heq, string_app_assoc, span_app; [|done|].
  - destruct ds as [|d ds]; [done|]. intros [= <- <-]. by exists (String d ds), w2.
  - destruct w2 as [|x w2]; [done | done].
Qed.

Lemma BOOL_name (w : string) (t : tree) (s : string) :
  all_chars CNAME_rest w = true → w ≠ "" →
  Grammar.BOOL (w +:+ rest) = Some (t, s) →
  ∃ b w2, w = b +:+ w2 ∧ (b = "true" ∨ b = "false") ∧ s = w2 +:+ rest.
Proof.
  intros Hw Hne. destruct w as [|c w]; [done|].
  pose proof Hw as Hcw. rewrite all_chars_cons in Hcw. apply andb_true_iff in Hcw as [Hc _].
  destruct (IDENT_rest_not_ignored c (CNAME_rest_IDENT_rest c Hc)) as [Hws Hhash].
  unfold Grammar.BOOL. simpl String.append. rewrite skip_head by done.
  change (String c (w +:+ rest)) with (String c w +:+ rest). unfold rest.
  destruct (Grammar.strip_prefix "true" _) as [r|] eqn:Htrue.
  - intros [= <- <-].
    apply (strip_prefix_split CNAME_rest) in Htrue as (w2 & -> & ->); [|done..].
    exists "true", w2. auto.
  - destruct (Grammar.strip_prefix "false" _) as [r|] eqn:Hfalse; [|done].
    intros [= <- <-].
    apply (strip_prefix_split CNAME_rest) in Hfalse as (w2 & -> & ->); [|done..].
    exists "false", w2. auto.
Qed.

(** [const] does not read a value operation whose opcode is not [const]
    and, without arguments, is not [const] and a literal. *)
Lemma const_tail_None {B} (op : string) (k : tree → Grammar.parser B) :
  is_CNAME op = true → op ≠ "const" → (args = [] → const_like op = false) →
  (Grammar.keyword "const";; v ← Grammar.lit; Grammar.keyword ";";; k v)
    (String " " (op +:+ rest)) = None.
Proof using Hargs.
  intros Hop Hne Hlike. pose proof (is_CNAME_all op Hop) as Hall.
  bind_case H1 as u s1. apply keyword_sound in H1.
  rewrite skip_WS in H1 by done.
  destruct op as [|c op']; [done|]. cbn [is_CNAME] in Hop.
  apply andb_true_iff in Hop as [Hc _].
  destruct (IDENT_start_not_ignored c (CNAME_start_IDENT_start c Hc)) as [Hws Hhash].
  change (String c op' +:+ rest) with (String c (op' +:+ rest)) in H1.
  rewrite skip_head in H1 by done.
  change (String c (op' +:+ rest)) with (String c op' +:+ rest) in H1. unfold rest in H1.
  apply (prefix_split CNAME_rest) in H1 as (w & Hw & ->); [|done..]. fold rest.
  assert (w ≠ "") as Hw_ne by (intros ->; by rewrite Hw in Hne).
  assert (all_chars CNAME_rest w = true) as Hw_all.
  { rewrite Hw, all_chars_app in Hall. by apply andb_true_iff in Hall as [_ ?]. }
  bind_case H2 as v s0. apply bind_None.
  assert (∃ lit_text w2, w = lit_text +:+ w2 ∧ s0 = w2 +:+ rest ∧
            (is_digits lit_text = true ∨ lit_text = "true" ∨ lit_text = "false"))
    as (lit_text & w2 & Hsplit & -> & Hlit).
  { apply alt_inv in H2 as [H2|[_ H2]]; apply bind_inv in H2 as (t & s1 & H2 & [= _ <-]).
    - apply SIGNED_INT_name in H2 as (ds & w2 & ? & ? & ?); [|done..]. exists ds, w2. auto.
    - apply BOOL_name in H2 as (b & w2 & ? & ? & ?); [|done..]. exists b, w2. auto. }
  apply keyword_semi_None.
  - rewrite Hsplit, all_chars_app in Hw_all. by apply andb_true_iff in Hw_all as [_ ?].
  - intros -> Hnil. rewrite string_app_nil_r in Hsplit. subst w.
    specialize (Hlike Hnil). unfold const_like in Hlike.
    rewrite Hw, strip_prefix_app in Hlike.
    destruct Hlit as [Hd|[-> | ->]]; [by rewrite Hd in Hlike | done | done].
Qed.

End ConstLike.

(** *** One printed line *)

(** What the printer and the parser need of an instruction: identifiers
    that are identifiers, a constant that [str] can show, no nested
    function, no opcode [const] outside [IConst], and no [const]-like
    opcode without arguments. *)
Definition wf_instr (i : instr) : Prop :=
  match i with
  | IConst dest type value =>
      is_IDENT dest = true ∧ is_CNAME type = true ∧ showable value
  | IValue op dest type args =>
      is_IDENT dest = true ∧ is_CNAME type = true ∧ is_CNAME op = true ∧
      Forall (λ a, is_IDENT a = true) args ∧
      op ≠ "const" ∧ (args = [] → const_like op = false)
  | IEffect op args =>
      is_CNAME op = true ∧ Forall (λ a, is_IDENT a = true) args ∧ op ≠ "const"
  | ILabel label => is_IDENT label = true
  | IFunc _ => False
  end.

(** What the rules that fail on a label need of the text behind it. *)
Definition ahead (T : string) : Prop :=
  scan to_stop T = true ∧ scan to_mark T = true.

Lemma all_chars_join (p : ascii → bool) (args : list string) :
  p " "%char = true → Forall (λ a, all_chars p a = true) args →
  all_chars p (join " " args) = true.
Proof.
  intros Hsp. induction args as [|a args IH]; [done|].
  intros [Ha Hargs]%Forall_cons. specialize (IH Hargs).
  rewrite <- (string_app_nil_r (join " " (a :: args))), join_cons.
  destruct args as [|b args].
  - by rewrite string_app_nil_r.
  - rewrite all_chars_app, Ha. rewrite all_chars_cons, Hsp.
    by rewrite string_app_nil_r.
Qed.

Section Passing.
Variable f : ascii → option bool.
Hypothesis f_IDENT : passes f IDENT_rest.
Hypothesis f_space : f " "%char = None.

Lemma pass_IDENT (w : string) :
  is_IDENT w = true → all_chars (λ c, bool_decide (f c = None)) w = true.
Proof using f_IDENT. intros Hw. by apply (all_chars_passes f IDENT_rest), is_IDENT_all. Qed.

Lemma pass_CNAME (w : string) :
  is_CNAME w = true → all_chars (λ c, bool_decide (f c = None)) w = true.
Proof using f_IDENT. intros Hw. by apply pass_IDENT, is_CNAME_is_IDENT. Qed.

Lemma pass_args (args : list string) :
  Forall (λ a, is_IDENT a = true) args →
  all_chars (λ c, bool_decide (f c = None)) (join " " args) = true.
Proof using f_IDENT f_space.
  intros Hargs. apply all_chars_join; [by rewrite f_space|].
  eapply Forall_impl; [exact Hargs|]. intros a Ha. cbn beta. by apply pass_IDENT.
Qed.

End Passing.

Ltac scan_text :=
  normalize_text;
  repeat first
    [ progress simpl
    | rewrite scan_app by
        first [ by apply pass_IDENT; [by_cases_on_chars|]
              | by apply pass_CNAME; [by_cases_on_chars|]
              | by apply pass_args; [by_cases_on_chars|done|] ] ].

Lemma instr_line (n fuel : nat) (i : instr) (line T : string) :
  wf_instr i → print_instr_or_label i = Ok line →
  String.length (String nl (line +:+ T)) ≤ fuel → ahead T →
  Grammar.instr_with (Grammar.func n) fuel (String nl (line +:+ T)) =
    Some (tree_of_instr i, T) ∧
  ahead (String nl (line +:+ T)).
Proof.
  intros Hwf Hline Hfuel [Hstop Hmark].
  destruct i as [dest type value|op dest type args|op args|label|f]; cbn in Hwf, Hline.
  - destruct Hwf as (Hd & Ht & Hv). rewrite Hv in Hline. injection Hline as <-.
    assert (ahead (String nl (("  " +:+ (dest +:+ ": " +:+ type +:+ " = const " +:+
                                         literal_text value) +:+ ";") +:+ T))) as Hahead.
    { split; by scan_text. }
    split; [|done]. apply instr_const; [apply def_func_None, Hahead|].
    by apply const_line.
  - destruct Hwf as (Hd & Ht & Ho & Hargs & Hne & Hlike).
    destruct (String.eqb_spec op "const") as [|_]; [done|]. injection Hline as <-.
    assert (ahead (String nl (("  " +:+ (dest +:+ ": " +:+ type +:+ " = " +:+ op +:+ " " +:+
                                         join " " args) +:+ ";") +:+ T))) as Hahead.
    { split; by scan_text. }
    split; [|done]. apply instr_vop; [apply def_func_None, Hahead| |by apply vop_line].
    normalize_text. unfold Grammar.const.
    rewrite !step_WS_IDENT by side. rewrite step_IDENT by side.
    keyword_step ":".
    rewrite !step_WS_type by side. rewrite step_type by side.
    rewrite !step_WS_keyword by side. keyword_step "=".
    by apply const_tail_None.
  - destruct Hwf as (Ho & Hargs & Hne).
    destruct (String.eqb_spec op "const") as [|_]; [done|]. injection Hline as <-.
    assert (ahead (String nl (("  " +:+ (op +:+ " " +:+ join " " args) +:+ ";") +:+ T)))
      as Hahead.
    { split; by scan_text. }
    assert (scan to_semi (String nl (("  " +:+ (op +:+ " " +:+ join " " args) +:+ ";") +:+ T))
            = true) as Hsemi by (by scan_text).
    split; [|done].
    apply instr_eop; [apply def_func_None, Hahead| | |by apply eop_line].
    + by apply assign_None_semi.
    + by apply assign_None_semi.
  - injection Hline as <-. unfold print_label.
    assert (ahead (String nl ((label +:+ ":") +:+ T))) as Hahead.
    { split; by scan_text. }
    split; [|done].
    apply instr_label; [apply def_func_None, Hahead| | | |by apply label_line].
    + normalize_text. unfold Grammar.const.
      rewrite !step_WS_IDENT by side. by apply assign_None_mark.
    + normalize_text. unfold Grammar.vop.
      rewrite !step_WS_IDENT by side. by apply assign_None_mark.
    + apply eop_None. by scan_text.
  - done.
Qed.

(** *** A printed body, function and program *)

Definition tree_of_func (f : function) : tree :=
  Tree "func" (Token "CNAME" (name f) :: (tree_of_instr <$> instrs f)).

Definition wf_func (f : function) : Prop :=
  is_CNAME (name f) = true ∧ instrs f ≠ [] ∧ Forall wf_instr (instrs f).

(** The function as the printer shows it: without arguments and type. *)
Definition bare (f : function) : function := Function (name f) (instrs f) None None.

Lemma mapM_cons_Ok {A C} (g : A → result C) (a : A) (l : list A) (cs : list C) :
  mapM g (a :: l) = Ok cs → ∃ c cs', cs = c :: cs' ∧ g a = Ok c ∧ mapM g l = Ok cs'.
Proof.
  cbn. intros (c & Hc & (cs' & Hcs & [= <-])%bind_Ok)%bind_Ok. eauto.
Qed.

Lemma body_parse (n fuel fuel' : nat) (is_ : list instr) (lines : list string) (r : string) :
  Forall wf_instr is_ → mapM print_instr_or_label is_ = Ok lines →
  String.length (after lines (String nl (String "}" r))) ≤ fuel →
  String.length (after lines (String nl (String "}" r))) ≤ fuel' →
  Grammar.many fuel (Grammar.instr_with (Grammar.func n) fuel')
               (after lines (String nl (String "}" r))) =
    (tree_of_instr <$> is_, String nl (String "}" r)) ∧
  ahead (after lines (String nl (String "}" r))).
Proof.
  revert lines fuel. induction is_ as [|i is_ IH]; intros lines fuel Hwf Hlines Hfuel Hfuel'.
  - injection Hlines as <-. split; [by destruct fuel | done].
  - apply mapM_cons_Ok in Hlines as (line & lines' & -> & Hline & Hlines).
    apply Forall_cons in Hwf as [Hi Hwf]. cbn [after foldr] in *.
    fold (after lines' (String nl (String "}" r))) in *.
    destruct fuel as [|fuel]; [cbn in Hfuel; lia|].
    destruct (IH lines' fuel Hwf Hlines) as [Hmany Hahead]; [length_text..|].
    destruct (instr_line n fuel' i line _ Hi Hline Hfuel' Hahead) as [Hinstr Hahead'].
    split; [|done]. cbn [Grammar.many]. by rewrite Hinstr, Hmany.
Qed.

Lemma func_WS (n : nat) (c : ascii) (s : string) :
  WS c = true → Grammar.func n (String c s) = Grammar.func n s.
Proof.
  intros Hc. destruct n as [|n]; [done|]. rewrite func_unfold. by rewrite step_WS_CNAME.
Qed.

Lemma print_func_Ok (f : function) (lines : list string) :
  print_func f = Ok lines →
  ∃ body, mapM print_instr_or_label (instrs f) = Ok body ∧
          lines = (name f +:+ " {") :: body ++ ["}"].
Proof. unfold print_func. intros (body & Hbody & [= <-])%bind_Ok. eauto. Qed.

Lemma func_parse (n : nat) (f : function) (lines : list string) (r : string) :
  wf_func f → print_func f = Ok lines →
  String.length (after lines r) ≤ S n →
  Grammar.func (S n) (after lines r) = Some (tree_of_func f, r) ∧
  scan to_open (after lines r) = true.
Proof.
  intros (Hname & _ & Hwf) (body & Hbody & ->)%print_func_Ok.
  cbn [after foldr]. rewrite foldr_app. cbn [foldr].
  fold (after body (String nl ("}" +:+ r))).
  change ("}" +:+ r) with (String "}" r). intros Hfuel.
  split; [|by scan_text]. rewrite func_WS by done. revert Hfuel. normalize_text. intros Hfuel.
  rewrite func_unfold. rewrite step_CNAME by side.
  rewrite bind_star.
  assert (Grammar.many (S n) Grammar.arg
            (String " " (String "{" (after body (String nl (String "}" r))))) =
          ([], String " " (String "{" (after body (String nl (String "}" r)))))) as -> by done.
  cbn [fst snd]. apply alt_Some.
  rewrite !step_WS_keyword by side. keyword_step "{".
  rewrite bind_star.
  destruct (body_parse n (S n) (S n) (instrs f) body r Hwf Hbody) as [-> _]; [length_text..|].
  cbn [fst snd]. rewrite !step_WS_keyword by side. keyword_step "}". done.
Qed.

Lemma after_length (lines : list string) (r : string) :
  String.length r ≤ String.length (after lines r).
Proof.
  induction lines as [|l lines IH]; [done|]. cbn [after foldr].
  fold (after lines r). length_text.
Qed.

Lemma funcs_parse (n fuel : nat) (fs : list function) (blocks : list (list string)) :
  Forall wf_func fs → mapM print_func fs = Ok blocks →
  String.length (after (concat blocks) (String nl "")) ≤ fuel →
  String.length (after (concat blocks) (String nl "")) ≤ S n →
  Grammar.many fuel (Grammar.func (S n)) (after (concat blocks) (String nl "")) =
    (tree_of_func <$> fs, String nl "").
Proof.
  revert blocks fuel. induction fs as [|f fs IH]; intros blocks fuel Hwf Hblocks Hfuel Hn.
  - injection Hblocks as <-. by destruct fuel.
  - apply mapM_cons_Ok in Hblocks as (block & blocks' & -> & Hblock & Hblocks).
    apply Forall_cons in Hwf as [Hf Hwf]. cbn [concat] in *. rewrite after_app in *.
    destruct (func_parse n f block (after (concat blocks') (String nl "")) Hf Hblock Hn)
      as [Hfunc _].
    assert (String.length (after (concat blocks') (String nl "")) <
            String.length (after block (after (concat blocks') (String nl "")))) as Hlt.
    { apply print_func_Ok in Hblock as (body & _ & ->). cbn [after foldr].
      fold (after (body ++ ["}"]) (after (concat blocks') (String nl ""))).
      pose proof (after_length (body ++ ["}"]) (after (concat blocks') (String nl ""))).
      length_text. }
    destruct fuel as [|fuel]; [lia|]. cbn [Grammar.many]. rewrite Hfunc.
    rewrite IH; [done | done | done | lia | lia].
Qed.

Lemma to_text_after (line : string) (lines : list string) :
  to_text (line :: lines) = line +:+ after lines (String nl "").
Proof.
  unfold to_text. revert line. induction lines as [|l lines IH]; intros line.
  - done.
  - change (String.concat "" ((λ x, x +:+ String nl "") <$> line :: l :: lines))
      with ((line +:+ String nl "") +:+ "" +:+
            String.concat "" ((λ x, x +:+ String nl "") <$> l :: lines)).
    rewrite IH. cbn [after foldr]. by normalize_text.
Qed.

(** [import] cannot start the printed text. *)
Lemma imp_None (s : string) : scan to_open s = true → Grammar.imp s = None.
Proof.
  intros Hs. unfold Grammar.imp.
  bind_case H1 as u s1. apply (scan_keyword to_open) in H1; [|apply to_open_strict | done | done].
  bind_case H2 as m s2. apply (scan_CNAME to_open) in H2;
    [|apply to_open_strict | apply to_open_IDENT_rest | done].
  apply bind_None. by apply (scan_keyword_None to_open ";" s2 ";" "" to_open_strict).
Qed.

Lemma parse_printed (p : program) (lines : list string) :
  Forall wf_func (functions p) → print_prog p = Ok lines →
  Grammar.parse (to_text lines) = Ok (Tree "start" (tree_of_func <$> functions p)).
Proof.
  intros Hwf (blocks & Hblocks & [= <-])%bind_Ok.
  destruct (functions p) as [|f fs] eqn:Hfs.
  { by injection Hblocks as <-. }
  pose proof Hblocks as Hall.
  apply mapM_cons_Ok in Hblocks as (block & blocks' & -> & Hblock & Hblocks).
  pose proof Hblock as (body & _ & Hlines)%print_func_Ok.
  cbn [concat]. rewrite Hlines. cbn [app]. rewrite to_text_after.
  set (txt := (name f +:+ " {") +:+ after ((body ++ ["}"]) ++ concat blocks') (String nl "")).
  assert (after (concat (block :: blocks')) (String nl "") = String nl txt) as Htxt
    by (by rewrite Hlines).
  pose proof (funcs_parse (String.length txt) (S (String.length txt)) (f :: fs) _ Hwf Hall)
    as Hmany.
  rewrite Htxt in Hmany. specialize (Hmany ltac:(cbn; lia) ltac:(cbn; lia)).
  destruct (func_parse (String.length txt) f block (after (concat blocks') (String nl "")))
    as [Hfunc Hopen]; [by apply Forall_cons in Hwf as [? _] | done | |].
  { rewrite <- after_app. change (block ++ concat blocks') with (concat (block :: blocks')).
    rewrite Htxt. cbn. lia. }
  rewrite <- after_app in Hfunc, Hopen.
  change (block ++ concat blocks') with (concat (block :: blocks')) in Hfunc, Hopen.
  rewrite Htxt in Hfunc, Hopen. rewrite func_WS in Hfunc by done.
  cbn [Grammar.many] in Hmany. rewrite func_WS, Hfunc in Hmany by done.
  unfold Grammar.parse, Grammar.start. rewrite bind_star.
  assert (Grammar.many (S (String.length txt)) Grammar.imp txt = ([], txt)) as ->.
  { cbn [Grammar.many]. by rewrite imp_None. }
  cbn [fst snd]. rewrite bind_star. cbn [Grammar.many]. rewrite Hfunc, Hmany. done.
Qed.

(** *** Transforming the tree of a printed program *)

Lemma transform_Tree (data : string) (children : list tree) :
  JSONTransformer.transform (Tree data children) =
    mapM JSONTransformer.transform children ≫= JSONTransformer.call_userfunc data.
Proof.
  cbn [JSONTransformer.transform]. f_equal.
  induction children as [|c l IH]; [done|]. cbn [mapM]. by rewrite IH.
Qed.

Lemma mapM_fmap_Ok {A C} (g : A → result C) (h : C → A) (l : list C) :
  (∀ c, c ∈ l → g (h c) = Ok c) → mapM g (h <$> l) = Ok l.
Proof.
  induction l as [|c l IH]; intros Hg; [done|]. cbn.
  rewrite Hg by (by left). cbn. rewrite IH; [done|]. intros c' Hc'. apply Hg. by right.
Qed.

#[local] Arguments JSONTransformer.py_int : simpl never.

Lemma mapM_str_tokens (type_ : string) (args : list string) :
  mapM JSONTransformer.str (VToken type_ <$> args) = Ok args.
Proof. by apply mapM_fmap_Ok. Qed.

Lemma mapM_transform_tokens (type_ : string) (args : list string) :
  mapM JSONTransformer.transform (Token type_ <$> args) = Ok (VToken type_ <$> args).
Proof. induction args as [|a args IH]; [done|]. cbn. by rewrite IH. Qed.

Definition no_nested (i : instr) : Prop :=
  match i with
  | IFunc _ => False
  | _ => True
  end.

(** The constant of an instruction, if it is one, is within the limit. *)
Definition const_showable (i : instr) : Prop :=
  match i with
  | IConst _ _ value => showable value
  | _ => True
  end.

Lemma transform_instr (i : instr) :
  no_nested i → const_showable i →
  JSONTransformer.transform (tree_of_instr i) = Ok (VInstr i).
Proof.
  destruct i as [dest type value|op dest type args|op args|label|f]; intros Hwf Hv; [..|done].
  - destruct value as [z|[]]; [|done..].
    pose proof (py_int_literal_text z Hv) as Hz. cbn in Hz |- *.
    unfold JSONTransformer.call_userfunc. cbn. rewrite Hz. done.
  - cbn [tree_of_instr]. rewrite transform_Tree. cbn [mapM].
    rewrite mapM_transform_tokens. cbn. unfold JSONTransformer.call_userfunc. cbn.
    by rewrite mapM_str_tokens.
  - cbn [tree_of_instr]. rewrite transform_Tree. cbn [mapM].
    rewrite mapM_transform_tokens. cbn. unfold JSONTransformer.call_userfunc. cbn.
    by rewrite mapM_str_tokens.
  - done.
Qed.

Lemma mapM_transform_fmap {A} (g : A → tree) (h : A → value) (l : list A) :
  (∀ a, a ∈ l → JSONTransformer.transform (g a) = Ok (h a)) →
  mapM JSONTransformer.transform (g <$> l) = Ok (h <$> l).
Proof.
  induction l as [|a l IH]; intros Hg; [done|]. cbn [fmap list_fmap mapM].
  rewrite Hg by (by left). cbn [mbind result_bind].
  fold (fmap g l). rewrite IH; [done|]. intros a' Ha'. apply Hg. by right.
Qed.

Lemma call_userfunc_Ok (data : string) (items : list value) (v : value) :
  JSONTransformer.callback data items = Ok v → JSONTransformer.call_userfunc data items = Ok v.
Proof. unfold JSONTransformer.call_userfunc. by intros ->. Qed.

Lemma call_userfunc_Ok_inv (data : string) (items : list value) (v : value) :
  JSONTransformer.call_userfunc data items = Ok v → JSONTransformer.callback data items = Ok v.
Proof. unfold JSONTransformer.call_userfunc. by destruct (JSONTransformer.callback _ _). Qed.

Lemma wf_instr_transform (i : instr) : wf_instr i → no_nested i ∧ const_showable i.
Proof. destruct i; cbn; tauto. Qed.

Lemma transform_func (f : function) :
  wf_func f → JSONTransformer.transform (tree_of_func f) = Ok (VFunc (bare f)).
Proof.
  intros (_ & Hne & Hwf). unfold tree_of_func. rewrite transform_Tree. cbn [mapM].
  rewrite (mapM_transform_fmap tree_of_instr VInstr).
  2:{ intros i Hi. eapply Forall_forall in Hwf; [|done].
      apply wf_instr_transform in Hwf as [? ?]. by apply transform_instr. }
  destruct (instrs f) as [|i l] eqn:Hinstrs; [done|]. unfold bare. rewrite Hinstrs.
  cbn [JSONTransformer.transform mbind result_bind]. apply call_userfunc_Ok.
  cbn. by rewrite mapM_as_instr_VInstr.
Qed.

Lemma transform_start (fs : list function) :
  Forall wf_func fs →
  JSONTransformer.transform (Tree "start" (tree_of_func <$> fs)) =
    Ok (VProg {| functions := bare <$> fs; imports := None |}).
Proof.
  intros Hwf. rewrite transform_Tree.
  rewrite (mapM_transform_fmap tree_of_func (VFunc ∘ bare)).
  2:{ intros f Hf. apply transform_func. by eapply Forall_forall in Hwf. }
  rewrite list_fmap_compose. cbn [mbind result_bind]. apply call_userfunc_Ok.
  change (JSONTransformer.callback "start" ?items) with (JSONTransformer.start items).
  unfold JSONTransformer.start.
  assert (JSONTransformer.leading_tokens (VFunc <$> (bare <$> fs)) =
          ([], VFunc <$> (bare <$> fs))) as -> by (by destruct fs).
  by rewrite mapM_fmap_Ok.
Qed.

Lemma print_instr_or_label_wf (i : instr) :
  wf_instr i → ∃ line, print_instr_or_label i = Ok line.
Proof.
  destruct i as [dest type value|op dest type args|op args|label|f]; cbn; [| | |eauto|done].
  - intros (_ & _ & ->). cbn. eauto.
  - intros (_ & _ & _ & _ & Hne & _). destruct (String.eqb_spec op "const"); [done | eauto].
  - intros (_ & _ & Hne). destruct (String.eqb_spec op "const"); [done | eauto].
Qed.

Lemma mapM_Ok_exists {A C} (g : A → result C) (l : list A) :
  Forall (λ a, ∃ c, g a = Ok c) l → ∃ cs, mapM g l = Ok cs.
Proof.
  induction 1 as [|a l [c Hc] _ [cs Hcs]]; [by exists []|].
  exists (c :: cs). cbn. by rewrite Hc, Hcs.
Qed.

Lemma print_prog_wf (p : program) :
  Forall wf_func (functions p) → ∃ lines, print_prog p = Ok lines.
Proof.
  intros Hwf. unfold print_prog.
  destruct (mapM_Ok_exists print_func (functions p)) as [blocks ->]; [|by eexists].
  eapply Forall_impl; [exact Hwf|]. intros f (_ & _ & Hf). unfold print_func.
  destruct (mapM_Ok_exists print_instr_or_label (instrs f)) as [body ->]; [|by eexists].
  eapply Forall_impl; [exact Hf|]. apply print_instr_or_label_wf.
Qed.

(** Printing a well-formed program and parsing the text gives its
    functions back. *)
Lemma print_parse_wf (p : program) :
  Forall wf_func (functions p) →
  ∃ lines, print_prog p = Ok lines ∧
           parse_bril (to_text lines) =
             Ok {| functions := bare <$> functions p; imports := None |}.
Proof.
  intros Hwf. destruct (print_prog_wf p Hwf) as [lines Hlines]. exists lines.
  split; [done|]. unfold parse_bril. rewrite (parse_printed p lines Hwf Hlines).
  cbn [mbind result_bind]. rewrite (transform_start _ Hwf). cbn [mbind result_bind].
  apply check_dups_ok.
Qed.

(** *** What the parser returns *)

Lemma IDENT_sound (s : string) (t : tree) (s' : string) :
  Grammar.IDENT s = Some (t, s') → ∃ w, t = Token "IDENT" w ∧ is_IDENT w = true.
Proof.
  intros (c & w & -> & Hc & Hw & _)%word_sound. exists (String c w).
  split; [done|]. cbn [is_IDENT]. by rewrite Hc, Hw.
Qed.

Lemma CNAME_sound (s : string) (t : tree) (s' : string) :
  Grammar.CNAME s = Some (t, s') →
  ∃ w, t = Token "CNAME" w ∧ is_CNAME w = true ∧
       skip_ignored false s = w +:+ s' ∧ stops CNAME_rest s'.
Proof.
  intros (c & w & -> & Hc & Hw & Hs & Hstop)%word_sound. exists (String c w).
  split; [done|]. cbn [is_CNAME]. by rewrite Hc, Hw.
Qed.

Lemma type_sound (s : string) (t : tree) (s' : string) :
  Grammar.type s = Some (t, s') →
  ∃ w, t = Tree "type" [Token "CNAME" w] ∧ is_CNAME w = true.
Proof.
  intros (t0 & s1 & (w & -> & Hw & _)%CNAME_sound & [= <- <-])%bind_inv. by exists w.
Qed.

Lemma many_IDENT_sound (fuel : nat) (s : string) (l : list tree) (s' : string) :
  Grammar.many fuel Grammar.IDENT s = (l, s') →
  ∃ args, l = Token "IDENT" <$> args ∧ Forall (λ a, is_IDENT a = true) args.
Proof.
  revert s l. induction fuel as [|fuel IH]; intros s l; cbn [Grammar.many].
  - intros [= <- <-]. by exists [].
  - destruct (Grammar.IDENT s) as [[t s1]|] eqn:Ht; [|intros [= <- <-]; by exists []].
    destruct (Grammar.many fuel Grammar.IDENT s1) as [l' r] eqn:Hl. intros [= <- <-].
    apply IDENT_sound in Ht as (a & -> & Ha). apply IH in Hl as (args & -> & Hargs).
    exists (a :: args). split; [done | by constructor].
Qed.

Lemma many_nil {A} (fuel : nat) (p : Grammar.parser A) (s s' : string) :
  Grammar.many fuel p s = ([], s') → s' = s.
Proof.
  destruct fuel as [|fuel]; cbn [Grammar.many]; [by intros [= <-]|].
  destruct (p s) as [[a s1]|]; [|by intros [= <-]].
  by destruct (Grammar.many fuel p s1).
Qed.

Lemma star_inv {A B} (fuel : nat) (p : Grammar.parser A) (k : list A → Grammar.parser B)
    (s : string) (r : B * string) :
  (Grammar.star fuel p ≫= k) s = Some r →
  ∃ l s1, Grammar.many fuel p s = (l, s1) ∧ k l s1 = Some r.
Proof.
  rewrite bind_star. destruct (Grammar.many fuel p s) as [l s1]. eauto.
Qed.

(** The lexical side of [wf_instr]. *)
Definition lex_instr (i : instr) : Prop :=
  match i with
  | IConst dest type value =>
      is_IDENT dest = true ∧ is_CNAME type = true ∧ showable value
  | IValue op dest type args =>
      is_IDENT dest = true ∧ is_CNAME type = true ∧ is_CNAME op = true ∧
      Forall (λ a, is_IDENT a = true) args ∧ (args = [] → const_like op = false)
  | IEffect op args => is_CNAME op = true ∧ Forall (λ a, is_IDENT a = true) args
  | ILabel label => is_IDENT label = true
  | IFunc _ => True
  end.

(** A child of a [func] node that transforms to an instruction dict
    transforms to one with lexically valid parts. *)
Definition child_ok (c : tree) : Prop :=
  ∀ i, JSONTransformer.transform c = Ok (VInstr i) → lex_instr i.

Lemma child_ok_instr (i : instr) : no_nested i → lex_instr i → child_ok (tree_of_instr i).
Proof.
  intros Hi Hlex i' Hi'. rewrite transform_instr in Hi'; [by injection Hi' as <- | done |].
  destruct i; cbn in *; tauto.
Qed.

(** A literal of the text transforms to a value that [str] can show. *)
Definition lit_ok (v : tree) : Prop :=
  ∀ z, JSONTransformer.transform v = Ok (VInt z) → showable (LInt z).

Lemma lit_sound (s : string) (v : tree) (s' : string) :
  Grammar.lit s = Some (v, s') → lit_ok v.
Proof.
  intros [H|[_ H]]%alt_inv.
  - apply bind_inv in H as (t & s1 & Ht & [= <- <-]).
    assert (∃ w, t = Token "SIGNED_INT" w) as [w ->].
    { unfold Grammar.SIGNED_INT in Ht. destruct (skip_ignored false s) as [|c r]; [done|].
      destruct (_ || _)%bool; destruct (span _ _) as [[|? ?] ?];
        try done; injection Ht as <- _; eauto. }
    intros z. cbn. unfold JSONTransformer.call_userfunc. cbn.
    destruct (JSONTransformer.py_int w) as [z'|] eqn:Hw; [|done].
    intros [= <-]. by eapply py_int_showable.
  - apply bind_inv in H as (t & s1 & Ht & [= <- <-]).
    assert (∃ w, t = Token "BOOL" w) as [w ->].
    { unfold Grammar.BOOL in Ht.
      destruct (Grammar.strip_prefix "true" _); [injection Ht as <- _; eauto|].
      destruct (Grammar.strip_prefix "false" _); [injection Ht as <- _; eauto | done]. }
    by intros z.
Qed.

Lemma child_ok_const (dest type : string) (v : tree) :
  is_IDENT dest = true → is_CNAME type = true → lit_ok v →
  child_ok (Tree "const" [Token "IDENT" dest; Tree "type" [Token "CNAME" type]; v]).
Proof.
  intros Hd Ht Hv i. rewrite transform_Tree. cbn [mapM].
  specialize (Hv). unfold lit_ok in Hv.
  destruct (JSONTransformer.transform v) as [val|e]; [|done].
  cbn. unfold JSONTransformer.call_userfunc. cbn.
  destruct val; cbn; try done. all: intros [= <-]; cbn; repeat split; try done.
  by apply Hv.
Qed.

Lemma const_sound (s : string) (t : tree) (s' : string) :
  Grammar.const s = Some (t, s') → child_ok t.
Proof.
  intros (d & s1 & (dest & -> & Hd)%IDENT_sound & H)%bind_inv.
  apply bind_inv in H as ([] & s2 & _ & H).
  apply bind_inv in H as (ty & s3 & (type & -> & Ht)%type_sound & H).
  apply bind_inv in H as ([] & s4 & _ & H).
  apply bind_inv in H as ([] & s5 & _ & H).
  apply bind_inv in H as (v & s6 & Hv%lit_sound & H).
  apply bind_inv in H as ([] & s7 & _ & [= <- <-]).
  by apply child_ok_const.
Qed.

Lemma eop_sound (fuel : nat) (s : string) (t : tree) (s' : string) :
  Grammar.eop fuel s = Some (t, s') → child_ok t.
Proof.
  intros (o & s1 & (op & -> & Ho & _)%CNAME_sound & H)%bind_inv.
  apply star_inv in H as (l & s2 & (args & -> & Hargs)%many_IDENT_sound & H).
  apply bind_inv in H as ([] & s3 & _ & [= <- <-]).
  by apply (child_ok_instr (IEffect op args)).
Qed.

Lemma label_sound (s : string) (t : tree) (s' : string) :
  Grammar.label s = Some (t, s') → child_ok t.
Proof.
  intros (l & s1 & (label & -> & Hl)%IDENT_sound & H)%bind_inv.
  apply bind_inv in H as ([] & s2 & _ & [= <- <-]).
  by apply (child_ok_instr (ILabel label)).
Qed.

(** Where [vop] reads a [const]-like opcode without arguments, [const]
    reads the same text. *)
Lemma const_reads_const_like (op s4 s5 s6 : string) :
  const_like op = true →
  Grammar.CNAME s4 = Some (Token "CNAME" op, s5) →
  Grammar.keyword ";" s5 = Some ((), s6) →
  ∃ v, (Grammar.keyword "const";; v ← Grammar.lit; Grammar.keyword ";";; mret v) s4
       = Some (v, s6).
Proof.
  unfold const_like. intros Hlike (w & [= <-] & Hop & Hskip & Hstop)%CNAME_sound Hsemi.
  destruct (Grammar.strip_prefix "const" op) as [lt|] eqn:Hstrip; [|done].
  apply strip_prefix_sound in Hstrip as ->.
  assert (Grammar.keyword "const" s4 = Some ((), lt +:+ s5)) as Hconst.
  { apply keyword_skip. by rewrite Hskip, string_app_assoc. }
  rewrite (bind_Some _ _ _ _ _ Hconst).
  assert (∃ v, Grammar.lit (lt +:+ s5) = Some (v, s5)) as [v Hlit].
  { apply orb_true_iff in Hlike as [[Hdigits|Htrue%String.eqb_eq]%orb_true_iff|Hfalse%String.eqb_eq].
    - destruct lt as [|c ds]; [done|]. cbn [is_digits] in Hdigits.
      pose proof Hdigits as Hall. rewrite all_chars_cons in Hall.
      apply andb_true_iff in Hall as [Hc Hds].
      eexists. unfold Grammar.lit. apply alt_Some.
      erewrite bind_Some; [done|]. unfold Grammar.SIGNED_INT.
      change (String c ds +:+ s5) with (String c (ds +:+ s5)).
      destruct (IDENT_rest_not_ignored c (CNAME_rest_IDENT_rest c (DIGIT_CNAME_rest c Hc)))
        as [Hws Hhash].
      rewrite skip_head by done.
      assert (((c =? "+") || (c =? "-"))%char = false) as ->
        by (revert Hc; by_cases_on_char c).
      change (String c (ds +:+ s5)) with (String c ds +:+ s5).
      rewrite span_app; [done | done |].
      destruct s5 as [|x s5]; [done|]. cbn in *.
      destruct (DIGIT x) eqn:Hx; [|done]. by rewrite (DIGIT_CNAME_rest x Hx) in Hstop.
    - subst lt. by eexists.
    - subst lt. by eexists. }
  rewrite (bind_Some _ _ _ _ _ Hlit), (bind_Some _ _ _ _ _ Hsemi). by exists v.
Qed.

Lemma vop_sound (fuel : nat) (s : string) (t : tree) (s' : string) :
  Grammar.const s = None → Grammar.vop fuel s = Some (t, s') → child_ok t.
Proof.
  intros Hconst (d & s1 & Hd & H)%bind_inv.
  apply bind_inv in H as ([] & s2 & Hcolon & H).
  apply bind_inv in H as (ty & s3 & Hty & H).
  apply bind_inv in H as ([] & s4 & Heq & H).
  apply bind_inv in H as (o & s5 & Ho & H).
  apply star_inv in H as (l & s6 & Hmany & H).
  apply bind_inv in H as ([] & s7 & Hsemi & [= <- <-]).
  pose proof Hd as (dest & -> & Hdest)%IDENT_sound.
  pose proof Hty as (type & -> & Htype)%type_sound.
  pose proof Ho as (op & -> & Hop & _)%CNAME_sound.
  pose proof Hmany as (args & -> & Hargs)%many_IDENT_sound.
  apply (child_ok_instr (IValue op dest type args)); [done|].
  repeat split; try done. intros ->.
  destruct (const_like op) eqn:Hlike; [exfalso | done].
  apply many_nil in Hmany as ->.
  destruct (const_reads_const_like op s4 s5 s7 Hlike Ho Hsemi) as [v Hv].
  unfold Grammar.const in Hconst.
  rewrite (bind_Some _ _ _ _ _ Hd), (bind_Some _ _ _ _ _ Hcolon),
    (bind_Some _ _ _ _ _ Hty), (bind_Some _ _ _ _ _ Heq) in Hconst.
  apply bind_inv in Hv as ([] & r1 & Hk & Hv).
  rewrite (bind_Some _ _ _ _ _ Hk) in Hconst.
  apply bind_inv in Hv as (v' & r2 & Hl & Hv).
  rewrite (bind_Some _ _ _ _ _ Hl) in Hconst.
  apply bind_inv in Hv as ([] & r3 & Hs & _).
  by rewrite (bind_Some _ _ _ _ _ Hs) in Hconst.
Qed.

Lemma alt_None_inv {A} (p q : Grammar.parser A) (s : string) :
  Grammar.alt p q s = None → p s = None ∧ q s = None.
Proof. unfold Grammar.alt. by destruct (p s). Qed.

Lemma func_shape (n : nat) (s : string) (t : tree) (s' : string) :
  Grammar.func n s = Some (t, s') → ∃ children, t = Tree "func" children.
Proof.
  destruct n as [|n]; [done|]. rewrite func_unfold.
  intros (n_ & s1 & _ & H)%bind_inv. apply star_inv in H as (a & s2 & _ & H).
  apply alt_inv in H as [H|[_ H]].
  - apply bind_inv in H as ([] & s3 & _ & H). apply star_inv in H as (i & s4 & _ & H).
    apply bind_inv in H as ([] & s5 & _ & [= <- <-]). eauto.
  - apply bind_inv in H as ([] & s3 & _ & H). apply bind_inv in H as (ty & s4 & _ & H).
    apply bind_inv in H as ([] & s5 & _ & H). apply star_inv in H as (i & s6 & _ & H).
    apply bind_inv in H as ([] & s7 & _ & [= <- <-]). eauto.
Qed.

(** The [func] callback returns a function dict. *)
Lemma func_returns_VFunc (items : list value) (v : value) :
  JSONTransformer.func items = Ok v → ∃ f, v = VFunc f.
Proof.
  unfold JSONTransformer.func.
  intros ([name items1] & _ & H)%bind_Ok.
  apply bind_Ok in H as ([args items2] & _ & H).
  apply bind_Ok in H as ([ty items3] & _ & H).
  apply bind_Ok in H as (name' & _ & H).
  apply bind_Ok in H as (instrs & _ & [= <-]). eauto.
Qed.

Lemma child_ok_def_func (children : list tree) :
  child_ok (Tree "def_func" [Tree "func" children]).
Proof.
  intros i. rewrite transform_Tree. cbn [mapM]. rewrite transform_Tree.
  destruct (mapM JSONTransformer.transform children) as [items|e]; [|done].
  cbn [mbind result_bind]. unfold JSONTransformer.call_userfunc at 2.
  change (JSONTransformer.callback "func" items) with (JSONTransformer.func items).
  destruct (JSONTransformer.func items) as [v|e] eqn:Hv; [|done].
  apply func_returns_VFunc in Hv as [f ->]. done.
Qed.

Lemma child_ok_arg (children : list tree) : child_ok (Tree "arg" children).
Proof.
  intros i. rewrite transform_Tree.
  destruct (mapM JSONTransformer.transform children) as [items|e]; done.
Qed.

Lemma child_ok_type (w : string) : child_ok (Tree "type" [Token "CNAME" w]).
Proof. by intros i. Qed.

Lemma instr_sound (n fuel : nat) (s : string) (t : tree) (s' : string) :
  Grammar.instr_with (Grammar.func n) fuel s = Some (t, s') → child_ok t.
Proof.
  unfold Grammar.instr_with.
  intros [[[[H|[_ H]]%alt_inv|[Hnone H]]%alt_inv|[_ H]]%alt_inv|[_ H]]%alt_inv.
  - apply bind_inv in H as ([] & s1 & _ & H).
    apply bind_inv in H as (f & s2 & [children ->]%func_shape & [= <- <-]).
    apply child_ok_def_func.
  - by eapply const_sound.
  - apply alt_None_inv in Hnone as [_ Hconst]. by eapply vop_sound.
  - by eapply eop_sound.
  - by eapply label_sound.
Qed.

Lemma many_sound {A} (P : A → Prop) (fuel : nat) (p : Grammar.parser A)
    (s : string) (l : list A) (s' : string) :
  (∀ s a s', p s = Some (a, s') → P a) → Grammar.many fuel p s = (l, s') → Forall P l.
Proof.
  intros Hp. revert s l. induction fuel as [|fuel IH]; intros s l; cbn [Grammar.many].
  - intros [= <- <-]. constructor.
  - destruct (p s) as [[a s1]|] eqn:Ha; [|intros [= <- <-]; constructor].
    destruct (Grammar.many fuel p s1) as [l' r] eqn:Hl. intros [= <- <-].
    constructor; [by eapply Hp | by eapply IH].
Qed.

Lemma arg_sound (s : string) (t : tree) (s' : string) :
  Grammar.arg s = Some (t, s') → child_ok t.
Proof.
  intros [H|[_ H]]%alt_inv.
  - apply bind_inv in H as (i & s1 & _ & [= <- <-]). apply child_ok_arg.
  - apply bind_inv in H as ([] & s1 & _ & H). apply bind_inv in H as (i & s2 & _ & H).
    apply bind_inv in H as ([] & s3 & _ & H). apply bind_inv in H as (ty & s4 & _ & H).
    apply bind_inv in H as ([] & s5 & _ & [= <- <-]). apply child_ok_arg.
Qed.

(** The node of a function: its name and children that are fine. *)
Definition is_func (c : tree) : Prop :=
  ∃ name children,
    c = Tree "func" (Token "CNAME" name :: children) ∧
    is_CNAME name = true ∧ Forall child_ok children.

Definition is_imp (c : tree) : Prop := ∃ m, c = Tree "imp" [Token "CNAME" m].

Lemma func_sound (n : nat) (s : string) (t : tree) (s' : string) :
  Grammar.func n s = Some (t, s') → is_func t.
Proof.
  destruct n as [|n]; [done|]. rewrite func_unfold.
  intros (n_ & s1 & (name & -> & Hname & _)%CNAME_sound & H)%bind_inv.
  apply star_inv in H as (a & s2 & Ha & H).
  apply (many_sound child_ok) in Ha; [|apply arg_sound].
  apply alt_inv in H as [H|[_ H]].
  - apply bind_inv in H as ([] & s3 & _ & H). apply star_inv in H as (i & s4 & Hi & H).
    apply (many_sound child_ok) in Hi; [|apply instr_sound].
    apply bind_inv in H as ([] & s5 & _ & [= <- <-]).
    exists name, (a ++ i). split; [done|]. split; [done|]. by apply Forall_app.
  - apply bind_inv in H as ([] & s3 & _ & H).
    apply bind_inv in H as (ty & s4 & (w & -> & _)%type_sound & H).
    apply bind_inv in H as ([] & s5 & _ & H). apply star_inv in H as (i & s6 & Hi & H).
    apply (many_sound child_ok) in Hi; [|apply instr_sound].
    apply bind_inv in H as ([] & s7 & _ & [= <- <-]).
    exists name, (a ++ Tree "type" [Token "CNAME" w] :: i). split; [done|]. split; [done|].
    apply Forall_app. split; [done|]. constructor; [apply child_ok_type | done].
Qed.

Lemma imp_sound (s : string) (t : tree) (s' : string) :
  Grammar.imp s = Some (t, s') → is_imp t.
Proof.
  intros ([] & s1 & _ & H)%bind_inv.
  apply bind_inv in H as (m & s2 & (w & -> & _)%CNAME_sound & H).
  apply bind_inv in H as ([] & s3 & _ & [= <- <-]). by exists w.
Qed.

Lemma parse_sound (txt : string) (t : tree) :
  Grammar.parse txt = Ok t →
  ∃ imps funcs, t = Tree "start" (imps ++ funcs) ∧ Forall is_imp imps ∧ Forall is_func funcs.
Proof.
  unfold Grammar.parse.
  destruct (Grammar.start _ txt) as [[t' r]|] eqn:Hstart; [|done].
  destruct (skip_ignored false r); [|done]. intros [= <-].
  unfold Grammar.start in Hstart.
  apply star_inv in Hstart as (i & s1 & Hi & H). apply star_inv in H as (f & s2 & Hf & [= <- <-]).
  exists i, f. split; [done|]. split.
  - eapply many_sound; [apply imp_sound | done].
  - eapply many_sound; [apply func_sound | done].
Qed.

(** *** What the transformer makes of it *)

Definition lex_func (f : function) : Prop :=
  is_CNAME (name f) = true ∧ Forall lex_instr (instrs f) ∧
  (func_type f = None → instrs f ≠ []).

Lemma leading_args_suffix (items : list value) (args : list arg) (rest : list value) :
  JSONTransformer.leading_args items = Ok (args, rest) → ∃ pre, items = pre ++ rest.
Proof.
  revert args. induction items as [|v items IH]; intros args; cbn.
  - intros [= <- <-]. by exists [].
  - destruct v; try (intros [= <- <-]; by exists []).
    destruct (String.eqb data "arg"); [|intros [= <- <-]; by exists []].
    intros (a & _ & ([args' rest'] & Hrest & [= <- <-])%bind_Ok)%bind_Ok.
    destruct (IH _ Hrest) as [pre ->]. by exists (VTree data children :: pre).
Qed.

Lemma leading_tokens_suffix (items : list value) (imports : list string) (rest : list value) :
  JSONTransformer.leading_tokens items = (imports, rest) → ∃ pre, items = pre ++ rest.
Proof.
  revert imports. induction items as [|v items IH]; intros imports; cbn.
  - intros [= <- <-]. by exists [].
  - destruct v; try (intros [= <- <-]; by exists []).
    destruct (JSONTransformer.leading_tokens items) as [imports' rest'] eqn:Hrest.
    intros [= <- <-]. destruct (IH _ eq_refl) as [pre ->]. by exists (VToken type_ text :: pre).
Qed.

Lemma Forall2_elem_of_r {A C} (R : A → C → Prop) (l : list A) (k : list C) (y : C) :
  Forall2 R l k → y ∈ k → ∃ x, x ∈ l ∧ R x y.
Proof.
  induction 1 as [|x y' l k Hxy _ IH]; [by intros ?%elem_of_nil|].
  intros [->|Hy]%elem_of_cons.
  - exists x. split; [by left | done].
  - destruct (IH Hy) as (x' & ? & ?). exists x'. split; [by right | done].
Qed.

Lemma transform_func_sound (c : tree) (v : value) :
  is_func c → JSONTransformer.transform c = Ok v → ∃ f, v = VFunc f ∧ lex_func f.
Proof.
  intros (name_ & children & -> & Hname & Hchildren). rewrite transform_Tree. cbn [mapM].
  cbn [JSONTransformer.transform mbind result_bind].
  intros (items0 & (items & Hitems & [= <-])%bind_Ok & Hfunc%call_userfunc_Ok_inv)%bind_Ok.
  change (JSONTransformer.callback "func" ?i) with (JSONTransformer.func i) in Hfunc.
  unfold JSONTransformer.func in Hfunc. cbn [JSONTransformer.pop0 mbind result_bind] in Hfunc.
  apply bind_Ok in Hfunc as ([args items2] & Hargs & Hfunc).
  apply leading_args_suffix in Hargs as [pre ->].
  apply bind_Ok in Hfunc as ([ty items3] & Hty & Hfunc).
  cbn [JSONTransformer.str mbind result_bind] in Hfunc.
  apply bind_Ok in Hfunc as (instrs_ & Hinstrs & [= <-]).
  eexists. split; [done|]. unfold lex_func. cbn [name instrs func_type].
  apply mapM_Ok_Forall2 in Hitems, Hinstrs.
  assert (∀ x, x ∈ items3 → x ∈ pre ++ items2) as Hsub.
  { intros x Hx. apply elem_of_app. right.
    destruct items2 as [|[] items2]; simplify_eq; try done; by constructor. }
  split; [done|]. split.
  - apply Forall_forall. intros i Hi.
    destruct (Forall2_elem_of_r _ _ _ i Hinstrs) as (x & Hx & Hxi); [done|]. cbn in Hxi.
    destruct x; cbn in Hxi; simplify_eq; [|done].
    destruct (Forall2_elem_of_r _ _ _ (VInstr i) Hitems (Hsub _ Hx)) as (c & Hc & Hci).
    eapply Forall_forall in Hchildren; [|exact Hc]. by apply Hchildren.
  - intros ->. destruct items2 as [|[] items2]; simplify_eq.
    all: intros ->; by inversion Hinstrs.
Qed.

Lemma transform_start_sound (imps funcs : list tree) (v : value) :
  Forall is_imp imps → Forall is_func funcs →
  JSONTransformer.transform (Tree "start" (imps ++ funcs)) = Ok v →
  ∃ p, v = VProg p ∧ Forall lex_func (functions p).
Proof.
  intros Himps Hfuncs. rewrite transform_Tree.
  intros (items & Hitems & Hstart%call_userfunc_Ok_inv)%bind_Ok.
  change (JSONTransformer.callback "start" ?i) with (JSONTransformer.start i) in Hstart.
  unfold JSONTransformer.start in Hstart.
  destruct (JSONTransformer.leading_tokens items) as [imports rest] eqn:Hrest.
  apply leading_tokens_suffix in Hrest as [pre ->].
  apply bind_Ok in Hstart as (fs & Hfs & [= <-]).
  eexists. split; [done|]. cbn [functions].
  apply mapM_Ok_Forall2 in Hitems, Hfs. apply Forall_forall. intros f Hf.
  destruct (Forall2_elem_of_r _ _ _ f Hfs) as (x & Hx & Hxf); [done|].
  cbn in Hxf. destruct x; cbn in Hxf; simplify_eq.
  destruct (Forall2_elem_of_r _ _ _ (VFunc f) Hitems) as (c & Hc & Hcf);
    [apply elem_of_app; by right|].
  apply elem_of_app in Hc as [Hc|Hc].
  - eapply Forall_forall in Himps; [|exact Hc]. by destruct Himps as [m ->].
  - eapply Forall_forall in Hfuncs; [|exact Hc].
    destruct (transform_func_sound c _ Hfuncs Hcf) as (f' & [= <-] & Hlex). done.
Qed.

Lemma parse_bril_sound (txt : string) (p : program) :
  parse_bril txt = Ok p → Forall lex_func (functions p).
Proof.
  unfold parse_bril. intros (t & Ht & (v & Hv & Hp)%bind_Ok)%bind_Ok.
  apply parse_sound in Ht as (imps & funcs & -> & Himps & Hfuncs).
  apply transform_start_sound in Hv as (p' & -> & Hlex); [|done..].
  rewrite check_dups_ok in Hp. by injection Hp as <-.
Qed.

(** *** The round trip *)

Lemma lex_func_wf (f : function) :
  lex_func f → plain_header f → Forall printable (instrs f) → wf_func f.
Proof.
  intros (Hname & Hlex & Hne) [_ Hty] Hprint. split; [done|]. split; [by apply Hne|].
  apply Forall_forall. intros i Hi.
  eapply Forall_forall in Hlex, Hprint; [|exact Hi..].
  destruct i; cbn in *; naive_solver.
Qed.

Lemma bare_plain (f : function) : plain_header f → bare f = f.
Proof. destruct f as [n i a t]. unfold plain_header, bare. cbn. by intros [-> ->]. Qed.

Lemma fmap_bare (fs : list function) : Forall plain_header fs → bare <$> fs = fs.
Proof.
  induction 1 as [|f l Hf _ IH]; [done|]. cbn [fmap list_fmap].
  rewrite (bare_plain f Hf). f_equal. exact IH.
Qed.

(** C6 as stated fails: a value operation may be spelled with the opcode
    [const] (here with a variable where [const] wants a literal), and the
    printer then looks for the key ['value'] and raises. *)
Lemma const_opcode_breaks_round_trip :
  parse_bril "main { x: int = const y; }" =
    Ok {| functions := [Function "main" [IValue "const" "x" "int" ["y"]] None None];
          imports := None |} ∧
  print_prog {| functions := [Function "main" [IValue "const" "x" "int" ["y"]] None None];
                imports := None |} = Raise (KeyError "value") ∧
  ¬ spec_round_trip "main { x: int = const y; }".
Proof.
  split; [by vm_compute|]. split; [by vm_compute|]. intros H.
  destruct (H _ eq_refl) as (lines & p' & Hprint & _).
  - repeat constructor.
  - by vm_compute in Hprint.
Qed.

(** C6, amended.  For a program the transformer produced from a text,
    whose function headers carry neither arguments nor a return type and
    whose bodies hold no nested function and no value or effect operation
    with the opcode [const]: printing succeeds, and parsing the printed
    text gives a program with the same functions, hence the same names
    and the same instruction lists. *)
Theorem print_parse_round_trip (txt : string) (p : program) :
  parse_bril txt = Ok p →
  Forall (λ f, plain_header f ∧ Forall printable (instrs f)) (functions p) →
  ∃ lines p', print_prog p = Ok lines ∧ parse_bril (to_text lines) = Ok p' ∧
              functions p' = functions p ∧
              name <$> functions p' = name <$> functions p ∧
              instrs <$> functions p' = instrs <$> functions p.
Proof.
  intros Hparse Hp. apply parse_bril_sound in Hparse as Hlex.
  assert (Forall wf_func (functions p)) as Hwf.
  { apply Forall_forall. intros f Hf.
    eapply Forall_forall in Hlex, Hp; [|exact Hf..]. destruct Hp. by apply lex_func_wf. }
  destruct (print_parse_wf p Hwf) as (lines & Hprint & Hagain).
  assert (bare <$> functions p = functions p) as Hbare.
  { apply fmap_bare. eapply Forall_impl; [exact Hp|]. by intros f [Hf _]. }
  rewrite Hbare in Hagain.
  exists lines, {| functions := functions p; imports := None |}. by repeat split.
Qed.

(** A text with comments, signs, labels and two functions. *)
Lemma print_parse_round_trip_witness :
  parse_bril round_trip_example = Ok round_trip_program ∧
  Forall (λ f, plain_header f ∧ Forall printable (instrs f)) (functions round_trip_program) ∧
  ∃ lines p',
    print_prog round_trip_program = Ok lines ∧ parse_bril (to_text lines) = Ok p' ∧
    functions p' = functions round_trip_program ∧
    name <$> functions p' = name <$> functions round_trip_program ∧
    instrs <$> functions p' = instrs <$> functions round_trip_program.
Proof.
  assert (parse_bril round_trip_example = Ok round_trip_program) as Hparse
    by (by vm_compute).
  assert (Forall (λ f, plain_header f ∧ Forall printable (instrs f))
                 (functions round_trip_program)) as Hplain
    by (repeat constructor; done).
  split; [done|]. split; [done|].
  exact (print_parse_round_trip round_trip_example round_trip_program Hparse Hplain).
Defined.

End Roundtrip.

(** * What [parse_bril] can return and raise *)

Module Parsing.
Import Lexical Roundtrip.

(** ** The items the callbacks receive *)

(** The transformed child of an [arg] node: lark has no callback for it
    and rebuilds the tree. *)
Definition arg_value (a : arg) : value :=
  VTree "arg" (VToken "IDENT" (arg_name a) :: option_list (VStr <$> arg_type a)).

(** The transformed child for an element of a function body. *)
Definition instr_value (i : instr) : value :=
  match i with
  | IFunc f => VFunc f
  | _ => VInstr i
  end.

(** The header of a function dict as the grammar allows it: the key
    ['args'] holds at least one argument, argument names are [IDENT]s,
    argument types and the return type are [CNAME]s. *)
Definition lex_arg (a : arg) : Prop :=
  is_IDENT (arg_name a) = true ∧ ∀ t, arg_type a = Some t → is_CNAME t = true.

Definition lex_header (f : function) : Prop :=
  func_args f ≠ Some [] ∧
  Forall lex_arg (default [] (func_args f)) ∧
  ∀ t, func_type f = Some t → is_CNAME t = true.

Definition is_body (v : value) : Prop := ∃ i, v = instr_value i.
Definition is_argv (v : value) : Prop := ∃ a, v = arg_value a ∧ lex_arg a.
Definition is_funcv (v : value) : Prop := ∃ f, v = VFunc f ∧ lex_header f.

(** What leaves the transformer when a callback fails on a tree of the
    grammar: lark's VisitError around the IndexError of [func] or the
    ValueError of [int]. *)
Definition callback_error (e : exn) : Prop :=
  e = VisitError IndexError ∨ e = VisitError ValueError.

(** A tree whose transformation gives a value in [P] or raises a
    [callback_error]. *)
Definition yields (P : value → Prop) (t : tree) : Prop :=
  match JSONTransformer.transform t with
  | Ok v => P v
  | Raise e => callback_error e
  end.

Lemma arg_dict_arg_value (a : arg) :
  ∃ children, arg_value a = VTree "arg" children ∧ JSONTransformer.arg_dict children = Ok a.
Proof. destruct a as [n [t|]]; eexists; split; done. Qed.

Lemma leading_args_arg_values (args : list arg) (rest : list value) :
  match rest with VTree _ _ :: _ => False | _ => True end →
  JSONTransformer.leading_args ((arg_value <$> args) ++ rest) = Ok (args, rest).
Proof.
  intros Hrest. induction args as [|a args IH].
  - destruct rest as [|[] rest]; done.
  - destruct (arg_dict_arg_value a) as (children & Ha & Hdict).
    cbn [fmap list_fmap app]. fold (fmap arg_value args). rewrite Ha.
    cbn [JSONTransformer.leading_args]. rewrite IH.
    change (String.eqb "arg" "arg") with true. cbn iota. by rewrite Hdict.
Qed.

Lemma mapM_as_instr_instr_value (body : list instr) :
  mapM JSONTransformer.as_instr (instr_value <$> body) = Ok body.
Proof.
  induction body as [|i body IH]; [done|]. cbn [fmap list_fmap mapM].
  fold (fmap instr_value body). rewrite IH. by destruct i.
Qed.

Lemma option_list_fmap_head {A} (g : A → value) (o : option A) (l : list value) :
  (∀ a, match g a with VTree _ _ => False | _ => True end) →
  match l with VTree _ _ :: _ => False | _ => True end →
  match option_list (g <$> o) ++ l with VTree _ _ :: _ => False | _ => True end.
Proof. intros Hg Hl. destruct o as [a|]; [apply Hg | done]. Qed.

Lemma instr_values_head (body : list instr) :
  match instr_value <$> body with VTree _ _ :: _ => False | _ => True end.
Proof. by destruct body as [|[] ?]. Qed.

(** [func] on the items of a function node. *)
Lemma func_items
    (type_ n : string) (args : list arg) (t : option string) (body : list instr) :
  JSONTransformer.func
    (VToken type_ n :: (arg_value <$> args) ++ option_list (VStr <$> t) ++ (instr_value <$> body))
  = match t, body with
    | None, [] => Raise IndexError
    | _, _ => Ok (VFunc (Function n body
                           (match args with [] => None | _ => Some args end) t))
    end.
Proof.
  unfold JSONTransformer.func. cbn [JSONTransformer.pop0 mbind result_bind].
  rewrite leading_args_arg_values.
  2:{ apply (option_list_fmap_head VStr); [done | apply instr_values_head]. }
  cbn [mbind result_bind]. destruct t as [t|]; simpl option_list; simpl app.
  - cbn [JSONTransformer.str mbind result_bind]. by rewrite mapM_as_instr_instr_value.
  - destruct body as [|i body]; [done|].
    pose proof (mapM_as_instr_instr_value (i :: body)) as Hbody.
    destruct i; cbn in Hbody |- *; by rewrite Hbody.
Qed.

(** ** The trees of the grammar, transformed *)

Lemma yields_Ok (P : value → Prop) (t : tree) (v : value) :
  JSONTransformer.transform t = Ok v → P v → yields P t.
Proof. unfold yields. by intros ->. Qed.

Lemma mapM_app {A C} (g : A → result C) (l1 l2 : list A) :
  mapM g (l1 ++ l2) = r1 ← mapM g l1; r2 ← mapM g l2; Ok (r1 ++ r2).
Proof.
  induction l1 as [|a l1 IH]; cbn.
  - by destruct (mapM g l2).
  - destruct (g a) as [c|e]; [|done]. cbn. rewrite IH.
    destruct (mapM g l1) as [r1|e]; [|done]. cbn. by destruct (mapM g l2).
Qed.

Lemma mapM_transform_yields (P : value → Prop) (l : list tree) :
  Forall (yields P) l →
  match mapM JSONTransformer.transform l with
  | Ok vs => Forall P vs
  | Raise e => callback_error e
  end.
Proof.
  induction 1 as [|t l Ht _ IH]; [by constructor|]. cbn. unfold yields in Ht.
  destruct (JSONTransformer.transform t) as [v|e]; [|done]. cbn.
  destruct (mapM JSONTransformer.transform l) as [vs|e]; [|done]. cbn. by constructor.
Qed.

Lemma Forall_is_argv (vs : list value) :
  Forall is_argv vs → ∃ args, vs = arg_value <$> args ∧ Forall lex_arg args.
Proof.
  induction 1 as [|v vs (a & -> & Ha) _ (args & -> & Hargs)]; [by exists []|].
  exists (a :: args). split; [done | by constructor].
Qed.

Lemma Forall_is_body (vs : list value) :
  Forall is_body vs → ∃ body, vs = instr_value <$> body.
Proof.
  induction 1 as [|v vs [i ->] _ [body ->]]; [by exists []|]. by exists (i :: body).
Qed.

Lemma Forall_is_funcv (vs : list value) :
  Forall is_funcv vs → ∃ fs, vs = VFunc <$> fs ∧ Forall lex_header fs.
Proof.
  induction 1 as [|v vs (f & -> & Hf) _ (fs & -> & Hfs)]; [by exists []|].
  exists (f :: fs). split; [done | by constructor].
Qed.

Lemma arg_yields (s : string) (t : tree) (s' : string) :
  Grammar.arg s = Some (t, s') → yields is_argv t.
Proof.
  intros [H|[_ H]]%alt_inv.
  - apply bind_inv in H as (i & s1 & (w & -> & Hw)%IDENT_sound & [= <- <-]).
    eapply yields_Ok; [done|]. by exists (Arg w None).
  - apply bind_inv in H as ([] & s1 & _ & H).
    apply bind_inv in H as (i & s2 & (w & -> & Hw)%IDENT_sound & H).
    apply bind_inv in H as ([] & s3 & _ & H).
    apply bind_inv in H as (ty & s4 & (w' & -> & Hw')%type_sound & H).
    apply bind_inv in H as ([] & s5 & _ & [= <- <-]).
    eapply yields_Ok; [done|]. exists (Arg w (Some w')).
    split; [done|]. split; [done|]. by intros t [= <-].
Qed.

(** *** Literals *)

Lemma uint_of_string_digits (ds : string) :
  all_chars DIGIT ds = true → is_Some (NilEmpty.uint_of_string ds).
Proof.
  induction ds as [|c ds IH]; [by eexists|]. rewrite all_chars_cons.
  intros [Hc [d Hd]%IH]%andb_true_iff. cbn. rewrite Hd.
  revert Hc. destruct c as [[] [] [] [] [] [] [] []]; vm_compute; intros; try done; by eexists.
Qed.

(** [int()] accepts the text of a [SIGNED_INT] token unless it has too
    many digits. *)
Lemma py_int_SIGNED_INT (sign ds : string) :
  sign = "" ∨ sign = "+" ∨ sign = "-" → ds ≠ "" → all_chars DIGIT ds = true →
  if too_long ds then JSONTransformer.py_int (sign +:+ ds) = None
  else is_Some (JSONTransformer.py_int (sign +:+ ds)).
Proof.
  intros Hsign Hne Hds. destruct (uint_of_string_digits ds Hds) as [d Hd].
  destruct ds as [|c ds]; [done|]. rewrite all_chars_cons in Hds.
  apply andb_true_iff in Hds as [Hc _].
  assert ((c =? "+")%char = false ∧ (c =? "-")%char = false) as [Hplus Hminus].
  { revert Hc. destruct c as [[] [] [] [] [] [] [] []]; by vm_compute. }
  assert (unsigned (sign +:+ String c ds) = String c ds) as Hdigits.
  { destruct Hsign as [-> | [-> | ->]]; [|done..]. cbn. by rewrite Hplus, Hminus. }
  unfold JSONTransformer.py_int. rewrite Hdigits.
  destruct (too_long (String c ds)); [done|].
  unfold NilZero.int_of_string, NilZero.uint_of_string.
  destruct Hsign as [-> | [-> | ->]]; simpl.
  - rewrite Hplus, Hminus. cbn in Hd |- *. rewrite Hd. by eexists.
  - cbn in Hd |- *. rewrite Hd. by eexists.
  - cbn in Hd |- *. rewrite Hd. by eexists.
Qed.

Lemma SIGNED_INT_sound (s : string) (t : tree) (s' : string) :
  Grammar.SIGNED_INT s = Some (t, s') →
  ∃ sign ds, t = Token "SIGNED_INT" (sign +:+ ds) ∧
             (sign = "" ∨ sign = "+" ∨ sign = "-") ∧ ds ≠ "" ∧ all_chars DIGIT ds = true.
Proof.
  unfold Grammar.SIGNED_INT.
  destruct (match skip_ignored false s with
            | String c r => if ((c =? "+") || (c =? "-"))%char
                            then (String c "", r) else ("", skip_ignored false s)
            | "" => ("", skip_ignored false s)
            end) as [sign s1] eqn:Hsign.
  destruct (span DIGIT s1) as [ds r] eqn:Hspan.
  apply span_sound in Hspan as (_ & Hds & _).
  destruct ds as [|d ds]; [done|]. intros [= <- <-]. exists sign, (String d ds).
  split; [done|]. split; [|done].
  destruct (skip_ignored false s) as [|c r0]; [injection Hsign as <- _; auto|].
  destruct (Ascii.eqb_spec c "+") as [->|_]; [injection Hsign as <- _; auto|].
  destruct (Ascii.eqb_spec c "-") as [->|_]; injection Hsign as <- _; auto.
Qed.

Definition is_lit (v : value) : Prop := (∃ z, v = VInt z) ∨ (∃ b, v = VBool b).

(** A literal becomes its value, or [int] raises ValueError, and that
    exactly when the number has too many digits. *)
Lemma lit_yields (s : string) (t : tree) (s' : string) :
  Grammar.lit s = Some (t, s') →
  (∃ v, JSONTransformer.transform t = Ok v ∧ is_lit v) ∨
  (JSONTransformer.transform t = Raise (VisitError ValueError) ∧
   ∃ w, t = Tree "int" [Token "SIGNED_INT" w] ∧ too_long (unsigned w) = true).
Proof.
  intros [H|[_ H]]%alt_inv.
  - apply bind_inv in H as (tok & s1 & (sign & ds & -> & Hsign & Hne & Hds)%SIGNED_INT_sound
                            & [= <- <-]).
    pose proof (py_int_SIGNED_INT sign ds Hsign Hne Hds) as Hz.
    assert (unsigned (sign +:+ ds) = ds) as Hdigits.
    { destruct ds as [|c ds]; [done|]. rewrite all_chars_cons in Hds.
      apply andb_true_iff in Hds as [Hc _].
      destruct Hsign as [-> | [-> | ->]]; [|done..]. cbn.
      assert ((c =? "+")%char = false ∧ (c =? "-")%char = false) as [-> ->]; [|done].
      revert Hc. destruct c as [[] [] [] [] [] [] [] []]; by vm_compute. }
    cbn. unfold JSONTransformer.call_userfunc. cbn.
    destruct (too_long ds) eqn:Hlong.
    + right. rewrite Hz. split; [done|]. eexists. split; [done|]. by rewrite Hdigits.
    + destruct Hz as [z Hz]. left. rewrite Hz. exists (VInt z). split; [done|]. left. by exists z.
  - apply bind_inv in H as (tok & s1 & Htok & [= <- <-]). left.
    unfold Grammar.BOOL in Htok.
    destruct (Grammar.strip_prefix "true" _).
    + injection Htok as <- _. exists (VBool true). split; [done | right; by eexists].
    + destruct (Grammar.strip_prefix "false" _); [|done].
      injection Htok as <- _. exists (VBool false). split; [done | right; by eexists].
Qed.

(** *** Instructions *)

Lemma const_yields (s : string) (t : tree) (s' : string) :
  Grammar.const s = Some (t, s') → yields is_body t.
Proof.
  intros (d & s1 & (dest & -> & _)%IDENT_sound & H)%bind_inv.
  apply bind_inv in H as ([] & s2 & _ & H).
  apply bind_inv in H as (ty & s3 & (type & -> & _)%type_sound & H).
  apply bind_inv in H as ([] & s4 & _ & H).
  apply bind_inv in H as ([] & s5 & _ & H).
  apply bind_inv in H as (v & s6 & [(lv & Hv & Hlit)|[Hv _]]%lit_yields & H).
  all: apply bind_inv in H as ([] & s7 & _ & [= <- <-]).
  all: unfold yields; rewrite transform_Tree; cbn [mapM]; rewrite Hv.
  - destruct Hlit as [[z ->]|[b ->]]; cbn.
    + by exists (IConst dest type (LInt z)).
    + by exists (IConst dest type (LBool b)).
  - by right.
Qed.

Lemma tree_of_instr_yields (i : instr) :
  no_nested i → const_showable i → yields is_body (tree_of_instr i).
Proof.
  intros Hi Hv. eapply yields_Ok; [by apply transform_instr|]. exists i. by destruct i.
Qed.

Lemma vop_yields (fuel : nat) (s : string) (t : tree) (s' : string) :
  Grammar.vop fuel s = Some (t, s') → yields is_body t.
Proof.
  intros (d & s1 & (dest & -> & _)%IDENT_sound & H)%bind_inv.
  apply bind_inv in H as ([] & s2 & _ & H).
  apply bind_inv in H as (ty & s3 & (type & -> & _)%type_sound & H).
  apply bind_inv in H as ([] & s4 & _ & H).
  apply bind_inv in H as (o & s5 & (op & -> & _)%CNAME_sound & H).
  apply star_inv in H as (l & s6 & (args & -> & _)%many_IDENT_sound & H).
  apply bind_inv in H as ([] & s7 & _ & [= <- <-]).
  by apply (tree_of_instr_yields (IValue op dest type args)).
Qed.

Lemma eop_yields (fuel : nat) (s : string) (t : tree) (s' : string) :
  Grammar.eop fuel s = Some (t, s') → yields is_body t.
Proof.
  intros (o & s1 & (op & -> & _)%CNAME_sound & H)%bind_inv.
  apply star_inv in H as (l & s2 & (args & -> & _)%many_IDENT_sound & H).
  apply bind_inv in H as ([] & s3 & _ & [= <- <-]).
  by apply (tree_of_instr_yields (IEffect op args)).
Qed.

Lemma label_yields (s : string) (t : tree) (s' : string) :
  Grammar.label s = Some (t, s') → yields is_body t.
Proof.
  intros (l & s1 & (label & -> & _)%IDENT_sound & H)%bind_inv.
  apply bind_inv in H as ([] & s2 & _ & [= <- <-]).
  by apply (tree_of_instr_yields (ILabel label)).
Qed.

(** *** Functions *)

Lemma func_node_yields (name_ : string) (a : list tree) (ty : option string) (i : list tree) :
  Forall (yields is_argv) a → Forall (yields is_body) i →
  (∀ w, ty = Some w → is_CNAME w = true) →
  yields is_funcv
    (Tree "func" (Token "CNAME" name_ ::
                  a ++ option_list ((λ w, Tree "type" [Token "CNAME" w]) <$> ty) ++ i)).
Proof.
  intros Ha Hi Hty. unfold yields. rewrite transform_Tree. cbn [mapM JSONTransformer.transform].
  cbn [mbind result_bind]. rewrite !mapM_app.
  pose proof (mapM_transform_yields _ _ Ha) as Hargs.
  pose proof (mapM_transform_yields _ _ Hi) as Hbody.
  destruct (mapM JSONTransformer.transform a) as [avs|e]; [|done].
  cbn [mbind result_bind].
  assert (mapM JSONTransformer.transform
            (option_list ((λ w, Tree "type" [Token "CNAME" w]) <$> ty)) =
          Ok (option_list (VStr <$> ty))) as -> by (by destruct ty).
  cbn [mbind result_bind].
  destruct (mapM JSONTransformer.transform i) as [bvs|e]; [|done].
  cbn [mbind result_bind].
  apply Forall_is_argv in Hargs as (args & -> & Hlex).
  apply Forall_is_body in Hbody as [body ->].
  unfold JSONTransformer.call_userfunc.
  change (JSONTransformer.callback "func" ?items) with (JSONTransformer.func items).
  rewrite func_items.
  destruct ty as [w|], body as [|x body]; try done; try (by left).
  all: eexists; split; [done|]; split; [by destruct args|]; cbn [func_args func_type].
  all: split; [by destruct args | done].
Qed.

Lemma def_func_node_yields (f : tree) :
  yields is_funcv f → yields is_body (Tree "def_func" [f]).
Proof.
  unfold yields. rewrite transform_Tree. cbn [mapM].
  destruct (JSONTransformer.transform f) as [v|e]; [|done].
  intros (g & -> & _). cbn. by exists (IFunc g).
Qed.

Lemma instr_yields (func : Grammar.parser tree) (fuel : nat) (s : string) (t : tree) (s' : string) :
  (∀ s t s', func s = Some (t, s') → yields is_funcv t) →
  Grammar.instr_with func fuel s = Some (t, s') → yields is_body t.
Proof.
  intros Hfunc. unfold Grammar.instr_with.
  intros [[[[H|[_ H]]%alt_inv|[_ H]]%alt_inv|[_ H]]%alt_inv|[_ H]]%alt_inv.
  - apply bind_inv in H as ([] & s1 & _ & H).
    apply bind_inv in H as (f & s2 & Hf%Hfunc & [= <- <-]).
    by apply def_func_node_yields.
  - by eapply const_yields.
  - by eapply vop_yields.
  - by eapply eop_yields.
  - by eapply label_yields.
Qed.

Lemma func_yields (n : nat) (s : string) (t : tree) (s' : string) :
  Grammar.func n s = Some (t, s') → yields is_funcv t.
Proof.
  revert s t s'. induction n as [|n IH]; intros s t s'; [done|]. rewrite func_unfold.
  intros (n_ & s1 & (name_ & -> & _)%CNAME_sound & H)%bind_inv.
  apply star_inv in H as (a & s2 & Ha & H).
  apply (many_sound (yields is_argv)) in Ha; [|apply arg_yields].
  apply alt_inv in H as [H|[_ H]].
  - apply bind_inv in H as ([] & s3 & _ & H). apply star_inv in H as (i & s4 & Hi & H).
    apply (many_sound (yields is_body)) in Hi; [|intros ? ? ?; by apply instr_yields].
    apply bind_inv in H as ([] & s5 & _ & [= <- <-]).
    by apply (func_node_yields name_ a None i).
  - apply bind_inv in H as ([] & s3 & _ & H).
    apply bind_inv in H as (ty & s4 & (w & -> & Hw)%type_sound & H).
    apply bind_inv in H as ([] & s5 & _ & H). apply star_inv in H as (i & s6 & Hi & H).
    apply (many_sound (yields is_body)) in Hi; [|intros ? ? ?; by apply instr_yields].
    apply bind_inv in H as ([] & s7 & _ & [= <- <-]).
    apply (func_node_yields name_ a (Some w) i); [done..|]. by intros ? [= <-].
Qed.

(** *** The program *)

Lemma leading_tokens_imports (ms : list string) (fs : list function) :
  JSONTransformer.leading_tokens ((VToken "CNAME" <$> ms) ++ (VFunc <$> fs)) =
    (ms, VFunc <$> fs).
Proof.
  induction ms as [|m ms IH]; [by destruct fs|]. cbn. by rewrite IH.
Qed.

Lemma start_callback_items (ms : list string) (fs : list function) :
  JSONTransformer.start ((VToken "CNAME" <$> ms) ++ (VFunc <$> fs)) =
    Ok (VProg {| functions := fs;
                 imports := match ms with [] => None | _ => Some ms end |}).
Proof.
  unfold JSONTransformer.start. rewrite leading_tokens_imports.
  by rewrite (mapM_fmap_Ok JSONTransformer.as_function VFunc).
Qed.

Definition is_import (c : tree) : Prop :=
  ∃ m, c = Tree "imp" [Token "CNAME" m] ∧ is_CNAME m = true.

Lemma imp_import (s : string) (t : tree) (s' : string) :
  Grammar.imp s = Some (t, s') → is_import t.
Proof.
  intros ([] & s1 & _ & H)%bind_inv.
  apply bind_inv in H as (m & s2 & (w & -> & Hw & _)%CNAME_sound & H).
  apply bind_inv in H as ([] & s3 & _ & [= <- <-]). by exists w.
Qed.

Lemma imps_transform (imps : list tree) :
  Forall is_import imps →
  ∃ ms, mapM JSONTransformer.transform imps = Ok (VToken "CNAME" <$> ms) ∧
        Forall (λ m, is_CNAME m = true) ms.
Proof.
  induction 1 as [|t l (m & -> & Hm) _ (ms & Hms & Hall)]; [by exists []|].
  exists (m :: ms). cbn [mapM]. rewrite Hms. split; [done | by constructor].
Qed.

(** The headers of a transformed program: the key ['imports'] holds at
    least one module name, the module names are [CNAME]s. *)
Definition lex_headers (p : program) : Prop :=
  imports p ≠ Some [] ∧
  Forall (λ m, is_CNAME m = true) (default [] (imports p)) ∧
  Forall lex_header (functions p).

Lemma transform_parsed (txt : string) (t : tree) :
  Grammar.parse txt = Ok t →
  match JSONTransformer.transform t with
  | Ok v => ∃ p, v = VProg p ∧ lex_headers p
  | Raise e => callback_error e
  end.
Proof.
  unfold Grammar.parse.
  destruct (Grammar.start _ txt) as [[t' r]|] eqn:Hstart; [|done].
  destruct (skip_ignored false r); [|done]. intros [= <-].
  unfold Grammar.start in Hstart.
  apply star_inv in Hstart as (i & s1 & Hi & H). apply star_inv in H as (f & s2 & Hf & [= <- <-]).
  apply (many_sound is_import) in Hi; [|apply imp_import].
  apply (many_sound (yields is_funcv)) in Hf; [|apply func_yields].
  rewrite transform_Tree, mapM_app.
  destruct (imps_transform i Hi) as (ms & -> & Hms). cbn [mbind result_bind].
  pose proof (mapM_transform_yields _ _ Hf) as Hfs.
  destruct (mapM JSONTransformer.transform f) as [vs|e]; [|done].
  apply Forall_is_funcv in Hfs as (fs & -> & Hfs). cbn [mbind result_bind].
  unfold JSONTransformer.call_userfunc.
  change (JSONTransformer.callback "start" ?items) with (JSONTransformer.start items).
  rewrite start_callback_items. eexists. split; [done|].
  split; [by destruct ms|]. split; [by destruct ms | done].
Qed.

(** ** [parse_bril] *)

Lemma parse_bril_Raise (txt : string) (e : exn) :
  parse_bril txt = Raise e →
  (e = UnexpectedInput ∧ Grammar.parse txt = Raise UnexpectedInput) ∨
  (callback_error e ∧ ∃ t, Grammar.parse txt = Ok t ∧
                           JSONTransformer.transform t = Raise e).
Proof.
  unfold parse_bril. destruct (Grammar.parse txt) as [t|e'] eqn:Hparse.
  - pose proof (transform_parsed txt t Hparse) as Ht. cbn [mbind result_bind].
    destruct (JSONTransformer.transform t) as [v|e'] eqn:Hv.
    + destruct Ht as (p & -> & _). cbn [mbind result_bind]. by rewrite check_dups_ok.
    + intros [= <-]. right. eauto.
  - cbn [mbind result_bind]. intros [= ->]. left.
    assert (e = UnexpectedInput) as ->; [|done].
    unfold Grammar.parse in Hparse. repeat case_match; congruence.
Qed.

Lemma parse_bril_lex_headers (txt : string) (p : program) :
  parse_bril txt = Ok p → lex_headers p.
Proof.
  unfold parse_bril. destruct (Grammar.parse txt) as [t|e'] eqn:Hparse; [|done].
  pose proof (transform_parsed txt t Hparse) as Ht. cbn [mbind result_bind].
  destruct (JSONTransformer.transform t) as [v|e']; [|done].
  destruct Ht as (p' & -> & Hp'). cbn [mbind result_bind]. rewrite check_dups_ok.
  by intros [= <-].
Qed.

(** X5.  [func] on the items of a function node: the name, the
    arguments, the return type if there is one, and the body.  With
    neither a return type nor an instruction, [items[0]] raises
    IndexError, whatever the name and the arguments; in every other case
    the function dict comes back, with the key ['args'] only when there is
    an argument and the key ['type'] only when there is a return type. *)
Theorem func_callback_items
    (type_ n : string) (args : list arg) (t : option string) (body : list instr) :
  JSONTransformer.func
    (VToken type_ n :: (arg_value <$> args) ++ option_list (VStr <$> t) ++ (instr_value <$> body))
  = match t, body with
    | None, [] => Raise IndexError
    | _, _ => Ok (VFunc (Function n body
                           (match args with [] => None | _ => Some args end) t))
    end.
Proof. apply func_items. Qed.


(** X2.  Where the grammar leaves a key out, it is absent from the
    result and not an empty list: a program without [import] has no
    ['imports'] key, a function without arguments has no ['args'] key.
    Module names, argument types and return types are [CNAME]s, argument
    names are [IDENT]s. *)
Theorem parse_bril_headers (txt : string) (p : program) :
  parse_bril txt = Ok p →
  imports p ≠ Some [] ∧
  Forall (λ m, is_CNAME m = true) (default [] (imports p)) ∧
  Forall (λ f, func_args f ≠ Some [] ∧
               Forall lex_arg (default [] (func_args f)) ∧
               ∀ t, func_type f = Some t → is_CNAME t = true)
         (functions p).
Proof. apply parse_bril_lex_headers. Qed.

(** X3.  In the bodies of the functions [parse_bril] returns, every
    destination, argument and label is an [IDENT], every opcode and type a
    [CNAME], and every constant is one that [str] shows; function names
    are [CNAME]s, and a function without a return type has at least one
    instruction. *)
Theorem parse_bril_bodies (txt : string) (p : program) :
  parse_bril txt = Ok p →
  Forall (λ f, is_CNAME (name f) = true ∧ Forall lex_instr (instrs f) ∧
               (func_type f = None → instrs f ≠ []))
         (functions p).
Proof. apply parse_bril_sound. Qed.

(** X4.  A text that holds nothing but white space and comments is the
    program without functions and without the key ['imports']. *)
Theorem parse_bril_blank (txt : string) :
  skip_ignored false txt = "" →
  parse_bril txt = Ok {| functions := []; imports := None |}.
Proof.
  intros Hblank.
  assert (Grammar.imp txt = None) as Himp.
  { unfold Grammar.imp. apply bind_None. unfold Grammar.keyword. by rewrite Hblank. }
  assert (∀ n, Grammar.func n txt = None) as Hfunc.
  { intros [|n]; [done|]. rewrite func_unfold. apply bind_None.
    unfold Grammar.CNAME, Grammar.word. by rewrite Hblank. }
  unfold parse_bril, Grammar.parse, Grammar.start. rewrite bind_star.
  cbn [Grammar.many]. rewrite Himp. cbn [fst snd]. rewrite bind_star.
  cbn [Grammar.many]. rewrite Hfunc. cbn [fst snd mret Grammar.parser_ret].
  by rewrite Hblank.
Qed.

(** ** Constants and the priority of [const] *)

(** After the opcode, [vop] reads arguments and a semicolon; a number is
    neither. *)
Lemma vop_tail_number {B} (fuel : nat) (z : Z) (T : string) (k : list tree → Grammar.parser B) :
  (a ← Grammar.star fuel Grammar.IDENT; Grammar.keyword ";";; k a)
    (String " " (literal_text (LInt z) +:+ String ";" T)) = None.
Proof.
  destruct (literal_text_LInt z) as (sign & c & ds & -> & Hsign & Hc & _).
  assert (∃ x r, (sign +:+ String c ds) +:+ String ";" T = String x r ∧
                 IDENT_start x = false ∧ WS x = false ∧ (x =? "#")%char = false ∧ x ≠ ";"%char)
    as (x & r & -> & Hx & Hws & Hhash & Hsemi).
  { destruct Hsign as [-> | ->].
    - exists c, (ds +:+ String ";" T). split; [done|].
      revert Hc. by_cases_on_char c.
    - exists "-"%char, (String c ds +:+ String ";" T). by repeat split. }
  rewrite bind_star.
  assert (Grammar.IDENT (String " " (String x r)) = None) as HIDENT.
  { unfold Grammar.IDENT, Grammar.word. rewrite skip_WS, skip_head by done. by rewrite Hx. }
  assert (Grammar.many fuel Grammar.IDENT (String " " (String x r)) =
          ([], String " " (String x r))) as ->.
  { destruct fuel; [done|]. cbn [Grammar.many]. by rewrite HIDENT. }
  cbn [fst snd]. apply bind_None. unfold Grammar.keyword.
  rewrite skip_WS, skip_head by done. cbn [Grammar.strip_prefix].
  assert ((";" =? x)%char = false) as -> by (apply Ascii.eqb_neq; congruence). done.
Qed.

(** X16.  The line of a constant, as the printer writes it (the value
    as its text, [literal_text]).  Rule [const]
    reads it as the constant.  Rule [vop] rejects it when the value is a
    number, and reads it as an operation with the opcode [const] and one
    argument when the value is [true] or [false]: for boolean constants
    it is the priority of [const] over [vop] that makes the instruction a
    constant. *)
Theorem constant_line_rules (fuel : nat) (dest type : string) (value : literal) (T : string) :
  is_IDENT dest = true → is_CNAME type = true →
  String.length
    (String nl (("  " +:+ (dest +:+ ": " +:+ type +:+ " = const " +:+ literal_text value) +:+ ";")
                +:+ T)) ≤ fuel →
  Grammar.const
    (String nl (("  " +:+ (dest +:+ ": " +:+ type +:+ " = const " +:+ literal_text value) +:+ ";")
                +:+ T)) =
    Some (tree_of_instr (IConst dest type value), T) ∧
  Grammar.vop fuel
    (String nl (("  " +:+ (dest +:+ ": " +:+ type +:+ " = const " +:+ literal_text value) +:+ ";")
                +:+ T)) =
    match value with
    | LInt _ => None
    | LBool _ => Some (tree_of_instr (IValue "const" dest type [literal_text value]), T)
    end.
Proof.
  intros Hd Ht Hfuel. split; [by apply const_line|]. destruct value as [z|b].
  - revert Hfuel. normalize_text. intros Hfuel. unfold Grammar.vop.
    rewrite !step_WS_IDENT by side. rewrite step_IDENT by side.
    keyword_step ":".
    rewrite !step_WS_type by side. rewrite step_type by side.
    rewrite !step_WS_keyword by side. keyword_step "=".
    rewrite !step_WS_CNAME by side.
    change (String "c" (String "o" (String "n" (String "s" (String "t" ?r)))))
      with ("const" +:+ r).
    rewrite step_CNAME by side. apply vop_tail_number.
  - assert (Forall (λ a, is_IDENT a = true) [literal_text (LBool b)]) as Hargs
      by (constructor; [by destruct b | constructor]).
    exact (vop_line fuel "const" dest type [literal_text (LBool b)] T Hd Ht eq_refl Hargs Hfuel).
Qed.

(** *** Concrete texts *)


(** A constant of 4301 digits: [int] raises ValueError and lark wraps
    it.  With one digit less the text parses. *)
Example parse_bril_long_literal :
  parse_bril long_literal_example = Raise (VisitError ValueError) ∧
  is_Some (JSONTransformer.py_int (String.concat "" (replicate 4300 "7"))).
Proof. split; [by vm_compute|]. vm_compute. by eexists. Qed.

(** An import, two arguments and a return type. *)
Lemma parse_bril_headers_witness :
  parse_bril header_example = Ok header_program ∧
  imports header_program ≠ Some [] ∧
  Forall (λ m, is_CNAME m = true) (default [] (imports header_program)) ∧
  Forall (λ f, func_args f ≠ Some [] ∧
               Forall lex_arg (default [] (func_args f)) ∧
               ∀ t, func_type f = Some t → is_CNAME t = true)
         (functions header_program).
Proof.
  split; [by vm_compute|]. apply (parse_bril_headers header_example header_program).
  by vm_compute.
Defined.

(** The text of the round trip. *)
Lemma parse_bril_bodies_witness :
  parse_bril round_trip_example = Ok round_trip_program ∧
  Forall (λ f, is_CNAME (name f) = true ∧ Forall lex_instr (instrs f) ∧
               (func_type f = None → instrs f ≠ []))
         (functions round_trip_program).
Proof.
  split; [by vm_compute|]. apply (parse_bril_bodies round_trip_example round_trip_program).
  by vm_compute.
Defined.

(** Two comments and an empty line. *)
Lemma parse_bril_blank_witness :
  skip_ignored false blank_example = "" ∧
  parse_bril blank_example = Ok {| functions := []; imports := None |}.
Proof.
  split; [by vm_compute|]. apply (parse_bril_blank blank_example). by vm_compute.
Defined.

(** The constant [b: bool = const true;]. *)
Lemma constant_line_rules_witness :
  Grammar.const
    (String nl (("  " +:+ ("b" +:+ ": " +:+ "bool" +:+ " = const " +:+ literal_text (LBool true))
                 +:+ ";") +:+ "")) =
    Some (tree_of_instr (IConst "b" "bool" (LBool true)), "") ∧
  Grammar.vop 40
    (String nl (("  " +:+ ("b" +:+ ": " +:+ "bool" +:+ " = const " +:+ literal_text (LBool true))
                 +:+ ";") +:+ "")) =
    Some (tree_of_instr (IValue "const" "b" "bool" [literal_text (LBool true)]), "").
Proof.
  apply (constant_line_rules 40 "b" "bool" (LBool true) ""); [reflexivity..|]. cbn. lia.
Defined.

End Parsing.

(** * What the printer shows *)

Module Printing.
Import Lexical Roundtrip.

(** The key [instr_to_string] looks up in vain on an instruction it cannot
    show: ['value'] on a value operation spelled [const], ['dest'] on an
    effect operation spelled [const], ['op'] on a nested function. *)
Definition missing_key (i : instr) : string :=
  match i with
  | IValue _ _ _ _ => "value"
  | IEffect _ _ => "dest"
  | _ => "op"
  end.

(** An instruction [instr_to_string] can show: no nested function, no
    operation spelled [const], no constant beyond the digits of [str]. *)
Definition shown (i : instr) : Prop := printable i ∧ const_showable i.

(** What [instr_to_string] raises otherwise: ValueError on a constant,
    KeyError on the others. *)
Definition raised_on (i : instr) : exn :=
  match i with
  | IConst _ _ _ => ValueError
  | _ => KeyError (missing_key i)
  end.

Lemma print_instr_or_label_result (i : instr) :
  match print_instr_or_label i with
  | Ok _ => shown i
  | Raise e => ¬ shown i ∧ e = raised_on i
  end.
Proof.
  unfold shown.
  destruct i as [dest type value|op dest type args|op args|label|f]; cbn; try done.
  - destruct value as [z|b]; [|done]. unfold showable, str_lower.
    destruct (too_long _); cbn; [|done]. by split; [intros [_ ?]|].
  - destruct (String.eqb_spec op "const"); cbn; [by split; [intros [[] _]|] | done].
  - destruct (String.eqb_spec op "const"); cbn; [by split; [intros [[] _]|] | done].
  - by split; [intros [[] _]|].
Qed.

(** [mapM] stops at the first element that raises. *)
Lemma mapM_result {A C} (g : A → result C) (P : A → Prop) (Q : A → exn → Prop) (l : list A) :
  (∀ a, match g a with Ok _ => P a | Raise e => Q a e end) →
  match mapM g l with
  | Ok _ => Forall P l
  | Raise e => ∃ l1 a l2, l = l1 ++ a :: l2 ∧ Forall P l1 ∧ Q a e
  end.
Proof.
  intros Hg. induction l as [|a l IH]; [by constructor|]. cbn.
  pose proof (Hg a) as Ha. destruct (g a) as [c|e]; cbn.
  - destruct (mapM g l) as [cs|e]; cbn.
    + by constructor.
    + destruct IH as (l1 & a' & l2 & -> & ? & ?). exists (a :: l1), a', l2.
      split; [done|]. split; [by constructor | done].
  - exists [], a, l. split; [done|]. split; [constructor | done].
Qed.

Lemma print_func_result (f : function) :
  match print_func f with
  | Ok _ => Forall shown (instrs f)
  | Raise e => ∃ l1 i l2, instrs f = l1 ++ i :: l2 ∧ Forall shown l1 ∧
                          ¬ shown i ∧ e = raised_on i
  end.
Proof.
  unfold print_func.
  pose proof (mapM_result print_instr_or_label shown (λ i e, ¬ shown i ∧ e = raised_on i)
                (instrs f) print_instr_or_label_result) as Hf.
  by destruct (mapM print_instr_or_label (instrs f)).
Qed.

(** X7.  [print_prog] prints a program exactly when every instruction of
    every function can be shown: it is no nested function, no value or
    effect operation spelled [const], and no constant of more digits than
    [str] converts.  Otherwise it raises on the first instruction, in the
    order of the program, that cannot be shown, and what it raises is fixed
    by that instruction: ValueError on a constant, and KeyError on the key
    the instruction lacks on the others (['value'] on a value operation,
    ['dest'] on an effect operation, ['op'] on a nested function). *)
Theorem print_prog_result (p : program) :
  match print_prog p with
  | Ok _ => Forall (λ f, Forall shown (instrs f)) (functions p)
  | Raise e => ∃ before i after,
      concat (instrs <$> functions p) = before ++ i :: after ∧
      Forall shown before ∧ ¬ shown i ∧
      e = match i with
          | IConst _ _ _ => ValueError
          | IValue _ _ _ _ => KeyError "value"
          | IEffect _ _ => KeyError "dest"
          | ILabel _ | IFunc _ => KeyError "op"
          end
  end.
Proof.
  unfold print_prog.
  pose proof (mapM_result print_func (λ f, Forall shown (instrs f))
                (λ f e, ∃ l1 i l2, instrs f = l1 ++ i :: l2 ∧ Forall shown l1 ∧
                                   ¬ shown i ∧ e = raised_on i)
                (functions p) print_func_result) as H.
  destruct (mapM print_func (functions p)) as [blocks|e]; cbn; [done|].
  destruct H as (fs1 & f & fs2 & -> & Hfs1 & l1 & i & l2 & Hf & Hl1 & Hi & ->).
  exists (concat (instrs <$> fs1) ++ l1), i, (l2 ++ concat (instrs <$> fs2)).
  split; [|split; [|split]].
  - rewrite fmap_app, concat_app. cbn. rewrite Hf. by rewrite <- !app_assoc.
  - apply Forall_app. split; [|done]. apply Forall_concat, Forall_fmap.
    eapply Forall_impl; [exact Hfs1 | done].
  - done.
  - by destruct i.
Qed.

Lemma print_func_bare (f : function) : print_func (bare f) = print_func f.
Proof. by destruct f. Qed.

Lemma mapM_fmap {A B C} (g : B → result C) (h : A → B) (l : list A) :
  mapM g (h <$> l) = mapM (g ∘ h) l.
Proof. induction l as [|a l IH]; [done|]. cbn. by rewrite IH. Qed.

Lemma mapM_ext {A C} (g g' : A → result C) (l : list A) :
  (∀ a, g a = g' a) → mapM g l = mapM g' l.
Proof. intros Hg. induction l as [|a l IH]; [done|]. cbn. by rewrite Hg, IH. Qed.

(** X8.  The printer shows the name and the body of a function and
    nothing else: the arguments and the return type of a function and the
    imports of the program leave no trace in the text. *)
Theorem print_prog_drops_headers (p : program) (imps : option (list string)) :
  print_prog {| functions := bare <$> functions p; imports := imps |} = print_prog p.
Proof.
  unfold print_prog. cbn [functions]. rewrite mapM_fmap.
  by rewrite (mapM_ext _ print_func) by apply print_func_bare.
Qed.

(** The value the transformer makes of a literal. *)
Definition value_of_literal (v : literal) : value :=
  match v with
  | LInt z => VInt z
  | LBool b => VBool b
  end.

(** X6.  What [instr_to_string] writes for the value of a constant,
    [str(value).lower()], the grammar reads as one literal and the
    callbacks [int] and [bool] turn into the same value: both booleans,
    and every integer that [str] converts, negative ones included.  [str]
    raises ValueError on the others, the integers of more than
    [int_max_str_digits] digits. *)
Theorem literal_round_trip (v : literal) (T : string) :
  match str_lower v with
  | Ok s =>
      Grammar.lit (s +:+ String ";" T) = Some (tree_of_literal v, String ";" T) ∧
      JSONTransformer.transform (tree_of_literal v) = Ok (value_of_literal v)
  | Raise e =>
      e = ValueError ∧
      ∃ z, v = LInt z ∧
           (int_max_str_digits < Z.of_nat (String.length (unsigned (literal_text v))))%Z
  end.
Proof.
  destruct (str_lower v) as [s|e] eqn:Hs.
  - apply str_lower_Ok in Hs as [-> Hv]. split; [apply lit_spec|].
    destruct v as [z|[]]; [|done..].
    pose proof (py_int_literal_text z Hv) as Hz. cbn in Hz |- *.
    unfold JSONTransformer.call_userfunc. cbn. by rewrite Hz.
  - unfold str_lower in Hs. destruct v as [z|b]; [|done].
    destruct (too_long _) eqn:Hlong; [|done]. injection Hs as <-. split; [done|].
    exists z. split; [done|]. by apply Z.ltb_lt.
Qed.

(** X9.  A program fit for the text format: names that are
    identifiers, at least one instruction in every function, no nested
    function, no opcode that reads as [const] and no constant of more
    digits than [str] converts.  Printing it succeeds;
    parsing the text gives the same functions without their arguments and
    return types and no imports; and printing that program gives the same
    lines again. *)
Theorem print_parse_print (p : program) :
  Forall wf_func (functions p) →
  ∃ lines,
    print_prog p = Ok lines ∧
    parse_bril (to_text lines) = Ok {| functions := bare <$> functions p; imports := None |} ∧
    print_prog {| functions := bare <$> functions p; imports := None |} = Ok lines.
Proof.
  intros Hwf. destruct (print_parse_wf p Hwf) as (lines & Hprint & Hparse).
  exists lines. split; [done|]. split; [done|].
  rewrite <- Hprint. unfold print_prog. cbn [functions]. rewrite mapM_fmap.
  by rewrite (mapM_ext _ print_func) by apply print_func_bare.
Qed.

(** The constant [10 ^ 4300] has 4301 digits and [str] raises; the
    number before it is shown. *)
Example print_prog_long_constant :
  print_prog long_constant_program = Raise ValueError ∧
  showable (LInt (10 ^ 4300 - 1)).
Proof. split; by vm_compute. Qed.

(** A function with a constant, a label and a jump. *)
Lemma print_parse_print_witness :
  Forall wf_func (functions layout_example) ∧
  ∃ lines,
    print_prog layout_example = Ok lines ∧
    parse_bril (to_text lines) =
      Ok {| functions := bare <$> functions layout_example; imports := None |} ∧
    print_prog {| functions := bare <$> functions layout_example; imports := None |} = Ok lines.
Proof.
  assert (Forall wf_func (functions layout_example)) as Hwf.
  { constructor; [|constructor]. split; [done|]. split; [done|]. repeat constructor; done. }
  split; [done|]. exact (print_parse_print layout_example Hwf).
Defined.

End Printing.

(** * What [unroll_imports] returns *)

Module Imports.

(** ** Lists of lists *)

Lemma elem_of_concat_fmap {A B} (g : A → list B) (l : list A) (k : B) :
  k ∈ concat (g <$> l) ↔ ∃ x, x ∈ l ∧ k ∈ g x.
Proof.
  induction l as [|a l IH]; cbn.
  - split; [by intros ?%elem_of_nil | by intros (x & ?%elem_of_nil & _)].
  - rewrite elem_of_app, IH. split.
    + intros [Hk|(x & Hx & Hk)]; [exists a | exists x]; split; try done; by constructor.
    + intros (x & [->|Hx]%elem_of_cons & Hk); [by left | right; by exists x].
Qed.

Lemma fmap_concat_fmap {A B C} (h : B → C) (g : A → list B) (l : list A) :
  h <$> concat (g <$> l) = concat ((λ x, h <$> g x) <$> l).
Proof. induction l as [|a l IH]; [done|]. cbn. by rewrite fmap_app, IH. Qed.

Lemma concat_fmap_Permutation {A B} (g : A → list B) (l l' : list A) :
  l ≡ₚ l' → concat (g <$> l) ≡ₚ concat (g <$> l').
Proof.
  induction 1 as [|a l l' _ IH|a b l|l1 l2 l3 _ IH1 _ IH2]; cbn.
  - done.
  - by rewrite IH.
  - rewrite !app_assoc. f_equiv. apply Permutation_app_comm.
  - by rewrite IH1.
Qed.

(** In a concatenation without repetition, the parts of different
    elements share nothing. *)
Lemma NoDup_concat_fmap {A B} (g : A → list B) (l : list A) (x y : A) (k : B) :
  NoDup (concat (g <$> l)) → x ∈ l → y ∈ l → x ≠ y → k ∈ g x → k ∉ g y.
Proof.
  induction l as [|a l IH]; cbn; [by intros _ ?%elem_of_nil|].
  intros (_ & Hfresh & Hnd)%NoDup_app [->|Hx]%elem_of_cons [->|Hy]%elem_of_cons Hne Hk; try done.
  - intros Hk'. apply (Hfresh k Hk). apply elem_of_concat_fmap. by exists y.
  - intros Hk'. apply (Hfresh k Hk'). apply elem_of_concat_fmap. by exists x.
  - by apply IH.
Qed.

Lemma values_names (d : dict) : Forall named d → name <$> values d = d.*1.
Proof.
  unfold values. induction 1 as [|[k v] d Hkv _ IH]; [done|]. cbn. by rewrite IH, Hkv.
Qed.

Lemma dict_set_values (k : string) (v : function) (d : dict) (g : function) :
  g ∈ (dict_set k v d).*2 → g = v ∨ g ∈ d.*2.
Proof.
  induction d as [|[k' v'] d IH]; cbn.
  - intros ->%list_elem_of_singleton. by left.
  - destruct (decide (k = k')) as [->|]; cbn.
    + intros [->|?]%elem_of_cons; [by left | right; by right].
    + intros [->|[->|?]%IH]%elem_of_cons; [right; by left | by left | right; by right].
Qed.

(** The dict of a list of functions holds functions of the list. *)
Lemma dict_of_functions_values (fns : list function) (g : function) :
  g ∈ values (dict_of_functions fns) → g ∈ fns.
Proof.
  unfold values, dict_of_functions, dict_update.
  assert (∀ d : dict, g ∈ (foldl (λ d kv, dict_set kv.1 kv.2 d) d
                             ((λ f, (name f, f)) <$> fns)).*2 → g ∈ d.*2 ∨ g ∈ fns) as H.
  { induction fns as [|f fns IH]; intros d; cbn; [by left|].
    intros [[->|?]%dict_set_values|?]%IH; [right; by left | by left | right; by right]. }
  intros [?%elem_of_nil|?]%H; done.
Qed.

Section Modules.

Variable fs : gmap string string.

(** [open('{}.bril'.format(module_name))] and [parse_bril(f.read())], as
    the loop does them. *)
Definition load (module_name : string) : result program :=
  match fs !! path_of module_name with
  | Some txt => parse_bril txt
  | None => Raise (SystemExit module_name)
  end.

(** The functions a module contributes: its dict, in insertion order. *)
Definition module_dict (module_name : string) : dict :=
  match load module_name with
  | Ok loaded => dict_of_functions (functions loaded)
  | Raise _ => []
  end.

(** The modules the imports lead to: the ones named by the program and
    the ones named by a module that loads. *)
Inductive reachable (imps : list string) : string → Prop :=
| reachable_root (m : string) : m ∈ imps → reachable imps m
| reachable_step (m : string) (loaded : program) (m' : string) :
    reachable imps m → load m = Ok loaded → m' ∈ default [] (imports loaded) →
    reachable imps m'.

(** ** One turn *)

Lemma loop_body_load (st st' : state) (m : string) :
  loop_body fs st m = Ok st' →
  ∃ loaded,
    load m = Ok loaded ∧
    (∀ k, k ∈ (module_dict m).*1 → k ∉ (all_functions_map st).*1) ∧
    to_import st' =
      to_import st ∖ {[m]} ∪
      (list_to_set (default [] (imports loaded)) ∖ ({[m]} ∪ imported st)) ∧
    all_functions_map st' = all_functions_map st ++ module_dict m ∧
    imported st' = {[m]} ∪ imported st.
Proof.
  intros (txt & loaded & Hfile & Hparse & Hdups & Hto & Hmap & Himp)%loop_body_Ok.
  assert (load m = Ok loaded) as Hload by (unfold load; by rewrite Hfile).
  assert (∀ k, k ∈ (module_dict m).*1 → k ∉ (all_functions_map st).*1) as Hfresh.
  { unfold module_dict. rewrite Hload.
    intros k Hk%dict_of_functions_elem_keys Hk'. unfold keys in Hdups.
    assert (k ∈ (∅ : gset string)); [|set_solver].
    rewrite <- Hdups. apply elem_of_intersection. by rewrite !elem_of_list_to_set. }
  exists loaded. split; [done|]. split; [done|]. split; [done|]. split; [|done].
  rewrite Hmap. unfold module_dict in *. rewrite Hload in *.
  apply dict_update_fresh; [apply dict_of_functions_NoDup | done].
Qed.

Lemma loop_body_raises (st : state) (m : string) (e : exn) :
  loop_body fs st m = Raise e →
  load m = Raise e ∨
  ∃ loaded, load m = Ok loaded ∧
            e = DefinedTwice (elements (list_to_set (name <$> functions loaded) ∩
                                        keys (all_functions_map st) : gset string)) ∧
            list_to_set (name <$> functions loaded) ∩ keys (all_functions_map st)
              ≠ (∅ : gset string).
Proof.
  unfold loop_body, load. destruct (fs !! path_of m) as [txt|]; cbn; [|intros [= <-]; by left].
  destruct (parse_bril txt) as [loaded|e']; cbn; [|intros [= <-]; by left].
  destruct (decide (0 < size _)) as [Hsize|]; [|done]. intros [= <-]. right.
  exists loaded. split; [done|]. split; [done|]. intros Hempty.
  rewrite Hempty, size_empty in Hsize. lia.
Qed.

(** ** The run of the loop *)

Section Run.

Variable pick : gset string → option string.

(** When the loop ends normally nothing is left to import, and the dict
    has grown by the dicts of the popped modules, in the order of
    popping. *)
Lemma loop_trail (fuel : nat) (st st' : state) :
  loop pick fs fuel st = Some (Ok st') →
  to_import st' = ∅ ∧
  all_functions_map st' =
    all_functions_map st ++ concat (module_dict <$> popped pick fs fuel st) ∧
  Forall (λ m, ∃ loaded, load m = Ok loaded) (popped pick fs fuel st).
Proof.
  revert st. induction fuel as [|fuel IH]; intros st; cbn.
  - destruct (decide (0 < size (to_import st))) as [|Hz].
    + by destruct (pick (to_import st)).
    + intros [= <-]. rewrite app_nil_r. split; [|done].
      apply leibniz_equiv, size_empty_inv. lia.
  - destruct (decide (0 < size (to_import st))) as [|Hz].
    2:{ intros [= <-]. rewrite app_nil_r. split; [|done].
        apply leibniz_equiv, size_empty_inv. lia. }
    destruct (pick (to_import st)) as [m|]; [|done].
    destruct (loop_body fs st m) as [st1|e] eqn:Hbody; [|done].
    intros (Hto & Hmap & Hall)%IH.
    apply loop_body_load in Hbody as (loaded & Hload & _ & _ & Hmap1 & _).
    split; [done|]. split.
    + rewrite Hmap, Hmap1. cbn. by rewrite app_assoc.
    + constructor; [by exists loaded | done].
Qed.

(** The loop's bookkeeping: every module named so far is waiting or
    done, what is waiting or done is reachable, and nothing is both. *)
Record closing (imps : list string) (st : state) : Prop := Closing {
  closing_roots : ∀ m, m ∈ imps → m ∈ to_import st ∨ m ∈ imported st;
  closing_imports :
    ∀ m loaded m', m ∈ imported st → load m = Ok loaded →
                   m' ∈ default [] (imports loaded) →
                   m' ∈ to_import st ∨ m' ∈ imported st;
  closing_reachable : ∀ m, m ∈ to_import st ∨ m ∈ imported st → reachable imps m;
  closing_disjoint : to_import st ## imported st;
}.

Lemma closing_init (prog : program) (imps : list string) : closing imps (init prog imps).
Proof.
  split; cbn.
  - intros m Hm. left. by apply elem_of_list_to_set.
  - intros m loaded m' Hm. set_solver.
  - intros m [Hm%elem_of_list_to_set|Hm]; [by constructor | set_solver].
  - set_solver.
Qed.

Lemma closing_loop_body (imps : list string) (st st' : state) (m : string) :
  closing imps st → m ∈ to_import st → loop_body fs st m = Ok st' → closing imps st'.
Proof.
  intros [Hroots Himports Hreach Hdisj] Hm
    (loaded & Hload & _ & Hto & _ & Himp)%loop_body_load.
  assert (∀ x, x ∈ to_import st ∨ x ∈ imported st →
               x ∈ to_import st' ∨ x ∈ imported st') as Hkeep.
  { intros x Hx. rewrite Hto, Himp. destruct (decide (x = m)) as [->|]; set_solver. }
  split.
  - intros m0 Hm0. by apply Hkeep, Hroots.
  - intros m0 loaded0 m' Hm0 Hload0 Hm'. rewrite Himp in Hm0.
    apply elem_of_union in Hm0 as [->%elem_of_singleton|Hm0].
    + rewrite Hload in Hload0. injection Hload0 as <-. rewrite Hto, Himp.
      destruct (decide (m' ∈ ({[m]} ∪ imported st : gset string))); [by right|].
      left. apply elem_of_union. right. apply elem_of_difference.
      split; [by apply elem_of_list_to_set | done].
    + by eapply Hkeep, Himports.
  - intros x Hx. rewrite Hto, Himp in Hx.
    assert (x ∈ to_import st ∨ x ∈ imported st ∨
            x ∈ (list_to_set (default [] (imports loaded)) : gset string)) as [?|[?|Hx']]
      by set_solver; [by apply Hreach; left | by apply Hreach; right|].
    apply elem_of_list_to_set in Hx'.
    eapply reachable_step; [|done..]. apply Hreach. by left.
  - rewrite Hto, Himp. set_solver.
Qed.

(** With nothing left to import, what has been imported is what can be
    reached. *)
Lemma closing_final (imps : list string) (st : state) (m : string) :
  closing imps st → to_import st = ∅ → (m ∈ imported st ↔ reachable imps m).
Proof.
  intros [Hroots Himports Hreach _] Hempty. split; [by intros; apply Hreach; right|].
  induction 1 as [m Hm|m loaded m' _ IH Hload Hm'].
  - destruct (Hroots m Hm) as [Hin|]; [|done]. rewrite Hempty in Hin. set_solver.
  - destruct (Himports m loaded m' IH Hload Hm') as [Hin|]; [|done].
    rewrite Hempty in Hin. set_solver.
Qed.

(** A property kept by every turn holds when the loop ends; an exception
    of the loop is the exception of one turn, or of [set.pop()]. *)
Lemma loop_rule (I : state → Prop) (fuel : nat) (st : state) :
  I st →
  (∀ st st' m, I st → pick (to_import st) = Some m → loop_body fs st m = Ok st' → I st') →
  match loop pick fs fuel st with
  | Some (Ok st') => I st' ∧ to_import st' = ∅
  | Some (Raise e) =>
      ∃ st0, I st0 ∧ 0 < size (to_import st0) ∧
             match pick (to_import st0) with
             | Some m => loop_body fs st0 m = Raise e
             | None => e = KeyError "pop from an empty set"
             end
  | None => True
  end.
Proof.
  intros Hst Hstep. revert st Hst. induction fuel as [|fuel IH]; intros st Hst; cbn.
  - destruct (decide (0 < size (to_import st))) as [Hsize|Hz].
    + destruct (pick (to_import st)) eqn:Hpick; [done|].
      exists st. by rewrite Hpick.
    + split; [done|]. apply leibniz_equiv, size_empty_inv. lia.
  - destruct (decide (0 < size (to_import st))) as [Hsize|Hz].
    2:{ split; [done|]. apply leibniz_equiv, size_empty_inv. lia. }
    destruct (pick (to_import st)) as [m|] eqn:Hpick.
    + destruct (loop_body fs st m) as [st1|e] eqn:Hbody.
      * apply IH. by eapply Hstep.
      * exists st. by rewrite Hpick.
    + exists st. by rewrite Hpick.
Qed.

(** *** The keys of the dict *)

(** The names defined so far: those of the program and those of the
    modules imported. *)
Definition keys_tracked (prog : program) (st : state) : Prop :=
  ∀ k, k ∈ (all_functions_map st).*1 ↔
       k ∈ name <$> functions prog ∨ ∃ m, m ∈ imported st ∧ k ∈ (module_dict m).*1.

Lemma keys_tracked_init (prog : program) (imps : list string) :
  keys_tracked prog (init prog imps).
Proof.
  intros k. cbn. rewrite dict_of_functions_elem_keys. split; [by left|].
  intros [?|(m & ?%elem_of_empty & _)]; done.
Qed.

Lemma keys_tracked_loop_body (prog : program) (st st' : state) (m : string) :
  keys_tracked prog st → loop_body fs st m = Ok st' → keys_tracked prog st'.
Proof.
  intros Hst (loaded & _ & _ & _ & Hmap & Himp)%loop_body_load k.
  rewrite Hmap, Himp, fmap_app, elem_of_app, (Hst k). split.
  - intros [[?|(m' & ? & ?)]|?]; [by left | right; exists m' | right; exists m];
      (split; [|done]); set_solver.
  - intros [?|(m' & [->%elem_of_singleton|?]%elem_of_union & ?)];
      [left; by left | by right | left; right; by exists m'].
Qed.

Definition tracking (prog : program) (imps : list string) (st : state) : Prop :=
  closing imps st ∧ keys_tracked prog st.

Lemma tracking_init (prog : program) (imps : list string) :
  tracking prog imps (init prog imps).
Proof. split; [apply closing_init | apply keys_tracked_init]. Qed.

(** The exception of a turn, told apart. *)
Lemma turn_raises (prog : program) (imps : list string) (st : state) (m : string) (e : exn) :
  tracking prog imps st → m ∈ to_import st → loop_body fs st m = Raise e →
  reachable imps m ∧
  ((fs !! path_of m = None ∧ e = SystemExit m) ∨
   (∃ txt, fs !! path_of m = Some txt ∧ parse_bril txt = Raise e ∧
           (e = UnexpectedInput ∨ e = VisitError IndexError ∨ e = VisitError ValueError)) ∨
   (∃ loaded names,
      load m = Ok loaded ∧ e = DefinedTwice names ∧ names ≠ [] ∧
      ∀ n, n ∈ names →
           n ∈ name <$> functions loaded ∧
           (n ∈ name <$> functions prog ∨
            ∃ m' loaded', m' ≠ m ∧ reachable imps m' ∧ load m' = Ok loaded' ∧
                          n ∈ name <$> functions loaded'))).
Proof.
  intros [[_ _ Hreach Hdisj] Hkeys] Hm Hbody. split; [apply Hreach; by left|].
  apply loop_body_raises in Hbody as [Hload|(loaded & Hload & -> & Hdups)].
  - unfold load in Hload. destruct (fs !! path_of m) as [txt|] eqn:Hfile.
    + right. left. exists txt. split; [done|]. split; [done|].
      apply Parsing.parse_bril_Raise in Hload as [[-> _]|[[-> | ->] _]]; auto.
    + left. by injection Hload as <-.
  - right. right. eexists loaded, _. split; [done|]. split; [done|]. split.
    + intros Hnil%elements_empty_inv. by apply Hdups, leibniz_equiv.
    + intros n [Hn Hn']%elem_of_elements%elem_of_intersection.
      apply elem_of_list_to_set in Hn. split; [done|].
      unfold keys in Hn'. apply elem_of_list_to_set, Hkeys in Hn' as [?|(m' & Hm' & Hn')];
        [by left|]. right.
      unfold module_dict in Hn'. destruct (load m') as [loaded'|] eqn:Hload'; [|set_solver].
      exists m', loaded'. split; [set_solver|]. split; [by apply Hreach; right|].
      split; [done|]. by apply dict_of_functions_elem_keys.
Qed.

(** [set.pop()] returns an element of the set. *)
Hypothesis pick_elem : ∀ s m, pick s = Some m → m ∈ s.

Lemma tracking_loop_body (prog : program) (imps : list string) (st st' : state) (m : string) :
  tracking prog imps st → pick (to_import st) = Some m → loop_body fs st m = Ok st' →
  tracking prog imps st'.
Proof.
  intros [Hclosing Hkeys] Hpick%pick_elem Hbody.
  split; [by eapply closing_loop_body | by eapply keys_tracked_loop_body].
Qed.

(** *** The result *)

Lemma loop_result (fuel : nat) (prog : program) (imps : list string) (st : state) :
  loop pick fs fuel (init prog imps) = Some (Ok st) →
  ∃ order,
    NoDup order ∧ (∀ m, m ∈ order ↔ reachable imps m) ∧
    Forall (λ m, ∃ loaded, load m = Ok loaded) order ∧
    all_functions_map st =
      dict_of_functions (functions prog) ++ concat (module_dict <$> order) ∧
    NoDup (all_functions_map st).*1 ∧ Forall named (all_functions_map st).
Proof.
  intros Hloop. exists (popped pick fs fuel (init prog imps)).
  pose proof (loop_trail _ _ _ Hloop) as (Hto & Hmap & Hall).
  pose proof (popped_imported pick fs pick_elem _ _ _ Hloop) as Himp.
  pose proof (loop_rule (tracking prog imps) fuel (init prog imps)
                (tracking_init prog imps) (tracking_loop_body prog imps)) as Hrule.
  rewrite Hloop in Hrule. destruct Hrule as [[Hclosing _] _].
  destruct (loop_map pick fs fuel (init prog imps) st
              (dict_of_functions_NoDup (functions prog))
              (dict_of_functions_named (functions prog)) Hloop) as (_ & _ & Hnd & Hnamed).
  split; [|split; [|done]].
  - apply (popped_fresh pick fs pick_elem). unfold disjoint_sets. cbn. set_solver.
  - intros m. rewrite <- (closing_final imps st m Hclosing Hto), Himp. cbn.
    rewrite elem_of_union, elem_of_list_to_set. set_solver.
Qed.

(** X10.  The result of [unroll_imports] on a program with imports: no
    key ['imports']; the functions of the program's own dict first,
    followed by the functions of every module the imports lead to,
    directly or through other modules, each module exactly once; and no
    two functions of the same name. *)
Theorem unroll_imports_result (fuel : nat) (prog : program) (imps : list string) (p' : program) :
  imports prog = Some imps →
  unroll_imports pick fs fuel prog = Some (Ok p') →
  ∃ order,
    NoDup order ∧ (∀ m, m ∈ order ↔ reachable imps m) ∧
    Forall (λ m, ∃ loaded, load m = Ok loaded) order ∧
    imports p' = None ∧
    functions p' =
      values (dict_of_functions (functions prog)) ++
      concat ((λ m, values (module_dict m)) <$> order) ∧
    NoDup (name <$> functions p').
Proof.
  intros Himps. unfold unroll_imports. rewrite Himps.
  destruct (loop pick fs fuel (init prog imps)) as [[st|e]|] eqn:Hloop; [|done..].
  intros [= <-].
  destruct (loop_result _ _ _ _ Hloop) as (order & Hnd & Horder & Hall & Hmap & Hkeys & Hnamed).
  exists order. split; [done|]. split; [done|]. split; [done|]. split; [done|]. cbn. split.
  - rewrite Hmap. unfold values. by rewrite fmap_app, fmap_concat_fmap.
  - by rewrite values_names.
Qed.

(** X17.  The functions of a successful result come from the program
    and from the modules the imports lead to, unchanged, and the names
    the result defines are exactly the names they define. *)
Theorem unroll_imports_functions (fuel : nat) (prog : program) (imps : list string) (p' : program) :
  imports prog = Some imps →
  unroll_imports pick fs fuel prog = Some (Ok p') →
  (∀ f, f ∈ functions p' →
        f ∈ functions prog ∨
        ∃ m loaded, reachable imps m ∧ load m = Ok loaded ∧ f ∈ functions loaded) ∧
  (∀ n, n ∈ name <$> functions p' ↔
        n ∈ name <$> functions prog ∨
        ∃ m loaded, reachable imps m ∧ load m = Ok loaded ∧ n ∈ name <$> functions loaded).
Proof.
  intros Himps. unfold unroll_imports. rewrite Himps.
  destruct (loop pick fs fuel (init prog imps)) as [[st|e]|] eqn:Hloop; [|done..].
  intros [= <-]. cbn [functions].
  destruct (loop_result _ _ _ _ Hloop) as (order & _ & Horder & Hall & Hmap & _ & Hnamed).
  split.
  - intros f. rewrite Hmap. unfold values. rewrite fmap_app, fmap_concat_fmap, elem_of_app.
    intros [Hf%dict_of_functions_values|(m & Hm & Hf)%elem_of_concat_fmap]; [by left|].
    right. unfold module_dict in Hf. destruct (load m) as [loaded|] eqn:Hload.
    + exists m, loaded. split; [by apply Horder|]. split; [done|].
      by apply dict_of_functions_values.
    + by apply elem_of_nil in Hf.
  - intros n. rewrite values_names by done.
    rewrite Hmap, fmap_app, fmap_concat_fmap, elem_of_app, dict_of_functions_elem_keys.
    rewrite elem_of_concat_fmap. split.
    + intros [?|(m & Hm & Hn)]; [by left|]. right.
      unfold module_dict in Hn. destruct (load m) as [loaded|] eqn:Hload.
      * exists m, loaded. split; [by apply Horder|]. split; [done|].
        by apply dict_of_functions_elem_keys.
      * by apply elem_of_nil in Hn.
    + intros [?|(m & loaded & Hm & Hload & Hn)]; [by left|]. right.
      exists m. split; [by apply Horder|]. unfold module_dict. rewrite Hload.
      by apply dict_of_functions_elem_keys.
Qed.

(** [set.pop()] of a set that is not empty returns. *)
Hypothesis pick_some : ∀ s, 0 < size s → is_Some (pick s).


(** When every module the imports lead to loads and no name is defined
    twice, the loop ends normally. *)
Lemma loop_succeeds (prog : program) (imps : list string) (fuel : nat) :
  (∀ m, reachable imps m → ∃ loaded, load m = Ok loaded) →
  (∀ m k, reachable imps m → k ∈ (module_dict m).*1 → k ∉ name <$> functions prog) →
  (∀ m m' k, reachable imps m → reachable imps m' → m ≠ m' →
             k ∈ (module_dict m).*1 → k ∉ (module_dict m').*1) →
  size fs < fuel →
  ∃ st, loop pick fs fuel (init prog imps) = Some (Ok st).
Proof.
  intros Hloads Hroot Hothers Hfuel.
  destruct (loop_terminates pick fs pick_elem fuel (init prog imps)) as [r Hr].
  { unfold disjoint_sets. cbn. set_solver. }
  { unfold unopened. cbn. rewrite set_map_empty, difference_empty_L, size_dom. lia. }
  pose proof (loop_rule (tracking prog imps) fuel (init prog imps)
                (tracking_init prog imps) (tracking_loop_body prog imps)) as Hrule.
  rewrite Hr in Hrule. destruct r as [st|e]; [by exists st|]. exfalso.
  destruct Hrule as (st0 & Hst0 & Hsize & Hturn).
  destruct (pick_some _ Hsize) as [m Hpick]. rewrite Hpick in Hturn.
  destruct (turn_raises prog imps st0 m e Hst0 (pick_elem _ _ Hpick) Hturn)
    as (Hm & [[Hfile _]|[(txt & Hfile & Hparse & _)|(loaded & names & Hload & _ & Hne & Hnames)]]).
  - destruct (Hloads m Hm) as [loaded Hload]. unfold load in Hload. by rewrite Hfile in Hload.
  - destruct (Hloads m Hm) as [loaded Hload]. unfold load in Hload.
    rewrite Hfile, Hparse in Hload. done.
  - destruct names as [|n names]; [done|].
    destruct (Hnames n) as [Hn [Hn'|(m' & loaded' & Hne' & Hm' & Hload' & Hn')]]; [by left|..].
    + apply (Hroot m n Hm); [|done]. unfold module_dict. rewrite Hload.
      by apply dict_of_functions_elem_keys.
    + apply (Hothers m m' n Hm Hm'); [done|..]; unfold module_dict.
      * rewrite Hload. by apply dict_of_functions_elem_keys.
      * rewrite Hload'. by apply dict_of_functions_elem_keys.
Qed.

(** The same, with the conditions on the functions of the modules. *)
Lemma loop_succeeds_functions (prog : program) (imps : list string) (fuel : nat) :
  (∀ m, reachable imps m → ∃ loaded, load m = Ok loaded) →
  (∀ m loaded h, reachable imps m → load m = Ok loaded → h ∈ functions loaded →
                 name h ∉ name <$> functions prog) →
  (∀ m m' loaded loaded' h h',
     reachable imps m → reachable imps m' → m ≠ m' →
     load m = Ok loaded → load m' = Ok loaded' →
     h ∈ functions loaded → h' ∈ functions loaded' → name h ≠ name h') →
  size fs < fuel →
  ∃ st, loop pick fs fuel (init prog imps) = Some (Ok st).
Proof.
  intros Hloads Hroot Hothers Hfuel. apply loop_succeeds; [done| | |done].
  - intros m k Hm Hk. destruct (Hloads m Hm) as [loaded Hload].
    unfold module_dict in Hk. rewrite Hload in Hk.
    apply dict_of_functions_elem_keys, list_elem_of_fmap in Hk as (h & -> & Hh).
    by eapply Hroot.
  - intros m m' k Hm Hm' Hne Hk Hk'.
    destruct (Hloads m Hm) as [loaded Hload], (Hloads m' Hm') as [loaded' Hload'].
    unfold module_dict in Hk, Hk'. rewrite Hload in Hk. rewrite Hload' in Hk'.
    apply dict_of_functions_elem_keys, list_elem_of_fmap in Hk as (h & -> & Hh).
    apply dict_of_functions_elem_keys, list_elem_of_fmap in Hk' as (h' & Heq & Hh').
    by eapply (Hothers m m' loaded loaded' h h').
Qed.

(** The exception of a run is the exception of a turn on a module that
    was waiting. *)
Lemma loop_raises (fuel : nat) (prog : program) (imps : list string) (e : exn) :
  loop pick fs fuel (init prog imps) = Some (Raise e) →
  ∃ st m, tracking prog imps st ∧ m ∈ to_import st ∧ loop_body fs st m = Raise e.
Proof.
  intros Hloop.
  pose proof (loop_rule (tracking prog imps) fuel (init prog imps)
                (tracking_init prog imps) (tracking_loop_body prog imps)) as Hrule.
  rewrite Hloop in Hrule. destruct Hrule as (st0 & Hst0 & Hsize & Hturn).
  destruct (pick_some _ Hsize) as [m Hpick]. rewrite Hpick in Hturn.
  exists st0, m. split; [done|]. split; [by apply pick_elem | done].
Qed.

(** C9.  A program with imports whose own functions repeat a name.  The
    seeding of the dict raises nothing and keeps the last function of
    that name.  The run returns, within one turn of the loop per file,
    and what it returns does not depend on the repetition:
    - a program, and then it holds exactly one function of that name, the
      last one of the root program;
    - or an exception that a module the imports lead to has caused: its
      file is missing, or its text does not parse (never a
      [DefinedTwice]), or, for a [DefinedTwice], every name it lists is
      defined by that module and again by the root program or by another
      module.  No [DefinedTwice] is raised for names that only the root
      program defines, however often.
    When every module loads, no module defines a name of the root program
    and no two modules share a name, it is the program that is
    returned. *)
Theorem root_duplicate_last_wins
    (fuel : nat) (prog : program) (imps : list string) (f : function) :
  imports prog = Some imps →
  f ∈ functions prog →
  size fs < fuel →
  ∃ g r,
    last (filter (λ h, name h = name f) (functions prog)) = Some g ∧
    dict_get (name f) (all_functions_map (init prog imps)) = Some g ∧
    unroll_imports pick fs fuel prog = Some r ∧
    match r with
    | Ok p' => filter (λ h, name h = name f) (functions p') = [g]
    | Raise e =>
        ∃ m, reachable imps m ∧
             ((fs !! path_of m = None ∧ e = SystemExit m) ∨
              (∃ txt, fs !! path_of m = Some txt ∧ parse_bril txt = Raise e ∧
                      ∀ names, e ≠ DefinedTwice names) ∨
              (∃ loaded names,
                 load m = Ok loaded ∧ e = DefinedTwice names ∧ names ≠ [] ∧
                 ∀ n, n ∈ names →
                      n ∈ name <$> functions loaded ∧
                      (n ∈ name <$> functions prog ∨
                       ∃ m' loaded', m' ≠ m ∧ reachable imps m' ∧ load m' = Ok loaded' ∧
                                     n ∈ name <$> functions loaded')))
    end ∧
    ((∀ m, reachable imps m → ∃ loaded, load m = Ok loaded) →
     (∀ m loaded h, reachable imps m → load m = Ok loaded → h ∈ functions loaded →
                    name h ∉ name <$> functions prog) →
     (∀ m m' loaded loaded' h h',
        reachable imps m → reachable imps m' → m ≠ m' →
        load m = Ok loaded → load m' = Ok loaded' →
        h ∈ functions loaded → h' ∈ functions loaded' → name h ≠ name h') →
     ∃ p', r = Ok p').
Proof.
  intros Himps Hf Hfuel.
  destruct (last (filter (λ h, name h = name f) (functions prog))) as [g|] eqn:Hlast.
  2:{ apply last_None in Hlast.
      assert (f ∈ filter (λ h, name h = name f) (functions prog)) as Hin
        by (by apply list_elem_of_filter).
      rewrite Hlast in Hin. by apply elem_of_nil in Hin. }
  assert (Hget : dict_get (name f) (dict_of_functions (functions prog)) = Some g)
    by (by rewrite dict_get_of_functions).
  destruct (loop_terminates pick fs pick_elem fuel (init prog imps)) as [r Hr].
  { unfold disjoint_sets. cbn. set_solver. }
  { unfold unopened. cbn. rewrite set_map_empty, difference_empty_L, size_dom. lia. }
  unfold unroll_imports. rewrite Himps, Hr. exists g. destruct r as [st|e].
  - eexists. split; [done|]. split; [done|]. split; [done|]. split; [|by eexists]. cbn.
    destruct (loop_map pick fs fuel (init prog imps) st) as (extra & Hmap & Hnd & Hnamed);
      [apply dict_of_functions_NoDup | apply dict_of_functions_named | done |].
    apply filter_values_get; [done..|]. rewrite Hmap. by apply dict_get_app.
  - exists (Raise e). split; [done|]. split; [done|]. split; [done|]. split.
    + destruct (loop_raises _ _ _ _ Hr) as (st & m & Hst & Hm & Hturn).
      destruct (turn_raises prog imps st m e Hst Hm Hturn) as (Hreach & Hcases).
      exists m. split; [done|].
      destruct Hcases as [?|[(txt & Hfile & Hparse & He)|?]]; [by left| |by right; right].
      right. left. exists txt. split; [done|]. split; [done|].
      intros names ->. by eapply parse_bril_not_DefinedTwice.
    + intros Hloads Hroot Hothers.
      destruct (loop_succeeds_functions prog imps fuel Hloads Hroot Hothers Hfuel) as [st Hst].
      rewrite Hst in Hr. done.
Qed.

(** X12.  When every module the imports lead to has a file that parses,
    no module defines a name of the program, and no two modules define
    the same name, [unroll_imports] returns a program, within one turn
    of the loop per file. *)
Theorem unroll_imports_succeeds (prog : program) (imps : list string) :
  imports prog = Some imps →
  (∀ m, reachable imps m → ∃ loaded, load m = Ok loaded) →
  (∀ m loaded f, reachable imps m → load m = Ok loaded → f ∈ functions loaded →
                 name f ∉ name <$> functions prog) →
  (∀ m m' loaded loaded' f f',
     reachable imps m → reachable imps m' → m ≠ m' →
     load m = Ok loaded → load m' = Ok loaded' →
     f ∈ functions loaded → f' ∈ functions loaded' → name f ≠ name f') →
  ∃ p', unroll_imports pick fs (S (size fs)) prog = Some (Ok p').
Proof.
  intros Himps Hloads Hroot Hothers. unfold unroll_imports. rewrite Himps.
  destruct (loop_succeeds prog imps (S (size fs))) as [st ->]; [done| | |lia|by eexists].
  - intros m k Hm Hk. destruct (Hloads m Hm) as [loaded Hload].
    unfold module_dict in Hk. rewrite Hload in Hk.
    apply dict_of_functions_elem_keys, list_elem_of_fmap in Hk as (f & -> & Hf).
    by eapply Hroot.
  - intros m m' k Hm Hm' Hne Hk Hk'.
    destruct (Hloads m Hm) as [loaded Hload], (Hloads m' Hm') as [loaded' Hload'].
    unfold module_dict in Hk, Hk'. rewrite Hload in Hk. rewrite Hload' in Hk'.
    apply dict_of_functions_elem_keys, list_elem_of_fmap in Hk as (f & -> & Hf).
    apply dict_of_functions_elem_keys, list_elem_of_fmap in Hk' as (f' & Heq & Hf').
    by eapply (Hothers m m' loaded loaded' f f').
Qed.

End Run.

(** ** The order of [set.pop()] *)

(** X13.  The order in which [set.pop()] hands out the module names
    decides neither whether [unroll_imports] succeeds nor which functions
    the result holds: when it succeeds for one way of popping, it succeeds
    for every other, and the functions of the two results are the same up
    to their order. *)
Theorem unroll_imports_any_order
    (pick1 pick2 : gset string → option string) (fuel : nat) (prog p1 : program) :
  (∀ s m, pick1 s = Some m → m ∈ s) →
  (∀ s m, pick2 s = Some m → m ∈ s) →
  (∀ s, 0 < size s → is_Some (pick2 s)) →
  unroll_imports pick1 fs fuel prog = Some (Ok p1) →
  ∃ p2, unroll_imports pick2 fs (S (size fs)) prog = Some (Ok p2) ∧
        functions p2 ≡ₚ functions p1.
Proof.
  intros Helem1 Helem2 Hsome2. unfold unroll_imports.
  destruct (imports prog) as [imps|]; [|intros [= <-]; by exists prog].
  destruct (loop pick1 fs fuel (init prog imps)) as [[st1|e]|] eqn:Hloop1; [|done..].
  intros [= <-].
  destruct (loop_result pick1 Helem1 _ _ _ _ Hloop1)
    as (order1 & Hnd1 & Horder1 & Hall1 & Hmap1 & Hkeys1 & _).
  rewrite Hmap1, fmap_app, fmap_concat_fmap in Hkeys1.
  apply NoDup_app in Hkeys1 as (_ & Hroot & Hothers).
  destruct (loop_succeeds pick2 Helem2 Hsome2 prog imps (S (size fs))) as [st2 Hloop2].
  - intros m Hm%Horder1. by eapply Forall_forall in Hall1.
  - intros m k Hm%Horder1 Hk Hk'%dict_of_functions_elem_keys.
    apply (Hroot k Hk'). apply elem_of_concat_fmap. by exists m.
  - intros m m' k Hm%Horder1 Hm'%Horder1 Hne Hk.
    by apply (NoDup_concat_fmap (λ m, (module_dict m).*1) order1 m m').
  - lia.
  - rewrite Hloop2. eexists. split; [done|]. cbn.
    destruct (loop_result pick2 Helem2 _ _ _ _ Hloop2)
      as (order2 & Hnd2 & Horder2 & _ & Hmap2 & _).
    rewrite Hmap1, Hmap2. unfold values. rewrite !fmap_app. f_equiv.
    rewrite !fmap_concat_fmap. apply concat_fmap_Permutation.
    apply NoDup_Permutation; [done..|]. intros m. by rewrite Horder1, Horder2.
Qed.

(** ** Programs that come from the parser *)

(** X14.  A program [parse_bril] made from a text without [import] has
    no key ['imports'], so [unroll_imports] hands it back as it is, the
    functions that share a name included. *)
Theorem parsed_without_imports_unchanged
    (pick : gset string → option string) (fuel : nat) (txt : string) (p : program) :
  parse_bril txt = Ok p → default [] (imports p) = [] →
  imports p = None ∧ unroll_imports pick fs fuel p = Some (Ok p).
Proof.
  intros [Hkey _]%Parsing.parse_bril_lex_headers Hnone.
  assert (imports p = None) as Himps.
  { destruct (imports p) as [imps|]; [|done]. cbn in Hnone. by subst imps. }
  split; [done|]. unfold unroll_imports. by rewrite Himps.
Qed.

End Modules.

(** ** Concrete runs *)

Lemma pick_first_some (s : gset string) : 0 < size s → is_Some (pick_first s).
Proof.
  unfold pick_first, size, set_size. cbn. destruct (elements s); cbn; [lia | by eexists].
Qed.

Lemma pick_last_elem (s : gset string) (m : string) : pick_last s = Some m → m ∈ s.
Proof.
  unfold pick_last. intros Hm. apply elem_of_elements.
  apply last_Some in Hm as [l ->]. apply elem_of_app. right. by left.
Qed.

Lemma pick_last_some (s : gset string) : 0 < size s → is_Some (pick_last s).
Proof.
  unfold pick_last, size, set_size. cbn. destruct (elements s) as [|x l] eqn:Hl; cbn; [lia|].
  intros _. destruct (last (x :: l)) eqn:Hlast; [by eexists|]. by apply last_None in Hlast.
Qed.

(** The only module [prog_imports_B] leads to is B. *)
Lemma reachable_B (m : string) : reachable fs_B ["B"] m → m = "B".
Proof.
  induction 1 as [m Hm|m loaded m' _ -> Hload Hm'].
  - by apply list_elem_of_singleton in Hm.
  - vm_compute in Hload. injection Hload as <-. by apply elem_of_nil in Hm'.
Qed.

(** The root of the diamond defines [main] twice: the run returns
    [diamond_result], with the second [main] as its only [main]. *)
Lemma root_duplicate_last_wins_witness :
  unroll_imports pick_first fs_diamond 4 prog_diamond = Some (Ok diamond_result) ∧
  last (filter (λ h, name h = name main_nop) (functions prog_diamond)) = Some main_ret ∧
  filter (λ h, name h = name main_nop) (functions diamond_result) = [main_ret] ∧
  ∃ g r,
    last (filter (λ h, name h = name main_nop) (functions prog_diamond)) = Some g ∧
    dict_get (name main_nop) (all_functions_map (init prog_diamond ["B"; "C"])) = Some g ∧
    unroll_imports pick_first fs_diamond 4 prog_diamond = Some r ∧
    match r with
    | Ok p' => filter (λ h, name h = name main_nop) (functions p') = [g]
    | Raise e =>
        ∃ m, reachable fs_diamond ["B"; "C"] m ∧
             ((fs_diamond !! path_of m = None ∧ e = SystemExit m) ∨
              (∃ txt, fs_diamond !! path_of m = Some txt ∧ parse_bril txt = Raise e ∧
                      ∀ names, e ≠ DefinedTwice names) ∨
              (∃ loaded names,
                 load fs_diamond m = Ok loaded ∧ e = DefinedTwice names ∧ names ≠ [] ∧
                 ∀ n, n ∈ names →
                      n ∈ name <$> functions loaded ∧
                      (n ∈ name <$> functions prog_diamond ∨
                       ∃ m' loaded', m' ≠ m ∧ reachable fs_diamond ["B"; "C"] m' ∧
                                     load fs_diamond m' = Ok loaded' ∧
                                     n ∈ name <$> functions loaded')))
    end ∧
    ((∀ m, reachable fs_diamond ["B"; "C"] m → ∃ loaded, load fs_diamond m = Ok loaded) →
     (∀ m loaded h, reachable fs_diamond ["B"; "C"] m → load fs_diamond m = Ok loaded →
                    h ∈ functions loaded → name h ∉ name <$> functions prog_diamond) →
     (∀ m m' loaded loaded' h h',
        reachable fs_diamond ["B"; "C"] m → reachable fs_diamond ["B"; "C"] m' → m ≠ m' →
        load fs_diamond m = Ok loaded → load fs_diamond m' = Ok loaded' →
        h ∈ functions loaded → h' ∈ functions loaded' → name h ≠ name h') →
     ∃ p', r = Ok p').
Proof.
  split; [by vm_compute|]. split; [by vm_compute|]. split; [by vm_compute|].
  apply (root_duplicate_last_wins fs_diamond pick_first pick_first_elem pick_first_some 4
           prog_diamond ["B"; "C"] main_nop).
  - reflexivity.
  - by left.
  - vm_compute. lia.
Defined.

(** The diamond. *)
Lemma unroll_imports_result_witness :
  ∃ order,
    NoDup order ∧ (∀ m, m ∈ order ↔ reachable fs_diamond ["B"; "C"] m) ∧
    Forall (λ m, ∃ loaded, load fs_diamond m = Ok loaded) order ∧
    imports diamond_result = None ∧
    functions diamond_result =
      values (dict_of_functions (functions prog_diamond)) ++
      concat ((λ m, values (module_dict fs_diamond m)) <$> order) ∧
    NoDup (name <$> functions diamond_result).
Proof.
  apply (unroll_imports_result fs_diamond pick_first pick_first_elem 4 prog_diamond
           ["B"; "C"] diamond_result); by vm_compute.
Defined.

(** The diamond again. *)
Lemma unroll_imports_functions_witness :
  (∀ f, f ∈ functions diamond_result →
        f ∈ functions prog_diamond ∨
        ∃ m loaded, reachable fs_diamond ["B"; "C"] m ∧ load fs_diamond m = Ok loaded ∧
                    f ∈ functions loaded) ∧
  (∀ n, n ∈ name <$> functions diamond_result ↔
        n ∈ name <$> functions prog_diamond ∨
        ∃ m loaded, reachable fs_diamond ["B"; "C"] m ∧ load fs_diamond m = Ok loaded ∧
                    n ∈ name <$> functions loaded).
Proof.
  apply (unroll_imports_functions fs_diamond pick_first pick_first_elem 4 prog_diamond
           ["B"; "C"] diamond_result); by vm_compute.
Defined.


(** A program that imports B and shares no name with it. *)
Lemma unroll_imports_succeeds_witness :
  ∃ p', unroll_imports pick_first fs_B (S (size fs_B)) prog_imports_B = Some (Ok p').
Proof.
  apply (unroll_imports_succeeds fs_B pick_first pick_first_elem pick_first_some
           prog_imports_B ["B"]).
  - reflexivity.
  - intros m ->%reachable_B. eexists. by vm_compute.
  - intros m loaded f ->%reachable_B Hload Hf. vm_compute in Hload. injection Hload as <-.
    apply list_elem_of_singleton in Hf as ->. cbn. by intros ?%list_elem_of_singleton.
  - by intros m m' loaded loaded' f f' ->%reachable_B ->%reachable_B.
Defined.

(** The diamond, popped from the front and from the back. *)
Lemma unroll_imports_any_order_witness :
  ∃ p2, unroll_imports pick_last fs_diamond (S (size fs_diamond)) prog_diamond = Some (Ok p2) ∧
        functions p2 ≡ₚ functions diamond_result.
Proof.
  apply (unroll_imports_any_order fs_diamond pick_first pick_last 4 prog_diamond diamond_result
           pick_first_elem pick_last_elem pick_last_some).
  by vm_compute.
Defined.

(** One function, no import. *)
Lemma parsed_without_imports_unchanged_witness :
  imports {| functions := [main_nop]; imports := None |} = None ∧
  unroll_imports pick_first fs_B 0 {| functions := [main_nop]; imports := None |} =
    Some (Ok {| functions := [main_nop]; imports := None |}).
Proof.
  apply (parsed_without_imports_unchanged fs_B pick_first 0 "main { nop; }"
           {| functions := [main_nop]; imports := None |}); by vm_compute.
Defined.

End Imports.

(** * What the commands print *)

Module EntryPoints.
Import Lexical Roundtrip.

Lemma escape_plain (c : ascii) : all_chars plain_ascii (escape_char c) = true.
Proof. destruct c as [[] [] [] [] [] [] [] []]; by vm_compute. Qed.

Lemma escape_length (c : ascii) : 1 ≤ String.length (escape_char c).
Proof. destruct c as [[] [] [] [] [] [] [] []]; vm_compute; lia. Qed.

Lemma escape_all_plain (s : string) : all_chars plain_ascii (escape_all s) = true.
Proof.
  induction s as [|c s IH]; [done|]. cbn [escape_all].
  by rewrite all_chars_app, escape_plain, IH.
Qed.

Lemma escape_all_length (s : string) : String.length s ≤ String.length (escape_all s).
Proof.
  induction s as [|c s IH]; [done|]. cbn [escape_all String.length].
  rewrite string_length_app. pose proof (escape_length c). lia.
Qed.

Lemma all_chars_elem (p : ascii → bool) (s : string) (c : ascii) :
  all_chars p s = true → c ∈ list_ascii_of_string s → p c = true.
Proof.
  unfold all_chars. induction s as [|x s IH]; cbn; [by intros _ ?%elem_of_nil|].
  intros [Hx Hs]%andb_true_iff [->|Hc]%elem_of_cons; [done | by apply IH].
Qed.

(** X15.  [loadbril] prints the resolved program encoded twice:
    [unroll_imports] returns the JSON text of the program, and
    [json.dumps] turns that text into one JSON string.  What is printed
    starts and ends with a double double_quote, consists of plain_ascii ASCII
    characters only, so that it holds no line break whatever the
    indentation of the inner text, and it is not the JSON text of the
    program. *)
Theorem loadbril_prints_a_string
    (dumps : program → string) (pick : gset string → option string)
    (fs : gmap string string) (fuel : nat) (prog : program) (out : string) :
  loadbril dumps pick fs fuel prog = Some (Ok out) →
  ∃ p',
    unroll_imports pick fs fuel prog = Some (Ok p') ∧
    out = String double_quote (escape_all (dumps p') +:+ String double_quote "") ∧
    all_chars plain_ascii out = true ∧
    (nl ∉ list_ascii_of_string out) ∧
    out ≠ dumps p'.
Proof.
  unfold loadbril, unroll_imports_text.
  destruct (unroll_imports pick fs fuel prog) as [[p'|e]|]; [|done..].
  cbn. intros [= <-]. exists p'. split; [done|]. split; [done|].
  assert (all_chars plain_ascii (encode_basestring_ascii (dumps p')) = true) as Hplain.
  { unfold encode_basestring_ascii. rewrite all_chars_cons, all_chars_app, escape_all_plain.
    done. }
  split; [done|]. split.
  - intros Hnl. by apply (all_chars_elem _ _ _ Hplain) in Hnl.
  - intros Heq%(f_equal String.length). unfold encode_basestring_ascii in Heq.
    cbn [String.length] in Heq. rewrite string_length_app in Heq.
    pose proof (escape_all_length (dumps p')). cbn in Heq. lia.
Qed.

(** The program without functions, and its JSON text. *)
Lemma loadbril_prints_a_string_witness :
  loadbril dumps_empty pick_first ∅ 0 empty_program = Some (Ok loadbril_empty) ∧
  ∃ p',
    unroll_imports pick_first ∅ 0 empty_program = Some (Ok p') ∧
    loadbril_empty = String double_quote (escape_all (dumps_empty p') +:+ String double_quote "") ∧
    all_chars plain_ascii loadbril_empty = true ∧
    (nl ∉ list_ascii_of_string loadbril_empty) ∧
    loadbril_empty ≠ dumps_empty p'.
Proof.
  split; [by vm_compute|].
  apply (loadbril_prints_a_string dumps_empty pick_first ∅ 0 empty_program loadbril_empty).
  by vm_compute.
Defined.

End EntryPoints.
